(** * Sileo: toast store, view adapter (Toaster) and per-toast visual
    state machine.

    A shallow embedding of [src/core/types.ts], [src/react/toaster.tsx],
    [src/vue/toaster.ts] and [src/vue/sileo.ts].  Milliseconds and pixels
    are integers ([Z]); JS [Map]s are [gmap]s; [undefined]/[null] is
    [None]; the browser's timer table is an explicit [Window] value that
    is threaded through every operation. *)

From stdpp Require Import functions gmap strings list fin_maps pretty.
From Stdlib Require Import ZArith Lia.

Local Open Scope Z_scope.

(** ** core/types.ts *)

Inductive SileoState : Set :=
  | success | loading | error | warning | info | action.

Inductive SileoPosition : Set :=
  | top_left | top_center | top_right
  | bottom_left | bottom_center | bottom_right.

Definition SILEO_POSITIONS : list SileoPosition :=
  [top_left; top_center; top_right; bottom_left; bottom_center; bottom_right].

#[global] Instance SileoState_eq_dec : EqDecision SileoState.
Proof. solve_decision. Defined.

#[global] Instance SileoPosition_eq_dec : EqDecision SileoPosition.
Proof. solve_decision. Defined.

(** [Renderable | string]: a text, or a framework node (always truthy). *)
Inductive Renderable : Set :=
  | Text (s : string)
  | Node (n : nat).

#[global] Instance Renderable_eq_dec : EqDecision Renderable.
Proof. solve_decision. Defined.

Record SileoStyles : Set := mkStyles {
  st_title : option string;
  st_description : option string;
  st_badge : option string;
  st_button : option string
}.

#[global] Instance SileoStyles_eq_dec : EqDecision SileoStyles.
Proof. solve_decision. Defined.

Record SileoButton : Set := mkButton {
  btn_title : string;
  btn_onClick : nat
}.

#[global] Instance SileoButton_eq_dec : EqDecision SileoButton.
Proof. solve_decision. Defined.

(** The fields of a store item that the adapters read. *)
Record SileoItem : Set := mkItem {
  id : string;
  instanceId : string;
  state : SileoState;
  title : option string;
  description : option Renderable;
  button : option SileoButton;
  position : option SileoPosition;
  duration : option Z;
  exiting : bool;
  autoExpandDelayMs : option Z;
  autoCollapseDelayMs : option Z
}.

#[global] Instance SileoItem_eq_dec : EqDecision SileoItem.
Proof. solve_decision. Defined.

(** JS [a ?? b]. *)
Definition nullish {A} (a b : option A) : option A :=
  match a with Some _ => a | None => b end.

(** ** The browser's timer table

    [window.setTimeout(cb, ms)] hands out a fresh positive handle and
    files the callback under it with its due time; [clearTimeout] drops
    the entry; the event loop may run an entry only once the clock has
    reached its due time.  [C] is the type of callbacks. *)

Module Win.
Section Window.
Context {C : Type}.

Record t : Type := mk {
  now : Z;
  nextHandle : nat;
  pending : gmap nat (Z * C)
}.

Definition init : t := mk 0 1 ∅.

Definition setTimeout (cb : C) (ms : Z) (w : t) : nat * t :=
  (nextHandle w,
   mk (now w) (S (nextHandle w))
      (<[nextHandle w := (now w + ms, cb)]> (pending w))).

Definition clearTimeout (h : nat) (w : t) : t :=
  mk (now w) (nextHandle w) (delete h (pending w)).

Definition clearTimeouts (hs : list nat) (w : t) : t :=
  foldl (λ w h, clearTimeout h w) w hs.

(** The clock moves forward by [dt] milliseconds. *)
Definition advance (dt : Z) (w : t) : t :=
  mk (now w + Z.max 0 dt) (nextHandle w) (pending w).

(** The event loop takes the timer [h] if it is due: the callback to
    run, and the table without it. *)
Definition take (h : nat) (w : t) : option (C * t) :=
  match pending w !! h with
  | Some (due, cb) =>
      if decide (due ≤ now w) then Some (cb, clearTimeout h w) else None
  | None => None
  end.

(** Handles handed out so far are below [nextHandle]. *)
Definition wf (w : t) : Prop :=
  ∀ h e, pending w !! h = Some e → (h < nextHandle w)%nat.

End Window.
Arguments t : clear implicits.
End Win.

(** ** core/store.ts

    Modelled from the spec: [core/store.ts] (the Store, [timeoutKey],
    [dismissToast], the id generator, [show], [promise], [dismiss],
    [clear]) is imported by both adapters but is not among the sources.
    Section 4.1 of the specification: [show] resolves the options
    against the defaults, assigns a new id and appends; [dismiss] marks
    a present, non-exiting toast as exiting; [clear] empties the list;
    a settled promise replaces the content in place under a new
    instanceId unless the toast has been dismissed; the adapter's
    exit-animation completion removes a toast from the list. *)

Module Store.

(** Caller-supplied options ([SileoOptions] of core/types.ts, the fields
    of the data model that the Store keeps).  [o_duration]: [None] is an
    omitted field, [Some None] is an explicit [null]. *)
Record Options : Set := mkOptions {
  o_title : option string;
  o_description : option Renderable;
  o_button : option SileoButton;
  o_position : option SileoPosition;
  o_duration : option (option Z);
  o_autopilot : option (option Z * option Z)
}.

(** The resolved position of an item (the Store has a [position] of its
    own below). *)
Definition positionOf (x : SileoItem) : option SileoPosition := position x.

Definition markExiting (x : SileoItem) : SileoItem :=
  mkItem (id x) (instanceId x) (state x) (title x) (description x)
         (button x) (position x) (duration x) true
         (autoExpandDelayMs x) (autoCollapseDelayMs x).

(** Toast [x] is the one called [i] and has not been dismissed. *)
Definition live (i : string) (x : SileoItem) : bool :=
  bool_decide (id x = i) && negb (exiting x).

Record t : Set := mk {
  toasts : list SileoItem;
  counter : nat;
  position : SileoPosition;
  options : option Options
}.

Definition init : t := mk [] 0 top_right None.

(** Modelled from the spec: "assigns a new id".  Ids and instance ids
    are drawn from one counter that only grows. *)
Definition generateId (st : t) : string * t :=
  (pretty (counter st),
   mk (toasts st) (S (counter st)) (position st) (options st)).

(** Modelled from the spec: "a composite key of id + instanceId". *)
Definition timeoutKey (item : SileoItem) : string :=
  id item +:+ ":" +:+ instanceId item.

(** Call-site options merged over the process-wide defaults. *)
Definition mergeOptions (defaults : option Options) (o : Options) : Options :=
  match defaults with
  | None => o
  | Some d =>
      mkOptions (nullish (o_title o) (o_title d))
                (nullish (o_description o) (o_description d))
                (nullish (o_button o) (o_button d))
                (nullish (o_position o) (o_position d))
                (nullish (o_duration o) (o_duration d))
                (nullish (o_autopilot o) (o_autopilot d))
  end.

Definition buildItem (st : t) (i inst : string) (s : SileoState)
    (o : Options) : SileoItem :=
  let m := mergeOptions (options st) o in
  mkItem i inst s (o_title m) (o_description m) (o_button m)
         (Some (default (position st) (o_position m)))
         (mjoin (o_duration m))
         false
         (o_autopilot m ≫= fst)
         (o_autopilot m ≫= snd).

Definition setToasts (ts : list SileoItem) (st : t) : t :=
  mk ts (counter st) (position st) (options st).

(** [show(options) -> id]. *)
Definition showWith (s : SileoState) (o : Options) (st : t) : string * t :=
  let '(i, st1) := generateId st in
  let '(inst, st2) := generateId st1 in
  (i, setToasts (toasts st2 ++ [buildItem st2 i inst s o]) st2).

(** The state of a toast shown through plain [show]; the wrappers fix
    it. *)
Definition show := showWith info.
Definition success := showWith success.
Definition error := showWith error.
Definition warning := showWith warning.
Definition info := showWith info.
Definition action := showWith action.

(** [promise(op, {loading, ...})] shows the loading toast at once. *)
Definition promise (loadingOpts : Options) (st : t) : string * t :=
  showWith loading loadingOpts st.

(** The in-place replacement of the content of toast [i]: same id, a
    new instanceId, not exiting. *)
Definition replaceContent (st : t) (inst : string) (s : SileoState)
    (o : Options) (old : SileoItem) : SileoItem :=
  let item := buildItem st (id old) inst s o in
  mkItem (id item) (instanceId item) (state item) (title item)
         (description item) (button item) (positionOf old) (duration item)
         false (autoExpandDelayMs item) (autoCollapseDelayMs item).

(** The settlement of the operation behind a [promise] toast: replaces
    the content unless the toast is gone or already exiting. *)
Definition settle (i : string) (s : SileoState) (o : Options) (st : t) : t :=
  if existsb (live i) (toasts st) then
    let '(inst, st1) := generateId st in
    setToasts
      ((λ x, if live i x then replaceContent st1 inst s o x else x)
         <$> toasts st1)
      st1
  else st.

(** [dismiss(id)] and the adapters' [dismissToast(id)]. *)
Definition dismissToast (i : string) (st : t) : t :=
  setToasts
    ((λ x, if live i x then markExiting x else x) <$> toasts st) st.

(** [dismiss()] without an id. *)
Definition dismissAll (st : t) : t :=
  setToasts
    ((λ x, if exiting x then x else markExiting x) <$> toasts st) st.

Definition clear (st : t) : t := setToasts [] st.

(** The end of the exit animation of toast [i]. *)
Definition remove (i : string) (st : t) : t :=
  setToasts (filter (λ x, id x ≠ i) (toasts st)) st.

(** The calls a program can make on the Store. *)
Inductive Call : Set :=
  | CShow (s : SileoState) (o : Options)
  | CPromise (o : Options)
  | CSettle (i : string) (s : SileoState) (o : Options)
  | CDismiss (i : string)
  | CDismissAll
  | CClear
  | CRemove (i : string).

(** One call: the id it returns, if any, and the Store after it. *)
Definition call (c : Call) (st : t) : option string * t :=
  match c with
  | CShow s o => let '(i, st') := showWith s o st in (Some i, st')
  | CPromise o => let '(i, st') := promise o st in (Some i, st')
  | CSettle i s o => (None, settle i s o st)
  | CDismiss i => (None, dismissToast i st)
  | CDismissAll => (None, dismissAll st)
  | CClear => (None, clear st)
  | CRemove i => (None, remove i st)
  end.

(** A sequence of calls: the ids returned, in order, and the final
    Store. *)
Fixpoint run (cs : list Call) (st : t) : list string * t :=
  match cs with
  | [] => ([], st)
  | c :: cs' =>
      let '(r, st1) := call c st in
      let '(rs, st2) := run cs' st1 in
      (from_option (λ i, [i]) [] r ++ rs, st2)
  end.

(** The ids of the list are numbers the counter has passed, and no id
    occurs twice. *)
Definition used (st : t) (i : string) : Prop :=
  ∃ n, i = pretty n ∧ (n < counter st)%nat.

Record Inv (st : t) : Prop := mkInv {
  inv_used : ∀ x, x ∈ toasts st → used st (id x);
  inv_nodup : NoDup (id <$> toasts st)
}.

(** No toast called [i] can still be updated: each one is exiting. *)
Definition dismissed (i : string) (st : t) : Prop :=
  ∀ x, x ∈ toasts st → id x = i → exiting x = true.

End Store.

(** ** react/toaster.tsx and vue/toaster.ts: the View Adapter

    The two adapters keep the same local state and run the same code
    on it; the names below are those of vue/toaster.ts, with the React
    ref of the same role in the comment. *)

Module Toaster.

(** The only callback the adapter hands to [window.setTimeout]:
    [() => dismissToast(item.id)]. *)
Inductive Callback : Set :=
  | DismissToast (i : string).

Record t : Type := mk {
  toasts : list SileoItem;        (* toasts.value; listRef.current *)
  activeId : option string;
  isHovering : bool;              (* hoverRef.current *)
  timers : gmap string nat;       (* timersRef.current *)
  latestId : option string;       (* latestRef.current *)
  handlersCache : gset string;
  listening : bool                (* the listener is in store.listeners *)
}.

(** The state at the end of [setup]: the [immediate] watcher on
    [latest] has run on the empty list. *)
Definition init : t := mk [] None false ∅ None ∅ false.

Definition withTimers (m : gmap string nat) (a : t) : t :=
  mk (toasts a) (activeId a) (isHovering a) m (latestId a)
     (handlersCache a) (listening a).

Definition withHover (b : bool) (a : t) : t :=
  mk (toasts a) (activeId a) b (timers a) (latestId a)
     (handlersCache a) (listening a).

Definition withActive (i : option string) (a : t) : t :=
  mk (toasts a) i (isHovering a) (timers a) (latestId a)
     (handlersCache a) (listening a).

Definition withLatest (i : option string) (a : t) : t :=
  mk (toasts a) (activeId a) (isHovering a) (timers a) i
     (handlersCache a) (listening a).

Definition withToasts (ts : list SileoItem) (a : t) : t :=
  mk ts (activeId a) (isHovering a) (timers a) (latestId a)
     (handlersCache a) (listening a).

Definition withCache (c : gset string) (a : t) : t :=
  mk (toasts a) (activeId a) (isHovering a) (timers a) (latestId a)
     c (listening a).

Definition withListening (b : bool) (a : t) : t :=
  mk (toasts a) (activeId a) (isHovering a) (timers a) (latestId a)
     (handlersCache a) b.

(** The adapter together with the browser's timer table. *)
Definition St : Type := t * Win.t Callback.

(** The handles held in the [timers] map. *)
Definition handles (m : gmap string nat) : list nat := (map_to_list m).*2.

Definition clearAllTimers (s : St) : St :=
  let '(a, w) := s in
  (withTimers ∅ a, Win.clearTimeouts (handles (timers a)) w).

Section WithDefault.
(** [DEFAULT_DURATION] is a constant of core/store.ts; its value is not
    among the sources. *)
Variable DEFAULT_DURATION : option Z.

(** The body of the loop of [schedule]. *)
Definition scheduleItem (s : St) (item : SileoItem) : St :=
  let '(a, w) := s in
  if exiting item then s else
  let key := Store.timeoutKey item in
  if bool_decide (is_Some (timers a !! key)) then s else
  match nullish (duration item) DEFAULT_DURATION with
  | None => s
  | Some dur =>
      if bool_decide (dur ≤ 0) then s else
      let '(h, w') := Win.setTimeout (DismissToast (id item)) dur w in
      (withTimers (<[key := h]> (timers a)) a, w')
  end.

Definition schedule (items : list SileoItem) (s : St) : St :=
  if isHovering s.1 then s else foldl scheduleItem s items.

(** The first loop of the watcher on [toasts]: timers whose key is no
    longer in the list are cleared and forgotten. *)
Definition pruneTimers (items : list SileoItem) (s : St) : St :=
  let '(a, w) := s in
  let toastKeys := Store.timeoutKey <$> items in
  let stale := filter (λ kv, kv.1 ∉ toastKeys) (timers a) in
  (withTimers (filter (λ kv, kv.1 ∈ toastKeys) (timers a)) a,
   Win.clearTimeouts (handles stale) w).

(** The second loop: handlers of toasts that are gone are evicted. *)
Definition pruneHandlers (items : list SileoItem) (a : t) : t :=
  withCache (filter (λ i, i ∈ id <$> items) (handlersCache a)) a.

(** [watch(toasts, ...)] (the effect on [toasts] in React). *)
Definition onToasts (items : list SileoItem) (s : St) : St :=
  let '(a, w) := pruneTimers items s in
  schedule items (pruneHandlers items a, w).

(** [latest]: the id of the last toast that is not exiting. *)
Definition latest (ts : list SileoItem) : option string :=
  id <$> List.find (λ x, negb (exiting x)) (reverse ts).

(** [watch(latest, ...)] runs when the value of [latest] changes. *)
Definition onLatest (old : list SileoItem) (a : t) : t :=
  if bool_decide (latest old = latest (toasts a)) then a
  else withActive (latest (toasts a)) (withLatest (latest (toasts a)) a).

(** The render calls [getHandlers(item.id)] for every item. *)
Definition render (a : t) : t :=
  withCache (handlersCache a ∪ list_to_set (id <$> toasts a)) a.

(** The store listener, with the watchers it triggers and the render
    that follows. *)
Definition listener (next : list SileoItem) (s : St) : St :=
  let '(a, w) := s in
  let '(a1, w1) := onToasts next (withToasts next a, w) in
  (render (onLatest (toasts a) a1), w1).

(** [onMounted]. *)
Definition mount (storeToasts : list SileoItem) (s : St) : St :=
  let '(a, w) := listener storeToasts s in
  (withListening true a, w).

(** [onUnmounted] (the cleanup of the subscription effect in React). *)
Definition unmount (s : St) : St :=
  let '(a, w) := s in
  clearAllTimers (withListening false a, w).

(** [getHandlers(toastId).enter]. *)
Definition enter (toastId : string) (s : St) : St :=
  let '(a, w) := s in
  let a1 := withActive (Some toastId) a in
  if isHovering a1 then (a1, w)
  else clearAllTimers (withHover true a1, w).

(** [getHandlers(toastId).leave]. *)
Definition leave (toastId : string) (s : St) : St :=
  let '(a, w) := s in
  let a1 := withActive (latestId a) a in
  if isHovering a1 then schedule (toasts a1) (withHover false a1, w)
  else (a1, w).

(** The [canExpand] prop the render passes to the toast [item]. *)
Definition canExpand (a : t) (item : SileoItem) : bool :=
  bool_decide (activeId a = None) || bool_decide (activeId a = Some (id item)).

End WithDefault.

(** *** [getViewportStyle] *)

(** [SileoOffsetValue = number | string]. *)
Inductive SileoOffsetValue : Set :=
  | OffNum (n : Z)
  | OffStr (s : string).

(** [SileoOffsetConfig]: every edge is optional. *)
Record SileoOffsetConfig : Set := mkOffset {
  off_top : option SileoOffsetValue;
  off_right : option SileoOffsetValue;
  off_bottom : option SileoOffsetValue;
  off_left : option SileoOffsetValue
}.

(** The [offset] prop: one value, or a value per edge. *)
Inductive Offset : Set :=
  | Scalar (v : SileoOffsetValue)
  | PerEdge (o : SileoOffsetConfig).

(** The style object that is returned: the CSS properties it sets. *)
Record Style : Set := mkStyle {
  css_top : option string;
  css_right : option string;
  css_bottom : option string;
  css_left : option string
}.

Definition positionName (pos : SileoPosition) : string :=
  match pos with
  | top_left => "top-left"
  | top_center => "top-center"
  | top_right => "top-right"
  | bottom_left => "bottom-left"
  | bottom_center => "bottom-center"
  | bottom_right => "bottom-right"
  end.

Definition startsWith (s pre : string) : bool := String.prefix pre s.

Definition endsWith (s suf : string) : bool :=
  String.prefix (String.rev suf) (String.rev s).

(** JS truthiness of [o.edge]: [undefined], [0] and the empty string
    are falsy. *)
Definition truthy (v : option SileoOffsetValue) : bool :=
  match v with
  | None => false
  | Some (OffNum n) => negb (n =? 0)
  | Some (OffStr s) => negb (String.eqb s "")
  end.

Definition px (v : SileoOffsetValue) : string :=
  match v with
  | OffNum n => pretty n +:+ "px"
  | OffStr s => s
  end.

(** The values a caller may pass for "zero": the number 0 or the empty
    string. *)
Definition zeroOffset (asNumber : bool) : SileoOffsetValue :=
  if asNumber then OffNum 0 else OffStr "".

(** [cond && o.edge] guarding [s.edge = px(o.edge)]. *)
Definition emit (cond : bool) (v : option SileoOffsetValue) : option string :=
  if cond && truthy v then px <$> v else None.

Definition getViewportStyle (offset : option Offset) (pos : SileoPosition)
    : option Style :=
  match offset with
  | None => None
  | Some off =>
      let o := match off with
               | PerEdge o => o
               | Scalar v => mkOffset (Some v) (Some v) (Some v) (Some v)
               end in
      let p := positionName pos in
      Some (mkStyle (emit (startsWith p "top") (off_top o))
                    (emit (endsWith p "right") (off_right o))
                    (emit (startsWith p "bottom") (off_bottom o))
                    (emit (endsWith p "left") (off_left o)))
  end.

(** The four edges, and the CSS offset the viewport gets on an edge
    ([style: undefined] sets nothing). *)
Inductive Edge : Set := ETop | ERight | EBottom | ELeft.

Definition edgeOf (e : Edge) (o : SileoOffsetConfig) : option SileoOffsetValue :=
  match e with
  | ETop => off_top o
  | ERight => off_right o
  | EBottom => off_bottom o
  | ELeft => off_left o
  end.

Definition setEdge (e : Edge) (v : option SileoOffsetValue)
    (o : SileoOffsetConfig) : SileoOffsetConfig :=
  match e with
  | ETop => mkOffset v (off_right o) (off_bottom o) (off_left o)
  | ERight => mkOffset (off_top o) v (off_bottom o) (off_left o)
  | EBottom => mkOffset (off_top o) (off_right o) v (off_left o)
  | ELeft => mkOffset (off_top o) (off_right o) (off_bottom o) v
  end.

Definition cssOf (e : Edge) (s : option Style) : option string :=
  match s with
  | None => None
  | Some st =>
      match e with
      | ETop => css_top st
      | ERight => css_right st
      | EBottom => css_bottom st
      | ELeft => css_left st
      end
  end.

(** The edges a position names: [startsWith("top")] and so on. *)
Definition touches (pos : SileoPosition) (e : Edge) : bool :=
  match pos, e with
  | (top_left | top_center | top_right), ETop => true
  | (bottom_left | bottom_center | bottom_right), EBottom => true
  | (top_left | bottom_left), ELeft => true
  | (top_right | bottom_right), ERight => true
  | _, _ => false
  end.

(** The per-edge configuration an [offset] stands for. *)
Definition edgesOf (off : Offset) : SileoOffsetConfig :=
  match off with
  | PerEdge o => o
  | Scalar v => mkOffset (Some v) (Some v) (Some v) (Some v)
  end.

(** *** Grouping *)

(** The object [map] of [byPosition]: a list per position, or
    nothing. *)
Abbreviation PosMap := (SileoPosition → option (list SileoItem)).

(** The position a toast is rendered at: its own, or the adapter's
    [position] prop. *)
Definition resolvedPosition (defaultPos : SileoPosition) (t : SileoItem)
    : SileoPosition :=
  default defaultPos (position t).

(** The body of the loop of [byPosition]. *)
Definition groupItem (defaultPos : SileoPosition) (map : PosMap)
    (t : SileoItem) : PosMap :=
  let pos := resolvedPosition defaultPos t in
  match map pos with
  | Some arr => <[pos := Some (arr ++ [t])]> map
  | None => <[pos := Some [t]]> map
  end.

Definition byPosition (defaultPos : SileoPosition) (ts : list SileoItem)
    : PosMap :=
  foldl (groupItem defaultPos) (λ _, None) ts.

(** The viewports the render function pushes: one per position of
    [SILEO_POSITIONS] whose list is there and not empty, with its
    items. *)
Definition viewports (defaultPos : SileoPosition) (ts : list SileoItem)
    : list (SileoPosition * list SileoItem) :=
  omap (λ pos,
          match byPosition defaultPos ts pos with
          | Some items => if (length items =? 0)%nat then None else Some (pos, items)
          | None => None
          end)
       SILEO_POSITIONS.

End Toaster.
(** ** The adapter under the events it can receive *)

Module Adapter.

Inductive Event : Type :=
  | EListener (next : list SileoItem)  (* the Store notifies *)
  | EEnter (toastId : string)          (* mouseenter on a toast *)
  | ELeave (toastId : string)          (* mouseleave on a toast *)
  | EAdvance (dt : Z)                  (* time passes *)
  | EFire (h : nat)                    (* the event loop runs a due timer *)
  | EUnmount.

Section WithDefault.
Variable DEFAULT_DURATION : option Z.

(** One event.  The Store calls the listener only while it is
    subscribed.  A timer that fires leaves the table; what its callback
    does to the Store comes back as a later [EListener]. *)
Definition step (s : Toaster.St) (e : Event) : Toaster.St :=
  match e with
  | EListener next =>
      if Toaster.listening s.1
      then Toaster.listener DEFAULT_DURATION next s else s
  | EEnter i => Toaster.enter i s
  | ELeave i => Toaster.leave DEFAULT_DURATION i s
  | EAdvance dt => (s.1, Win.advance dt s.2)
  | EFire h =>
      match Win.take h s.2 with
      | Some (_, w') => (s.1, w')
      | None => s
      end
  | EUnmount => Toaster.unmount s
  end.

(** The adapter mounted on a Store that holds [ts]. *)
Definition mounted (ts : list SileoItem) : Toaster.St :=
  Toaster.mount DEFAULT_DURATION ts (Toaster.init, Win.init).

Definition run (evs : list Event) (s : Toaster.St) : Toaster.St :=
  foldl step s evs.

End WithDefault.

(** [s'] differs from [s] in the timers only, and time has not
    passed. *)
Definition timersOnly (s s' : Toaster.St) : Prop :=
  Toaster.toasts s'.1 = Toaster.toasts s.1 ∧
  Toaster.activeId s'.1 = Toaster.activeId s.1 ∧
  Toaster.isHovering s'.1 = Toaster.isHovering s.1 ∧
  Toaster.latestId s'.1 = Toaster.latestId s.1 ∧
  Toaster.handlersCache s'.1 = Toaster.handlersCache s.1 ∧
  Toaster.listening s'.1 = Toaster.listening s.1 ∧
  Win.now s'.2 = Win.now s.2 ∧
  (Win.nextHandle s.2 ≤ Win.nextHandle s'.2)%nat.

(** Every pending timer is held in the [timers] map: no timer is out
    of the adapter's reach. *)
Definition noLeak (s : Toaster.St) : Prop :=
  ∀ h e, Win.pending s.2 !! h = Some e →
         ∃ k, Toaster.timers s.1 !! k = Some h.

(** While the pointer is over a toast the [timers] map is empty. *)
Definition hoverIdle (s : Toaster.St) : Prop :=
  Toaster.isHovering s.1 = true → Toaster.timers s.1 = ∅.

Record Inv (s : Toaster.St) : Prop := mkInv {
  inv_wf : Win.wf s.2;
  inv_noLeak : noLeak s;
  inv_hover : hoverIdle s
}.

(** What else every reachable adapter state satisfies: timers are held
    only under keys of tracked toasts, under handles that were handed
    out, one key per handle; [latestId] is the [latest] of the tracked
    list, and no toast is active only when none is left that is not
    exiting; the handlers cache holds the ids of the tracked toasts. *)
Record Synced (s : Toaster.St) : Prop := mkSynced {
  syn_tracked : ∀ k h, Toaster.timers s.1 !! k = Some h →
                       k ∈ Store.timeoutKey <$> Toaster.toasts s.1;
  syn_fresh : ∀ k h, Toaster.timers s.1 !! k = Some h →
                     (h < Win.nextHandle s.2)%nat;
  syn_inj : ∀ k k' h, Toaster.timers s.1 !! k = Some h →
                      Toaster.timers s.1 !! k' = Some h → k = k';
  syn_latest : Toaster.latestId s.1 = Toaster.latest (Toaster.toasts s.1);
  syn_active : Toaster.activeId s.1 = None →
               Toaster.latest (Toaster.toasts s.1) = None;
  syn_cache : Toaster.handlersCache s.1
              = list_to_set (id <$> Toaster.toasts s.1)
}.

(** The part of [Synced] that is about timers, for the keys [keys]. *)
Definition timersOk (keys : list string) (s : Toaster.St) : Prop :=
  (∀ k h, Toaster.timers s.1 !! k = Some h → k ∈ keys) ∧
  (∀ k h, Toaster.timers s.1 !! k = Some h → (h < Win.nextHandle s.2)%nat) ∧
  (∀ k k' h, Toaster.timers s.1 !! k = Some h →
             Toaster.timers s.1 !! k' = Some h → k = k').

End Adapter.

(** ** Store and adapter together *)

Module App.

Record t : Type := mk {
  store : Store.t;
  view : Toaster.St
}.

Inductive Event : Type :=
  | ECall (c : Store.Call)
  | EEnter (toastId : string)
  | ELeave (toastId : string)
  | EAdvance (dt : Z)
  | EFire (h : nat)
  | EUnmount.

Section WithDefault.
Variable DEFAULT_DURATION : option Z.

(** A mutation of the Store, followed at once by the notification of
    the subscribed adapter. *)
Definition notify (st : Store.t) (v : Toaster.St) : t :=
  mk st (Adapter.step DEFAULT_DURATION v (Adapter.EListener (Store.toasts st))).

Definition step (a : t) (e : Event) : t :=
  match e with
  | ECall c => notify (Store.call c (store a)).2 (view a)
  | EEnter i => mk (store a) (Toaster.enter i (view a))
  | ELeave i => mk (store a) (Toaster.leave DEFAULT_DURATION i (view a))
  | EAdvance dt => mk (store a) ((view a).1, Win.advance dt (view a).2)
  | EFire h =>
      match Win.take h (view a).2 with
      | Some (Toaster.DismissToast i, w') =>
          notify (Store.dismissToast i (store a)) ((view a).1, w')
      | None => a
      end
  | EUnmount => mk (store a) (Toaster.unmount (view a))
  end.

Definition init : t :=
  mk Store.init (Adapter.mounted DEFAULT_DURATION []).

Definition run (evs : list Event) (a : t) : t := foldl step a evs.

End WithDefault.
End App.

(** ** vue/sileo.ts: the visual state machine of one toast *)

Module Sileo.

(** *** Config *)

Definition HEIGHT : Z := 40.
Definition WIDTH : Z := 350.
Definition DEFAULT_ROUNDNESS : Z := 18.
Definition PILL_PADDING : Z := 10.
(** [MIN_EXPAND_RATIO = 2.25], as the fraction 9/4; [HEIGHT * 2.25] is
    the integer 90. *)
Definition MIN_EXPAND_RATIO : Z * Z := (9, 4).
Definition SWAP_COLLAPSE_MS : Z := 200.
Definition HEADER_EXIT_MS : Z := 150.
Definition SWIPE_DISMISS : Z := 30.
Definition SWIPE_MAX : Z := 20.

Inductive PillAlign : Set := pa_left | pa_center | pa_right.
Inductive ExpandDir : Set := ed_top | ed_bottom.

#[global] Instance PillAlign_eq_dec : EqDecision PillAlign.
Proof. solve_decision. Defined.
#[global] Instance ExpandDir_eq_dec : EqDecision ExpandDir.
Proof. solve_decision. Defined.

Record View : Set := mkView {
  v_title : string;
  v_description : option Renderable;
  v_state : SileoState;
  v_icon : option Renderable;
  v_styles : option SileoStyles;
  v_button : option SileoButton;
  v_fill : string
}.

#[global] Instance View_eq_dec : EqDecision View.
Proof. solve_decision. Defined.

(** The props; of a function prop only whether it is given. *)
Record Props : Set := mkProps {
  p_id : string;
  p_fill : string;
  p_state : SileoState;
  p_title : option string;
  p_description : option Renderable;
  p_position : PillAlign;
  p_expand : ExpandDir;
  p_icon : option Renderable;
  p_styles : option SileoStyles;
  p_button : option SileoButton;
  p_roundness : option Z;
  p_exiting : bool;
  p_autoExpandDelayMs : option Z;
  p_autoCollapseDelayMs : option Z;
  p_canExpand : option bool;
  p_interruptKey : option string;
  p_refreshKey : option string;
  p_onMouseEnter : bool;
  p_onMouseLeave : bool;
  p_onDismiss : bool
}.

(** [pendingView]. *)
Record Pending : Set := mkPending {
  pv_key : string;
  pv_payload : View
}.

(** [headerLayer]. *)
Record HeaderLayer : Set := mkHeaderLayer {
  hl_current : string * View;
  hl_prev : option (string * View)
}.

(** The callbacks handed to [window.setTimeout], to
    [requestAnimationFrame], and the elements given to a
    [ResizeObserver]. *)
Inductive Callback : Set :=
  | CbHeaderExit | CbAutoExpand | CbAutoCollapse | CbSwap.

Inductive Frame : Set :=
  | FrReady | FrMeasurePill | FrMeasureContent.

Inductive Target : Set :=
  | TgInner | TgContent.

(** The calls of the function props. *)
Inductive Out : Set :=
  | OMouseEnter | OMouseLeave | ODismiss.

(** The browser around the component: timers, requested animation
    frames, connected resize observers, and the calls made to the
    parent so far. *)
Record Env : Type := mkEnv {
  win : Win.t Callback;
  frames : gmap nat Frame;
  nextFrame : nat;
  observers : gmap nat Target;
  nextObserver : nat;
  outs : list Out
}.

Definition envInit : Env := mkEnv Win.init ∅ 1 ∅ 1 [].

(** What a measurement reads from the DOM. *)
Record Dom : Set := mkDom {
  scrollWidth : Z;       (* innerRef.scrollWidth *)
  paddingLeft : Z;       (* of the header *)
  paddingRight : Z;
  scrollHeight : Z       (* contentRef.scrollHeight *)
}.

(** What the environment decides at an event: the measurements, and
    which of the refresh and the auto watcher was triggered first. *)
Record Oracle : Set := mkOracle {
  dom : Dom;
  autoFirst : bool
}.

(** *** State *)

Record t : Type := mk {
  props : Props;  (* the current props *)
  view : View;  (* ref *)
  applied : option string;  (* ref *)
  isExpanded : bool;  (* ref *)
  ready : bool;  (* ref *)
  pillWidth : Z;  (* ref *)
  contentHeight : Z;  (* ref *)
  headerLayer : HeaderLayer;  (* ref *)
  headerExitTimer : option nat;  (* let *)
  autoExpandTimer : option nat;  (* let *)
  autoCollapseTimer : option nat;  (* let *)
  swapTimer : option nat;  (* let *)
  lastRefreshKey : option string;  (* let *)
  pendingView : option Pending;  (* let *)
  headerPadding : option Z;  (* let *)
  frozenExpanded : Z;  (* let *)
  pointerStartY : option Z;  (* let *)
  pillRo : option nat;  (* let *)
  pillRafId : nat;  (* let *)
  contentRo : option nat;  (* let *)
  contentRafId : nat;  (* let *)
  transform : option Z;  (* el.style.transform: translateY(n px), or empty *)
  mounted : bool;  (* the template refs are set *)
  seenPrev : option (string * View);  (* old value of the watcher on headerLayer.prev *)
  seenHeaderKey : string;  (* old value of the watcher on headerLayer.current.key *)
  seenHasDesc : bool;  (* old value of the watcher on hasDesc *)
  seenRefresh : bool * option string * View;  (* old values of the refresh watcher *)
  seenAuto : option Z * option Z * bool * bool * bool * option string  (* old values of the auto expand/collapse watcher *)
}.

Definition set_props (v : Props) (m : t) : t :=
  mk v (view m) (applied m) (isExpanded m) (ready m) (pillWidth m)
     (contentHeight m) (headerLayer m) (headerExitTimer m)
     (autoExpandTimer m) (autoCollapseTimer m) (swapTimer m)
     (lastRefreshKey m) (pendingView m) (headerPadding m)
     (frozenExpanded m) (pointerStartY m) (pillRo m) (pillRafId m)
     (contentRo m) (contentRafId m) (transform m) (mounted m)
     (seenPrev m) (seenHeaderKey m) (seenHasDesc m) (seenRefresh m)
     (seenAuto m).

Definition set_view (v : View) (m : t) : t :=
  mk (props m) v (applied m) (isExpanded m) (ready m) (pillWidth m)
     (contentHeight m) (headerLayer m) (headerExitTimer m)
     (autoExpandTimer m) (autoCollapseTimer m) (swapTimer m)
     (lastRefreshKey m) (pendingView m) (headerPadding m)
     (frozenExpanded m) (pointerStartY m) (pillRo m) (pillRafId m)
     (contentRo m) (contentRafId m) (transform m) (mounted m)
     (seenPrev m) (seenHeaderKey m) (seenHasDesc m) (seenRefresh m)
     (seenAuto m).

Definition set_applied (v : option string) (m : t) : t :=
  mk (props m) (view m) v (isExpanded m) (ready m) (pillWidth m)
     (contentHeight m) (headerLayer m) (headerExitTimer m)
     (autoExpandTimer m) (autoCollapseTimer m) (swapTimer m)
     (lastRefreshKey m) (pendingView m) (headerPadding m)
     (frozenExpanded m) (pointerStartY m) (pillRo m) (pillRafId m)
     (contentRo m) (contentRafId m) (transform m) (mounted m)
     (seenPrev m) (seenHeaderKey m) (seenHasDesc m) (seenRefresh m)
     (seenAuto m).

Definition set_isExpanded (v : bool) (m : t) : t :=
  mk (props m) (view m) (applied m) v (ready m) (pillWidth m)
     (contentHeight m) (headerLayer m) (headerExitTimer m)
     (autoExpandTimer m) (autoCollapseTimer m) (swapTimer m)
     (lastRefreshKey m) (pendingView m) (headerPadding m)
     (frozenExpanded m) (pointerStartY m) (pillRo m) (pillRafId m)
     (contentRo m) (contentRafId m) (transform m) (mounted m)
     (seenPrev m) (seenHeaderKey m) (seenHasDesc m) (seenRefresh m)
     (seenAuto m).

Definition set_ready (v : bool) (m : t) : t :=
  mk (props m) (view m) (applied m) (isExpanded m) v (pillWidth m)
     (contentHeight m) (headerLayer m) (headerExitTimer m)
     (autoExpandTimer m) (autoCollapseTimer m) (swapTimer m)
     (lastRefreshKey m) (pendingView m) (headerPadding m)
     (frozenExpanded m) (pointerStartY m) (pillRo m) (pillRafId m)
     (contentRo m) (contentRafId m) (transform m) (mounted m)
     (seenPrev m) (seenHeaderKey m) (seenHasDesc m) (seenRefresh m)
     (seenAuto m).

Definition set_pillWidth (v : Z) (m : t) : t :=
  mk (props m) (view m) (applied m) (isExpanded m) (ready m) v
     (contentHeight m) (headerLayer m) (headerExitTimer m)
     (autoExpandTimer m) (autoCollapseTimer m) (swapTimer m)
     (lastRefreshKey m) (pendingView m) (headerPadding m)
     (frozenExpanded m) (pointerStartY m) (pillRo m) (pillRafId m)
     (contentRo m) (contentRafId m) (transform m) (mounted m)
     (seenPrev m) (seenHeaderKey m) (seenHasDesc m) (seenRefresh m)
     (seenAuto m).

Definition set_contentHeight (v : Z) (m : t) : t :=
  mk (props m) (view m) (applied m) (isExpanded m) (ready m)
     (pillWidth m) v (headerLayer m) (headerExitTimer m)
     (autoExpandTimer m) (autoCollapseTimer m) (swapTimer m)
     (lastRefreshKey m) (pendingView m) (headerPadding m)
     (frozenExpanded m) (pointerStartY m) (pillRo m) (pillRafId m)
     (contentRo m) (contentRafId m) (transform m) (mounted m)
     (seenPrev m) (seenHeaderKey m) (seenHasDesc m) (seenRefresh m)
     (seenAuto m).

Definition set_headerLayer (v : HeaderLayer) (m : t) : t :=
  mk (props m) (view m) (applied m) (isExpanded m) (ready m)
     (pillWidth m) (contentHeight m) v (headerExitTimer m)
     (autoExpandTimer m) (autoCollapseTimer m) (swapTimer m)
     (lastRefreshKey m) (pendingView m) (headerPadding m)
     (frozenExpanded m) (pointerStartY m) (pillRo m) (pillRafId m)
     (contentRo m) (contentRafId m) (transform m) (mounted m)
     (seenPrev m) (seenHeaderKey m) (seenHasDesc m) (seenRefresh m)
     (seenAuto m).

Definition set_headerExitTimer (v : option nat) (m : t) : t :=
  mk (props m) (view m) (applied m) (isExpanded m) (ready m)
     (pillWidth m) (contentHeight m) (headerLayer m) v
     (autoExpandTimer m) (autoCollapseTimer m) (swapTimer m)
     (lastRefreshKey m) (pendingView m) (headerPadding m)
     (frozenExpanded m) (pointerStartY m) (pillRo m) (pillRafId m)
     (contentRo m) (contentRafId m) (transform m) (mounted m)
     (seenPrev m) (seenHeaderKey m) (seenHasDesc m) (seenRefresh m)
     (seenAuto m).

Definition set_autoExpandTimer (v : option nat) (m : t) : t :=
  mk (props m) (view m) (applied m) (isExpanded m) (ready m)
     (pillWidth m) (contentHeight m) (headerLayer m) (headerExitTimer m)
     v (autoCollapseTimer m) (swapTimer m) (lastRefreshKey m)
     (pendingView m) (headerPadding m) (frozenExpanded m)
     (pointerStartY m) (pillRo m) (pillRafId m) (contentRo m)
     (contentRafId m) (transform m) (mounted m) (seenPrev m)
     (seenHeaderKey m) (seenHasDesc m) (seenRefresh m) (seenAuto m).

Definition set_autoCollapseTimer (v : option nat) (m : t) : t :=
  mk (props m) (view m) (applied m) (isExpanded m) (ready m)
     (pillWidth m) (contentHeight m) (headerLayer m) (headerExitTimer m)
     (autoExpandTimer m) v (swapTimer m) (lastRefreshKey m)
     (pendingView m) (headerPadding m) (frozenExpanded m)
     (pointerStartY m) (pillRo m) (pillRafId m) (contentRo m)
     (contentRafId m) (transform m) (mounted m) (seenPrev m)
     (seenHeaderKey m) (seenHasDesc m) (seenRefresh m) (seenAuto m).

Definition set_swapTimer (v : option nat) (m : t) : t :=
  mk (props m) (view m) (applied m) (isExpanded m) (ready m)
     (pillWidth m) (contentHeight m) (headerLayer m) (headerExitTimer m)
     (autoExpandTimer m) (autoCollapseTimer m) v (lastRefreshKey m)
     (pendingView m) (headerPadding m) (frozenExpanded m)
     (pointerStartY m) (pillRo m) (pillRafId m) (contentRo m)
     (contentRafId m) (transform m) (mounted m) (seenPrev m)
     (seenHeaderKey m) (seenHasDesc m) (seenRefresh m) (seenAuto m).

Definition set_lastRefreshKey (v : option string) (m : t) : t :=
  mk (props m) (view m) (applied m) (isExpanded m) (ready m)
     (pillWidth m) (contentHeight m) (headerLayer m) (headerExitTimer m)
     (autoExpandTimer m) (autoCollapseTimer m) (swapTimer m) v
     (pendingView m) (headerPadding m) (frozenExpanded m)
     (pointerStartY m) (pillRo m) (pillRafId m) (contentRo m)
     (contentRafId m) (transform m) (mounted m) (seenPrev m)
     (seenHeaderKey m) (seenHasDesc m) (seenRefresh m) (seenAuto m).

Definition set_pendingView (v : option Pending) (m : t) : t :=
  mk (props m) (view m) (applied m) (isExpanded m) (ready m)
     (pillWidth m) (contentHeight m) (headerLayer m) (headerExitTimer m)
     (autoExpandTimer m) (autoCollapseTimer m) (swapTimer m)
     (lastRefreshKey m) v (headerPadding m) (frozenExpanded m)
     (pointerStartY m) (pillRo m) (pillRafId m) (contentRo m)
     (contentRafId m) (transform m) (mounted m) (seenPrev m)
     (seenHeaderKey m) (seenHasDesc m) (seenRefresh m) (seenAuto m).

Definition set_headerPadding (v : option Z) (m : t) : t :=
  mk (props m) (view m) (applied m) (isExpanded m) (ready m)
     (pillWidth m) (contentHeight m) (headerLayer m) (headerExitTimer m)
     (autoExpandTimer m) (autoCollapseTimer m) (swapTimer m)
     (lastRefreshKey m) (pendingView m) v (frozenExpanded m)
     (pointerStartY m) (pillRo m) (pillRafId m) (contentRo m)
     (contentRafId m) (transform m) (mounted m) (seenPrev m)
     (seenHeaderKey m) (seenHasDesc m) (seenRefresh m) (seenAuto m).

Definition set_frozenExpanded (v : Z) (m : t) : t :=
  mk (props m) (view m) (applied m) (isExpanded m) (ready m)
     (pillWidth m) (contentHeight m) (headerLayer m) (headerExitTimer m)
     (autoExpandTimer m) (autoCollapseTimer m) (swapTimer m)
     (lastRefreshKey m) (pendingView m) (headerPadding m) v
     (pointerStartY m) (pillRo m) (pillRafId m) (contentRo m)
     (contentRafId m) (transform m) (mounted m) (seenPrev m)
     (seenHeaderKey m) (seenHasDesc m) (seenRefresh m) (seenAuto m).

Definition set_pointerStartY (v : option Z) (m : t) : t :=
  mk (props m) (view m) (applied m) (isExpanded m) (ready m)
     (pillWidth m) (contentHeight m) (headerLayer m) (headerExitTimer m)
     (autoExpandTimer m) (autoCollapseTimer m) (swapTimer m)
     (lastRefreshKey m) (pendingView m) (headerPadding m)
     (frozenExpanded m) v (pillRo m) (pillRafId m) (contentRo m)
     (contentRafId m) (transform m) (mounted m) (seenPrev m)
     (seenHeaderKey m) (seenHasDesc m) (seenRefresh m) (seenAuto m).

Definition set_pillRo (v : option nat) (m : t) : t :=
  mk (props m) (view m) (applied m) (isExpanded m) (ready m)
     (pillWidth m) (contentHeight m) (headerLayer m) (headerExitTimer m)
     (autoExpandTimer m) (autoCollapseTimer m) (swapTimer m)
     (lastRefreshKey m) (pendingView m) (headerPadding m)
     (frozenExpanded m) (pointerStartY m) v (pillRafId m) (contentRo m)
     (contentRafId m) (transform m) (mounted m) (seenPrev m)
     (seenHeaderKey m) (seenHasDesc m) (seenRefresh m) (seenAuto m).

Definition set_pillRafId (v : nat) (m : t) : t :=
  mk (props m) (view m) (applied m) (isExpanded m) (ready m)
     (pillWidth m) (contentHeight m) (headerLayer m) (headerExitTimer m)
     (autoExpandTimer m) (autoCollapseTimer m) (swapTimer m)
     (lastRefreshKey m) (pendingView m) (headerPadding m)
     (frozenExpanded m) (pointerStartY m) (pillRo m) v (contentRo m)
     (contentRafId m) (transform m) (mounted m) (seenPrev m)
     (seenHeaderKey m) (seenHasDesc m) (seenRefresh m) (seenAuto m).

Definition set_contentRo (v : option nat) (m : t) : t :=
  mk (props m) (view m) (applied m) (isExpanded m) (ready m)
     (pillWidth m) (contentHeight m) (headerLayer m) (headerExitTimer m)
     (autoExpandTimer m) (autoCollapseTimer m) (swapTimer m)
     (lastRefreshKey m) (pendingView m) (headerPadding m)
     (frozenExpanded m) (pointerStartY m) (pillRo m) (pillRafId m) v
     (contentRafId m) (transform m) (mounted m) (seenPrev m)
     (seenHeaderKey m) (seenHasDesc m) (seenRefresh m) (seenAuto m).

Definition set_contentRafId (v : nat) (m : t) : t :=
  mk (props m) (view m) (applied m) (isExpanded m) (ready m)
     (pillWidth m) (contentHeight m) (headerLayer m) (headerExitTimer m)
     (autoExpandTimer m) (autoCollapseTimer m) (swapTimer m)
     (lastRefreshKey m) (pendingView m) (headerPadding m)
     (frozenExpanded m) (pointerStartY m) (pillRo m) (pillRafId m)
     (contentRo m) v (transform m) (mounted m) (seenPrev m)
     (seenHeaderKey m) (seenHasDesc m) (seenRefresh m) (seenAuto m).

Definition set_transform (v : option Z) (m : t) : t :=
  mk (props m) (view m) (applied m) (isExpanded m) (ready m)
     (pillWidth m) (contentHeight m) (headerLayer m) (headerExitTimer m)
     (autoExpandTimer m) (autoCollapseTimer m) (swapTimer m)
     (lastRefreshKey m) (pendingView m) (headerPadding m)
     (frozenExpanded m) (pointerStartY m) (pillRo m) (pillRafId m)
     (contentRo m) (contentRafId m) v (mounted m) (seenPrev m)
     (seenHeaderKey m) (seenHasDesc m) (seenRefresh m) (seenAuto m).

Definition set_mounted (v : bool) (m : t) : t :=
  mk (props m) (view m) (applied m) (isExpanded m) (ready m)
     (pillWidth m) (contentHeight m) (headerLayer m) (headerExitTimer m)
     (autoExpandTimer m) (autoCollapseTimer m) (swapTimer m)
     (lastRefreshKey m) (pendingView m) (headerPadding m)
     (frozenExpanded m) (pointerStartY m) (pillRo m) (pillRafId m)
     (contentRo m) (contentRafId m) (transform m) v (seenPrev m)
     (seenHeaderKey m) (seenHasDesc m) (seenRefresh m) (seenAuto m).

Definition set_seenPrev (v : option (string * View)) (m : t) : t :=
  mk (props m) (view m) (applied m) (isExpanded m) (ready m)
     (pillWidth m) (contentHeight m) (headerLayer m) (headerExitTimer m)
     (autoExpandTimer m) (autoCollapseTimer m) (swapTimer m)
     (lastRefreshKey m) (pendingView m) (headerPadding m)
     (frozenExpanded m) (pointerStartY m) (pillRo m) (pillRafId m)
     (contentRo m) (contentRafId m) (transform m) (mounted m) v
     (seenHeaderKey m) (seenHasDesc m) (seenRefresh m) (seenAuto m).

Definition set_seenHeaderKey (v : string) (m : t) : t :=
  mk (props m) (view m) (applied m) (isExpanded m) (ready m)
     (pillWidth m) (contentHeight m) (headerLayer m) (headerExitTimer m)
     (autoExpandTimer m) (autoCollapseTimer m) (swapTimer m)
     (lastRefreshKey m) (pendingView m) (headerPadding m)
     (frozenExpanded m) (pointerStartY m) (pillRo m) (pillRafId m)
     (contentRo m) (contentRafId m) (transform m) (mounted m)
     (seenPrev m) v (seenHasDesc m) (seenRefresh m) (seenAuto m).

Definition set_seenHasDesc (v : bool) (m : t) : t :=
  mk (props m) (view m) (applied m) (isExpanded m) (ready m)
     (pillWidth m) (contentHeight m) (headerLayer m) (headerExitTimer m)
     (autoExpandTimer m) (autoCollapseTimer m) (swapTimer m)
     (lastRefreshKey m) (pendingView m) (headerPadding m)
     (frozenExpanded m) (pointerStartY m) (pillRo m) (pillRafId m)
     (contentRo m) (contentRafId m) (transform m) (mounted m)
     (seenPrev m) (seenHeaderKey m) v (seenRefresh m) (seenAuto m).

Definition set_seenRefresh (v : bool * option string * View) (m : t) : t :=
  mk (props m) (view m) (applied m) (isExpanded m) (ready m)
     (pillWidth m) (contentHeight m) (headerLayer m) (headerExitTimer m)
     (autoExpandTimer m) (autoCollapseTimer m) (swapTimer m)
     (lastRefreshKey m) (pendingView m) (headerPadding m)
     (frozenExpanded m) (pointerStartY m) (pillRo m) (pillRafId m)
     (contentRo m) (contentRafId m) (transform m) (mounted m)
     (seenPrev m) (seenHeaderKey m) (seenHasDesc m) v (seenAuto m).

Definition set_seenAuto (v : option Z * option Z * bool * bool * bool * option string) (m : t) : t :=
  mk (props m) (view m) (applied m) (isExpanded m) (ready m)
     (pillWidth m) (contentHeight m) (headerLayer m) (headerExitTimer m)
     (autoExpandTimer m) (autoCollapseTimer m) (swapTimer m)
     (lastRefreshKey m) (pendingView m) (headerPadding m)
     (frozenExpanded m) (pointerStartY m) (pillRo m) (pillRafId m)
     (contentRo m) (contentRafId m) (transform m) (mounted m)
     (seenPrev m) (seenHeaderKey m) (seenHasDesc m) (seenRefresh m) v.

Definition St : Type := t * Env.

(** *** Environment calls *)

Definition setTimeout (cb : Callback) (ms : Z) (e : Env) : nat * Env :=
  let '(h, w) := Win.setTimeout cb ms (win e) in
  (h, mkEnv w (frames e) (nextFrame e) (observers e) (nextObserver e) (outs e)).

Definition clearTimeout (h : nat) (e : Env) : Env :=
  mkEnv (Win.clearTimeout h (win e)) (frames e) (nextFrame e)
        (observers e) (nextObserver e) (outs e).

(** [if (timer) clearTimeout(timer)]: a handle is a positive number. *)
Definition clearIf (h : option nat) (e : Env) : Env :=
  match h with Some h => clearTimeout h e | None => e end.

Definition requestAnimationFrame (f : Frame) (e : Env) : nat * Env :=
  (nextFrame e,
   mkEnv (win e) (<[nextFrame e := f]> (frames e)) (S (nextFrame e))
         (observers e) (nextObserver e) (outs e)).

Definition cancelAnimationFrame (i : nat) (e : Env) : Env :=
  mkEnv (win e) (delete i (frames e)) (nextFrame e)
        (observers e) (nextObserver e) (outs e).

(** [new ResizeObserver(cb)] followed by [observe(el)]. *)
Definition observe (tg : Target) (e : Env) : nat * Env :=
  (nextObserver e,
   mkEnv (win e) (frames e) (nextFrame e)
         (<[nextObserver e := tg]> (observers e)) (S (nextObserver e)) (outs e)).

Definition disconnect (o : nat) (e : Env) : Env :=
  mkEnv (win e) (frames e) (nextFrame e) (delete o (observers e))
        (nextObserver e) (outs e).

Definition emit (o : Out) (e : Env) : Env :=
  mkEnv (win e) (frames e) (nextFrame e) (observers e) (nextObserver e)
        (outs e ++ [o]).

Definition advance (dt : Z) (e : Env) : Env :=
  mkEnv (Win.advance dt (win e)) (frames e) (nextFrame e) (observers e)
        (nextObserver e) (outs e).

(** *** Computed values *)

Definition stateName (s : SileoState) : string :=
  match s with
  | success => "success"
  | loading => "loading"
  | error => "error"
  | warning => "warning"
  | info => "info"
  | action => "action"
  end.

Definition resolvedTitle (p : Props) : string :=
  default (stateName (p_state p)) (p_title p).

Definition next (p : Props) : View :=
  mkView (resolvedTitle p) (p_description p) (p_state p) (p_icon p)
         (p_styles p) (p_button p) (p_fill p).

(** [Boolean(x)] of a description: the empty text is falsy. *)
Definition truthyR (d : option Renderable) : bool :=
  match d with
  | None => false
  | Some (Text s) => negb (String.eqb s "")
  | Some (Node _) => true
  end.

Definition hasDescOf (v : View) : bool :=
  truthyR (v_description v) || bool_decide (is_Some (v_button v)).

Definition hasDesc (m : t) : bool := hasDescOf (view m).

Definition isLoading (m : t) : bool := bool_decide (v_state (view m) = loading).

Definition open (m : t) : bool :=
  hasDesc m && isExpanded m && negb (isLoading m).

Definition allowExpand (m : t) : bool :=
  if isLoading m then false
  else match p_canExpand (props m) with
       | Some b => b
       | None =>
           match p_interruptKey (props m) with
           | None => true
           | Some k => String.eqb k "" || bool_decide (k = p_id (props m))
           end
       end.

Definition headerKeyOf (v : View) : string :=
  stateName (v_state v) +:+ "-" +:+ v_title v.

Definition headerKey (m : t) : string := headerKeyOf (view m).

Definition resolvedRoundness (m : t) : Z :=
  Z.max 0 (default DEFAULT_ROUNDNESS (p_roundness (props m))).

Definition minExpanded : Z :=
  HEIGHT * MIN_EXPAND_RATIO.1 / MIN_EXPAND_RATIO.2.

Definition rawExpanded (m : t) : Z :=
  if hasDesc m then Z.max minExpanded (HEIGHT + contentHeight m)
  else minExpanded.

(** The computed [expanded] writes [frozenExpanded] when it is
    evaluated on an open card: the value and the state after it. *)
Definition expanded (m : t) : Z * t :=
  if open m then (rawExpanded m, set_frozenExpanded (rawExpanded m) m)
  else (frozenExpanded m, m).

Definition svgHeight (m : t) : Z * t :=
  if hasDesc m then (Z.max (expanded m).1 minExpanded, (expanded m).2)
  else (HEIGHT, m).

Definition expandedContent (m : t) : Z * t :=
  (Z.max 0 ((expanded m).1 - HEIGHT), (expanded m).2).

Definition resolvedPillWidth (m : t) : Z :=
  Z.max (if pillWidth m =? 0 then HEIGHT else pillWidth m) HEIGHT.

(** The render function reads [svgHeight], [expandedContent] and the
    root style, each of which evaluates [expanded]. *)
Definition render (m : t) : t := (expanded m).2.

(** *** Measurements and observers *)

Definition measurePillWidth (d : Dom) (m : t) : t :=
  if negb (mounted m) then m else
  let m1 := match headerPadding m with
            | Some _ => m
            | None => set_headerPadding (Some (paddingLeft d + paddingRight d)) m
            end in
  let w := scrollWidth d + default 0 (headerPadding m1) + PILL_PADDING in
  if bool_decide (w > PILL_PADDING) then set_pillWidth w m1 else m1.

Definition setupPillObserver (d : Dom) (s : St) : St :=
  let '(m, e) := s in
  let e1 := match pillRo m with
            | Some o => disconnect o (cancelAnimationFrame (pillRafId m) e)
            | None => e
            end in
  if negb (mounted m) then (m, e1) else
  let m1 := measurePillWidth d m in
  let '(o, e2) := observe TgInner e1 in
  (set_pillRo (Some o) m1, e2).

Definition measureContentHeight (d : Dom) (m : t) : t :=
  if negb (mounted m && hasDesc m) then m
  else set_contentHeight (scrollHeight d) m.

Definition setupContentObserver (d : Dom) (s : St) : St :=
  let '(m, e) := s in
  let '(m1, e1) := match contentRo m with
                   | Some o => (set_contentRo None m,
                                disconnect o (cancelAnimationFrame (contentRafId m) e))
                   | None => (m, e)
                   end in
  if negb (hasDesc m1) then (set_contentHeight 0 m1, e1) else
  if negb (mounted m1) then (m1, e1) else
  let m2 := measureContentHeight d m1 in
  let '(o, e2) := observe TgContent e1 in
  (set_contentRo (Some o) m2, e2).

(** The callback of a resize observer: the measurement is put off to
    the next animation frame. *)
Definition onResize (tg : Target) (s : St) : St :=
  let '(m, e) := s in
  match tg with
  | TgInner =>
      let '(i, e1) := requestAnimationFrame FrMeasurePill
                        (cancelAnimationFrame (pillRafId m) e) in
      (set_pillRafId i m, e1)
  | TgContent =>
      let '(i, e1) := requestAnimationFrame FrMeasureContent
                        (cancelAnimationFrame (contentRafId m) e) in
      (set_contentRafId i m, e1)
  end.

(** [m] with the fields that the measurements and the observer setups
    write taken from [src]. *)
Definition withMeasures (src m : t) : t :=
  set_pillWidth (pillWidth src) (set_contentHeight (contentHeight src)
    (set_headerPadding (headerPadding src) (set_pillRo (pillRo src)
      (set_pillRafId (pillRafId src) (set_contentRo (contentRo src)
        (set_contentRafId (contentRafId src)
          (set_seenHeaderKey (seenHeaderKey src)
            (set_seenHasDesc (seenHasDesc src) m)))))))).

(** *** Watchers *)

(** The [flush: "sync"] watcher on [headerKey] and [view]: it runs at
    every assignment to [view]. *)
Definition syncHeader (m : t) : t :=
  let newKey := headerKey m in
  let st := headerLayer m in
  if bool_decide ((hl_current st).1 = newKey) then
    if bool_decide ((hl_current st).2 = view m) then m
    else set_headerLayer (mkHeaderLayer (newKey, view m) (hl_prev st)) m
  else
    set_headerLayer (mkHeaderLayer (newKey, view m) (Some (hl_current st))) m.

(** [view.value = v]. *)
Definition assignView (v : View) (m : t) : t := syncHeader (set_view v m).

(** The watcher on [headerLayer.prev]. *)
Definition prevWatch (s : St) : St :=
  let '(m, e) := s in
  match hl_prev (headerLayer m) with
  | None => s
  | Some _ =>
      let e1 := clearIf (headerExitTimer m) e in
      let '(h, e2) := setTimeout CbHeaderExit HEADER_EXIT_MS e1 in
      (set_headerExitTimer (Some h) m, e2)
  end.

(** The watcher on [open], [props.refreshKey] and [next]. *)
Definition refreshWatch (openVal : bool) (refreshKeyVal : option string)
    (nextVal : View) (s : St) : St :=
  let '(m, e) := s in
  match refreshKeyVal with
  | None =>
      (set_lastRefreshKey None
         (set_pendingView None (set_applied None (assignView nextVal m))), e)
  | Some k =>
      if bool_decide (lastRefreshKey m = Some k) then s else
      let m1 := set_lastRefreshKey (Some k) m in
      let '(m2, e2) := match swapTimer m1 with
                       | Some h => (set_swapTimer None m1, clearTimeout h e)
                       | None => (m1, e)
                       end in
      if openVal then
        let m3 := set_isExpanded false
                    (set_pendingView (Some (mkPending k nextVal)) m2) in
        let '(h, e3) := setTimeout CbSwap SWAP_COLLAPSE_MS e2 in
        (set_swapTimer (Some h) m3, e3)
      else
        (set_applied (Some k) (assignView nextVal (set_pendingView None m2)), e2)
  end.

(** The watcher on the autopilot delays, [hasDesc], [allowExpand],
    [props.exiting] and [applied]. *)
Definition autoWatch (s : St) : St :=
  let '(m, e) := s in
  let e1 := clearIf (autoCollapseTimer m) (clearIf (autoExpandTimer m) e) in
  if negb (hasDesc m) then (m, e1) else
  if p_exiting (props m) || negb (allowExpand m) then
    (set_isExpanded false m, e1)
  else
  match p_autoExpandDelayMs (props m), p_autoCollapseDelayMs (props m) with
  | None, None => (m, e1)
  | ae, ac =>
      let expandDelay := default 0 ae in
      let collapseDelay := default 0 ac in
      let '(m2, e2) :=
        if bool_decide (expandDelay > 0) then
          let '(h, e') := setTimeout CbAutoExpand expandDelay e1 in
          (set_autoExpandTimer (Some h) m, e')
        else (set_isExpanded true m, e1) in
      if bool_decide (collapseDelay > 0) then
        let '(h, e') := setTimeout CbAutoCollapse collapseDelay e2 in
        (set_autoCollapseTimer (Some h) m2, e')
      else (m2, e2)
  end.

(** The sources of the two watchers that feed each other. *)
Definition refreshSources (m : t) : bool * option string * View :=
  (open m, p_refreshKey (props m), next (props m)).

Definition autoSources (m : t)
    : option Z * option Z * bool * bool * bool * option string :=
  (p_autoCollapseDelayMs (props m), p_autoExpandDelayMs (props m),
   hasDesc m, allowExpand m, p_exiting (props m), applied m).

(** A watcher job: the callback runs if a source differs from the value
    seen at the previous run, and it gets the values just read. *)
Definition runPrev (s : St) : St :=
  let prev := hl_prev (headerLayer s.1) in
  if bool_decide (prev = seenPrev s.1) then s
  else prevWatch (set_seenPrev prev s.1, s.2).

Definition runRefresh (s : St) : St :=
  let src := refreshSources s.1 in
  if bool_decide (src = seenRefresh s.1) then s
  else refreshWatch src.1.1 src.1.2 src.2 (set_seenRefresh src s.1, s.2).

Definition runAuto (s : St) : St :=
  let src := autoSources s.1 in
  if bool_decide (src = seenAuto s.1) then s
  else autoWatch (set_seenAuto src s.1, s.2).

(** The [flush: "post"] watchers, each [nextTick]ing a setup. *)
Definition runHeaderKey (d : Dom) (s : St) : St :=
  let k := (hl_current (headerLayer s.1)).1 in
  if bool_decide (k = seenHeaderKey s.1) then s
  else setupPillObserver d (set_seenHeaderKey k s.1, s.2).

Definition runHasDesc (d : Dom) (s : St) : St :=
  let b := hasDesc s.1 in
  if bool_decide (b = seenHasDesc s.1) then s
  else setupContentObserver d (set_seenHasDesc b s.1, s.2).

(** The jobs queued before the render: the refresh and the auto watcher
    in the order they were triggered, each once more after the other
    has run, then the watcher on the previous header. *)
Definition flushPre (first : bool) (s : St) : St :=
  runPrev (runRefresh (runAuto (runRefresh (if first then runAuto s else s)))).

Definition noJob (m : t) : Prop :=
  refreshSources m = seenRefresh m ∧ autoSources m = seenAuto m ∧
  hl_prev (headerLayer m) = seenPrev m.

Definition renderSt (s : St) : St := (render s.1, s.2).

(** One turn of the scheduler after an event. *)
Definition flush (o : Oracle) (s : St) : St :=
  renderSt (runHasDesc (dom o) (runHeaderKey (dom o)
    (renderSt (flushPre (autoFirst o) s)))).

(** *** Timer and frame callbacks *)

Definition applyPending (m : t) : t :=
  match pendingView m with
  | None => m
  | Some pv =>
      set_pendingView None
        (set_applied (Some (pv_key pv)) (assignView (pv_payload pv) m))
  end.

Definition onTimer (cb : Callback) (m : t) : t :=
  match cb with
  | CbHeaderExit =>
      set_headerLayer (mkHeaderLayer (hl_current (headerLayer m)) None)
        (set_headerExitTimer None m)
  | CbAutoExpand => set_isExpanded true m
  | CbAutoCollapse => set_isExpanded false m
  | CbSwap => applyPending (set_swapTimer None m)
  end.

Definition onFrame (d : Dom) (f : Frame) (m : t) : t :=
  match f with
  | FrReady => set_ready true m
  | FrMeasurePill => measurePillWidth d m
  | FrMeasureContent => measureContentHeight d m
  end.

(** *** Handlers *)

Definition handleEnter (s : St) : St :=
  let '(m, e) := s in
  let e1 := if p_onMouseEnter (props m) then emit OMouseEnter e else e in
  (if hasDesc m then set_isExpanded true m else m, e1).

Definition handleLeave (s : St) : St :=
  let '(m, e) := s in
  let e1 := if p_onMouseLeave (props m) then emit OMouseLeave e else e in
  (set_isExpanded false m, e1).

Definition handleTransitionEnd (propertyName : string) (s : St) : St :=
  let '(m, e) := s in
  if negb (String.eqb propertyName "height")
     && negb (String.eqb propertyName "transform") then s else
  if open m then s else
  match pendingView m with
  | None => s
  | Some _ =>
      let '(m1, e1) := match swapTimer m with
                       | Some h => (set_swapTimer None m, clearTimeout h e)
                       | None => (m, e)
                       end in
      (applyPending m1, e1)
  end.

(** [onButton]: the target is inside [[data-sileo-button]]. *)
Definition handlePointerDown (clientY : Z) (onButton : bool) (m : t) : t :=
  if p_exiting (props m) || negb (p_onDismiss (props m)) then m else
  if onButton then m else
  set_pointerStartY (Some clientY) m.

(** [setupSwipe]: the two listeners. *)
Definition clamp (dy : Z) : Z :=
  let sign := if bool_decide (dy > 0) then 1 else -1 in
  Z.min (Z.abs dy) SWIPE_MAX * sign.

Definition onMove (clientY : Z) (m : t) : t :=
  match pointerStartY m with
  | None => m
  | Some y0 => set_transform (Some (clamp (clientY - y0))) m
  end.

Definition onUp (clientY : Z) (s : St) : St :=
  let '(m, e) := s in
  match pointerStartY m with
  | None => s
  | Some y0 =>
      let dy := clientY - y0 in
      let m1 := set_transform None (set_pointerStartY None m) in
      if bool_decide (Z.abs dy > SWIPE_DISMISS) then
        (m1, if p_onDismiss (props m) then emit ODismiss e else e)
      else (m1, e)
  end.

(** A whole gesture: pointer down at [y0], the moves, the release at
    [y]. *)
Definition drag (y0 : Z) (onButton : bool) (moves : list Z) (y : Z)
    (s : St) : St :=
  onUp y (foldl (λ m y', onMove y' m) (handlePointerDown y0 onButton s.1) moves,
          s.2).

(** *** Lifecycle *)

(** [setup]: the refs and variables at their initial values, the old
    values of the watchers as read at their creation, and the run of the
    [immediate] auto watcher. *)
Definition initial (p : Props) : t :=
  let v := next p in
  mk p v (p_refreshKey p) false false 0 0
     (mkHeaderLayer (headerKeyOf v, v) None)
     None None None None (p_refreshKey p) None None minExpanded None
     None 0%nat None 0%nat None false
     None (headerKeyOf v) (hasDescOf v) (false, p_refreshKey p, v)
     (* the auto watcher is [immediate]: [setup] records what it reads *)
     (p_autoCollapseDelayMs p, p_autoExpandDelayMs p, hasDescOf v,
      false, p_exiting p, p_refreshKey p).

Definition setup (p : Props) (e : Env) : St :=
  let m := initial p in
  autoWatch (set_seenAuto (autoSources m) m, e).

Definition onMounted (d : Dom) (s : St) : St :=
  let '(m, e) := s in
  let '(_, e1) := requestAnimationFrame FrReady e in
  setupContentObserver d (setupPillObserver d (set_mounted true m, e1)).

Definition onUnmounted (s : St) : St :=
  let '(m, e) := s in
  let e1 := match pillRo m with
            | Some o => disconnect o (cancelAnimationFrame (pillRafId m) e)
            | None => e
            end in
  let e2 := match contentRo m with
            | Some o => disconnect o (cancelAnimationFrame (contentRafId m) e1)
            | None => e1
            end in
  (set_mounted false m,
   clearIf (swapTimer m) (clearIf (autoCollapseTimer m)
     (clearIf (autoExpandTimer m) (clearIf (headerExitTimer m) e2)))).

(** The component created and mounted: the first render, [onMounted],
    and the first turn of the scheduler. *)
Definition create (o : Oracle) (p : Props) (e : Env) : St :=
  flush o (onMounted (dom o) (renderSt (setup p e))).

(** *** Events *)

Inductive Event : Set :=
  | EProps (p : Props)
  | EMouseEnter
  | EMouseLeave
  | ETransitionEnd (propertyName : string)
  | EPointerDown (clientY : Z) (onButton : bool)
  | EPointerMove (clientY : Z)
  | EPointerUp (clientY : Z)
  | ETimer (h : nat)
  | EFrame (i : nat)
  | EResize (o : nat)
  | EAdvance (dt : Z)
  | EUnmount.

(** What the event itself does, before the scheduler runs.  The DOM
    delivers its events and the parent its props only to a mounted
    component; a timer or a frame that is still filed runs whenever the
    browser takes it. *)
Definition handle (o : Oracle) (ev : Event) (s : St) : St :=
  let '(m, e) := s in
  match ev with
  | EProps p => if mounted m then (set_props p m, e) else s
  | EMouseEnter => if mounted m then handleEnter s else s
  | EMouseLeave => if mounted m then handleLeave s else s
  | ETransitionEnd pn => if mounted m then handleTransitionEnd pn s else s
  | EPointerDown y b => if mounted m then (handlePointerDown y b m, e) else s
  | EPointerMove y => if mounted m then (onMove y m, e) else s
  | EPointerUp y => if mounted m then onUp y s else s
  | ETimer h =>
      match Win.take h (win e) with
      | Some (cb, w) =>
          (onTimer cb m,
           mkEnv w (frames e) (nextFrame e) (observers e) (nextObserver e) (outs e))
      | None => s
      end
  | EFrame i =>
      match frames e !! i with
      | Some f => (onFrame (dom o) f m, cancelAnimationFrame i e)
      | None => s
      end
  | EResize ob =>
      match observers e !! ob with
      | Some tg => onResize tg s
      | None => s
      end
  | EAdvance dt => (m, advance dt e)
  | EUnmount => if mounted m then onUnmounted s else s
  end.

(** One event: the handler, then the scheduler if the component is
    (still) mounted. *)
Definition step (o : Oracle) (ev : Event) (s : St) : St :=
  let s1 := handle o ev s in
  if mounted s1.1 then flush o s1 else s1.

Definition run (evs : list (Oracle * Event)) (s : St) : St :=
  foldl (λ s oe, step oe.1 oe.2 s) s evs.

(** *** The content swap *)

(** What the swap protocol reads and writes besides the timer. *)
Definition swapCore (m : t)
    : Props * View * option Pending * option string * bool :=
  (props m, view m, pendingView m, lastRefreshKey m, mounted m).

(** The two signals that end a collapse: a [transitionend] of the
    height or the transform on a card that is not open, and the
    fallback timer. *)
Definition completes (s : St) (ev : Event) : bool :=
  match ev with
  | ETransitionEnd pn =>
      (String.eqb pn "height" || String.eqb pn "transform") && negb (open s.1)
  | ETimer h =>
      match Win.take h (win s.2) with
      | Some (CbSwap, _) => true
      | _ => false
      end
  | _ => false
  end.

(** An event during which a pending swap just waits: no new props, no
    unmount, and no end of the collapse. *)
Definition waits (s : St) (ev : Event) : bool :=
  match ev with
  | EProps _ | EUnmount => false
  | _ => negb (completes s ev)
  end.

(** Every event of the trace is one the swap waits through. *)
Fixpoint waiting (evs : list (Oracle * Event)) (s : St) : Prop :=
  match evs with
  | [] => True
  | oe :: rest => waits s oe.2 = true ∧ waiting rest (step oe.1 oe.2 s)
  end.

(** A swap to the content [pv] is pending for the current refresh
    key. *)
Definition swapPending (pv : Pending) (m : t) : Prop :=
  pendingView m = Some pv ∧
  lastRefreshKey m = Some (pv_key pv) ∧
  p_refreshKey (props m) = Some (pv_key pv).

(** *** What the component holds in the browser *)

(** The variable that holds the handle of a timer, by its callback; the
    one that holds an observer, by its target; the one that holds the id
    of a measuring frame, with the observer that requested it. *)
Definition timerVar (cb : Callback) (m : t) : option nat :=
  match cb with
  | CbHeaderExit => headerExitTimer m
  | CbAutoExpand => autoExpandTimer m
  | CbAutoCollapse => autoCollapseTimer m
  | CbSwap => swapTimer m
  end.

Definition observerVar (tg : Target) (m : t) : option nat :=
  match tg with
  | TgInner => pillRo m
  | TgContent => contentRo m
  end.

Definition frameVar (f : Frame) (m : t) : option (nat * option nat) :=
  match f with
  | FrReady => None
  | FrMeasurePill => Some (pillRafId m, pillRo m)
  | FrMeasureContent => Some (contentRafId m, contentRo m)
  end.

(** Every pending timer and every connected observer is held in its
    variable; every requested frame is the one of [onMounted] or is held
    in the variable of an observer that is set. *)
Record Owned (s : St) : Prop := mkOwned {
  own_timers : ∀ h due cb,
    Win.pending (win s.2) !! h = Some (due, cb) → timerVar cb s.1 = Some h;
  own_observers : ∀ o tg,
    observers s.2 !! o = Some tg → observerVar tg s.1 = Some o;
  own_frames : ∀ i f,
    frames s.2 !! i = Some f →
    f = FrReady ∨ ∃ o, frameVar f s.1 = Some (i, Some o)
}.

(** The frame requested in [onMounted] is still filed under the id 1,
    and has not run. *)
Record ReadyPending (s : St) : Prop := mkReadyPending {
  rp_frame : frames s.2 !! 1%nat = Some FrReady;
  rp_next : (1 < nextFrame s.2)%nat;
  rp_pill : pillRafId s.1 ≠ 1%nat;
  rp_content : contentRafId s.1 ≠ 1%nat;
  rp_ready : ready s.1 = false
}.

(** [if (ro) { cancelAnimationFrame(rafId); ro.disconnect(); }] *)
Definition release (ro : option nat) (raf : nat) (e : Env) : Env :=
  match ro with
  | Some o => disconnect o (cancelAnimationFrame raf e)
  | None => e
  end.

(** The header layer shows the view: its current entry is the view
    under its key, and a previous entry, while there is one, has
    another key. *)
Definition HeaderOk (m : t) : Prop :=
  hl_current (headerLayer m) = (headerKey m, view m) ∧
  ∀ a, hl_prev (headerLayer m) = Some a → a.1 ≠ headerKey m.

(** The frozen height is at least the minimum, and the pill width is
    unset or above the padding. *)
Definition Sized (m : t) : Prop :=
  minExpanded ≤ frozenExpanded m ∧ (pillWidth m = 0 ∨ PILL_PADDING < pillWidth m).

(** What the refresh watcher keeps between its runs: the key it
    handled last, and the values it saw. *)
Definition refreshCore (m : t) : option string * (bool * option string * View) :=
  (lastRefreshKey m, seenRefresh m).

(** The key handled last is the key seen last, and it is the key of
    the current props. *)
Definition KeySeen (m : t) : Prop := lastRefreshKey m = (seenRefresh m).1.2.

Definition KeyOk (m : t) : Prop := lastRefreshKey m = p_refreshKey (props m).

(** When the refresh watcher saw no key at its last run, the view is
    the content it saw, no swap is pending and no key is applied. *)
Definition Unkeyed (m : t) : Prop :=
  (seenRefresh m).1.2 = None →
  view m = (seenRefresh m).2 ∧ pendingView m = None ∧ applied m = None.

(** What the refresh watcher saw of the props is what they are. *)
Definition SeenProps (m : t) : Prop :=
  (seenRefresh m).1.2 = p_refreshKey (props m) ∧
  (seenRefresh m).2 = next (props m).

(** The other fields the watchers read or compare with. *)
Definition autoCore (m : t)
    : option string * bool *
      (option Z * option Z * bool * bool * bool * option string) :=
  (applied m, isExpanded m, seenAuto m).

Definition prevCore (m : t) : option (string * View) * option (string * View) :=
  (hl_prev (headerLayer m), seenPrev m).

(** What holds between two events. *)
Definition AtRest (s : St) : Prop :=
  KeySeen s.1 ∧ KeyOk s.1 ∧ Unkeyed s.1 ∧ (mounted s.1 = true → noJob s.1).

Definition isFrame (ev : Event) : bool :=
  match ev with EFrame _ => true | _ => false end.

End Sileo.

(** ** Concrete toasts and traces *)

Module Examples.

(** A toast shown for 500 ms. *)
Definition saved : SileoItem :=
  mkItem "1" "2" info (Some "Saved") None None (Some top_right)
         (Some 500) false None None.

(** A second toast, shown for 700 ms, and one that is never dismissed
    by a timer. *)
Definition second : SileoItem :=
  mkItem "3" "4" success (Some "Sent") None None None
         (Some 700) false None None.

Definition sticky : SileoItem :=
  mkItem "5" "6" warning (Some "Offline") None None (Some bottom_center)
         (Some 0) false None None.

(** The adapter with [saved], hovered after 300 ms, 1000 ms later. *)
Definition hoverTrace : list Adapter.Event :=
  [Adapter.EAdvance 300; Adapter.EEnter "1"; Adapter.EAdvance 1000].

(** The props of a toast with a description, as the adapter passes
    them. *)
Definition card : Sileo.Props :=
  Sileo.mkProps "1" "#FFFFFF" success (Some "Saved")
    (Some (Text "Your changes were saved.")) Sileo.pa_right Sileo.ed_bottom
    None None None None false None None (Some true) None (Some "2")
    true true true.

(** The same toast after its content was replaced in place. *)
Definition cardUpdated : Sileo.Props :=
  Sileo.mkProps "1" "#FFFFFF" success (Some "Saved again")
    (Some (Text "A second time.")) Sileo.pa_right Sileo.ed_bottom
    None None None None false None None (Some true) None (Some "3")
    true true true.

(** The toast with another title and description but the same refresh
    key. *)
Definition cardRetitled : Sileo.Props :=
  Sileo.mkProps "1" "#FFFFFF" success (Some "Stored")
    (Some (Text "Nothing else changed.")) Sileo.pa_right Sileo.ed_bottom
    None None None None false None None (Some true) None (Some "2")
    true true true.

(** New content without a refresh key. *)
Definition cardUnkeyed : Sileo.Props :=
  Sileo.mkProps "1" "#FFFFFF" error (Some "Failed")
    (Some (Text "Try again.")) Sileo.pa_right Sileo.ed_bottom
    None None None None false None None (Some true) None None
    true true true.

(** The toast when another one has become the active one. *)
Definition cardDisallowed : Sileo.Props :=
  Sileo.mkProps "1" "#FFFFFF" success (Some "Saved")
    (Some (Text "Your changes were saved.")) Sileo.pa_right Sileo.ed_bottom
    None None None None false None None (Some false) None (Some "2")
    true true true.

(** A toast on autopilot: it opens after a second. *)
Definition cardAuto : Sileo.Props :=
  Sileo.mkProps "1" "#FFFFFF" success (Some "Saved")
    (Some (Text "Your changes were saved.")) Sileo.pa_right Sileo.ed_bottom
    None None None None false (Some 1000) None (Some true) None (Some "2")
    true true true.

(** An exiting toast: a press on it starts no drag. *)
Definition cardExiting : Sileo.Props :=
  Sileo.mkProps "1" "#FFFFFF" success (Some "Saved")
    (Some (Text "Your changes were saved.")) Sileo.pa_right Sileo.ed_bottom
    None None None None true None None (Some true) None (Some "2")
    true true true.

Definition measured : Sileo.Oracle :=
  Sileo.mkOracle (Sileo.mkDom 120 8 8 60) false.

(** The toast mounted, then hovered: its card is open. *)
Definition hovered : Sileo.St :=
  Sileo.step measured Sileo.EMouseEnter
    (Sileo.create measured card Sileo.envInit).

(** New content arrives for the open card; then time passes and an
    unrelated transition ends. *)
Definition swapping : Sileo.St :=
  Sileo.step measured (Sileo.EProps cardUpdated) hovered.

Definition waitTrace : list (Sileo.Oracle * Sileo.Event) :=
  [(measured, Sileo.EAdvance 100);
   (measured, Sileo.ETransitionEnd "opacity");
   (measured, Sileo.EAdvance 100)].

End Examples.

(** * The timer table *)

Section WinFacts.
Context {C : Type}.
Implicit Types (w : Win.t C) (h : nat) (hs : list nat).

Lemma clearTimeouts_now hs w : Win.now (Win.clearTimeouts hs w) = Win.now w.
Proof. revert w. induction hs as [|h hs IH]; intros w; [done|]. simpl. by rewrite IH. Qed.

Lemma clearTimeouts_nextHandle hs w :
  Win.nextHandle (Win.clearTimeouts hs w) = Win.nextHandle w.
Proof. revert w. induction hs as [|h hs IH]; intros w; [done|]. simpl. by rewrite IH. Qed.

(** After [clearTimeouts hs] exactly the entries outside [hs] remain. *)
Lemma clearTimeouts_pending hs w h :
  Win.pending (Win.clearTimeouts hs w) !! h
  = if decide (h ∈ hs) then None else Win.pending w !! h.
Proof.
  revert w. induction hs as [|h' hs IH]; intros w.
  - rewrite decide_False; [done|apply not_elem_of_nil].
  - change (Win.clearTimeouts (h' :: hs) w)
      with (Win.clearTimeouts hs (Win.clearTimeout h' w)).
    rewrite IH. cbn [Win.clearTimeout Win.pending].
    destruct (decide (h ∈ hs)) as [Hin|Hin].
    + rewrite decide_True; [done|by apply elem_of_cons; right].
    + destruct (decide (h = h')) as [->|Hne].
      * rewrite decide_True; [|by apply elem_of_cons; left].
        by rewrite lookup_delete_eq.
      * rewrite decide_False; [by rewrite lookup_delete_ne|].
        by intros [?|?]%elem_of_cons.
Qed.

Lemma clearTimeouts_pending_Some hs w h e :
  Win.pending (Win.clearTimeouts hs w) !! h = Some e →
  (h ∉ hs) ∧ Win.pending w !! h = Some e.
Proof. rewrite clearTimeouts_pending. by case_decide. Qed.

Lemma wf_clearTimeouts hs w : Win.wf w → Win.wf (Win.clearTimeouts hs w).
Proof.
  intros Hwf h e [_ He]%clearTimeouts_pending_Some.
  rewrite clearTimeouts_nextHandle. eauto.
Qed.

Lemma wf_setTimeout cb ms w : Win.wf w → Win.wf (Win.setTimeout cb ms w).2.
Proof.
  intros Hwf h e. simpl. rewrite lookup_insert.
  case_decide; [intros _; lia|]. intros He%Hwf. lia.
Qed.

Lemma wf_advance dt w : Win.wf w → Win.wf (Win.advance dt w).
Proof. intros Hwf h e. simpl. apply Hwf. Qed.

Lemma wf_init : Win.wf (@Win.init C).
Proof. intros h e. simpl. by rewrite lookup_empty. Qed.

(** A timer can be taken only when it is pending and due, and then it
    yields its own callback. *)
Lemma take_Some h w cb w' :
  Win.take h w = Some (cb, w') ↔
  ∃ due, Win.pending w !! h = Some (due, cb) ∧ due ≤ Win.now w
         ∧ w' = Win.clearTimeout h w.
Proof.
  unfold Win.take. destruct (Win.pending w !! h) as [[due cb']|] eqn:E.
  - case_decide; split.
    + intros [= <- <-]. eauto.
    + intros (due' & [= <- <-] & _ & ->). done.
    + done.
    + intros (due' & [= <- <-] & ? & _). lia.
  - split; [done|]. by intros (? & ? & _).
Qed.


Lemma take_empty h w : Win.pending w = ∅ → Win.take h w = None.
Proof. unfold Win.take. intros ->. by rewrite lookup_empty. Qed.

Lemma wf_take h w cb w' : Win.wf w → Win.take h w = Some (cb, w') → Win.wf w'.
Proof.
  intros Hwf (due & _ & _ & ->)%take_Some h' e. simpl.
  intros [_ He]%lookup_delete_Some. eauto.
Qed.

End WinFacts.

(** * Proof steps for the component *)

(** Reduces the projections of updated states and nothing else. *)
Ltac proj :=
  cbn [fst snd
       Sileo.props Sileo.view Sileo.applied Sileo.isExpanded Sileo.ready
       Sileo.pillWidth Sileo.contentHeight Sileo.headerLayer
       Sileo.headerExitTimer Sileo.autoExpandTimer Sileo.autoCollapseTimer
       Sileo.swapTimer Sileo.lastRefreshKey Sileo.pendingView
       Sileo.headerPadding Sileo.frozenExpanded Sileo.pointerStartY
       Sileo.pillRo Sileo.pillRafId Sileo.contentRo Sileo.contentRafId
       Sileo.transform Sileo.mounted Sileo.seenPrev Sileo.seenHeaderKey
       Sileo.seenHasDesc Sileo.seenRefresh Sileo.seenAuto Sileo.set_props
       Sileo.set_view Sileo.set_applied Sileo.set_isExpanded Sileo.set_ready
       Sileo.set_pillWidth Sileo.set_contentHeight Sileo.set_headerLayer
       Sileo.set_headerExitTimer Sileo.set_autoExpandTimer
       Sileo.set_autoCollapseTimer Sileo.set_swapTimer
       Sileo.set_lastRefreshKey Sileo.set_pendingView Sileo.set_headerPadding
       Sileo.set_frozenExpanded Sileo.set_pointerStartY Sileo.set_pillRo
       Sileo.set_pillRafId Sileo.set_contentRo Sileo.set_contentRafId
       Sileo.set_transform Sileo.set_mounted Sileo.set_seenPrev
       Sileo.set_seenHeaderKey Sileo.set_seenHasDesc Sileo.set_seenRefresh
       Sileo.set_seenAuto] in *.

(** Splits the conditionals and pairs of a handler or watcher, innermost
    first, keeping records whole. *)
Ltac crush :=
  repeat first
    [ progress proj
    | match goal with
      | |- context [match ?x with _ => _ end] =>
          lazymatch x with
          | context [match _ with _ => _ end] => fail
          | _ =>
              lazymatch type of x with
              | Sileo.t => fail
              | Sileo.Env => fail
              | Sileo.Props => fail
              | Sileo.View => fail
              | Sileo.HeaderLayer => fail
              | Sileo.Pending => fail
              | Sileo.Dom => fail
              | Sileo.Oracle => fail
              | Win.t _ => fail
              | _ => destruct x eqn:?
              end
          end
      end ];
  try done.

(** * The View Adapter: timers *)

Section AdapterFacts.
Import Toaster.
Variable DEFAULT_DURATION : option Z.
Implicit Types (a : Toaster.t) (w : Win.t Callback) (s : St)
  (item : SileoItem) (items : list SileoItem).

Local Abbreviation scheduleItem := (scheduleItem DEFAULT_DURATION).
Local Abbreviation schedule := (schedule DEFAULT_DURATION).
Local Abbreviation listener := (listener DEFAULT_DURATION).
Local Abbreviation leave := (leave DEFAULT_DURATION).
Local Abbreviation step := (Adapter.step DEFAULT_DURATION).
Local Abbreviation run := (Adapter.run DEFAULT_DURATION).

Lemma elem_of_handles (m : gmap string nat) h :
  h ∈ handles m ↔ ∃ k, m !! k = Some h.
Proof.
  unfold handles. rewrite list_elem_of_fmap. split.
  - intros ([k h'] & -> & Hin%elem_of_map_to_list). eauto.
  - intros (k & Hk). exists (k, h). split; [done|]. by apply elem_of_map_to_list.
Qed.

(** What one iteration of the loop of [schedule] does: nothing, or one
    new timer under a key that had none. *)
Inductive scheduled (s : St) (item : SileoItem) : St → Prop :=
  | scheduled_skip :
      (exiting item = true ∨ is_Some (timers s.1 !! Store.timeoutKey item) ∨
       nullish (duration item) DEFAULT_DURATION = None ∨
       ∃ dur, nullish (duration item) DEFAULT_DURATION = Some dur ∧ dur ≤ 0) →
      scheduled s item s
  | scheduled_set dur :
      exiting item = false →
      timers s.1 !! Store.timeoutKey item = None →
      nullish (duration item) DEFAULT_DURATION = Some dur →
      0 < dur →
      scheduled s item
        (withTimers (<[Store.timeoutKey item := Win.nextHandle s.2]> (timers s.1)) s.1,
         (Win.setTimeout (DismissToast (id item)) dur s.2).2).

Lemma scheduleItem_scheduled s item : scheduled s item (scheduleItem s item).
Proof.
  destruct s as [a w]. unfold scheduleItem.
  destruct (exiting item) eqn:Hex; [constructor; auto|].
  case_bool_decide as Hk; [constructor; auto|].
  destruct (nullish (duration item) DEFAULT_DURATION) as [dur|] eqn:Hd;
    [|constructor; auto].
  case_bool_decide as Hle; [constructor; eauto 6|].
  apply (scheduled_set (a, w) item dur); [done| |done|lia].
  simpl. destruct (timers a !! Store.timeoutKey item) eqn:E; [|done].
  destruct Hk. eauto.
Qed.

Lemma timersOnly_refl s : Adapter.timersOnly s s.
Proof. by repeat split. Qed.

Lemma timersOnly_trans s1 s2 s3 :
  Adapter.timersOnly s1 s2 → Adapter.timersOnly s2 s3 → Adapter.timersOnly s1 s3.
Proof.
  intros (?&?&?&?&?&?&?&?) (?&?&?&?&?&?&?&?).
  repeat split; try congruence. by etrans.
Qed.

Lemma scheduleItem_timersOnly s item : Adapter.timersOnly s (scheduleItem s item).
Proof.
  destruct (scheduleItem_scheduled s item); [apply timersOnly_refl|].
  repeat split; simpl; lia.
Qed.

Lemma foldl_scheduleItem_timersOnly items s :
  Adapter.timersOnly s (foldl scheduleItem s items).
Proof.
  revert s. induction items as [|item items IH]; intros s; simpl.
  - apply timersOnly_refl.
  - eapply timersOnly_trans; [apply scheduleItem_timersOnly|apply IH].
Qed.

Lemma schedule_timersOnly items s : Adapter.timersOnly s (schedule items s).
Proof.
  unfold schedule. destruct (isHovering s.1);
    [apply timersOnly_refl|apply foldl_scheduleItem_timersOnly].
Qed.

(** Scheduling keeps the table well formed and leaks no timer. *)
Lemma scheduleItem_wf_noLeak s item :
  Win.wf s.2 → Adapter.noLeak s →
  Win.wf (scheduleItem s item).2 ∧ Adapter.noLeak (scheduleItem s item).
Proof.
  intros Hwf Hleak.
  destruct (scheduleItem_scheduled s item) as [|dur Hex Hk Hd Hpos]; [done|].
  split; [by apply wf_setTimeout|].
  intros h e. simpl. rewrite lookup_insert. case_decide as Hh.
  - intros _. exists (Store.timeoutKey item). subst h. by rewrite lookup_insert_eq.
  - intros (k & Hk')%Hleak. exists k. rewrite lookup_insert_ne; [done|].
    intros <-. congruence.
Qed.

Lemma scheduleItem_wf s item : Win.wf s.2 → Win.wf (scheduleItem s item).2.
Proof.
  intros Hwf. destruct (scheduleItem_scheduled s item); [done|].
  by apply wf_setTimeout.
Qed.

Lemma foldl_scheduleItem_wf_noLeak items s :
  Win.wf s.2 → Adapter.noLeak s →
  Win.wf (foldl scheduleItem s items).2 ∧
  Adapter.noLeak (foldl scheduleItem s items).
Proof.
  revert s. induction items as [|item items IH]; intros s Hwf Hleak; [done|].
  simpl. destruct (scheduleItem_wf_noLeak s item Hwf Hleak). by apply IH.
Qed.

Lemma schedule_wf_noLeak items s :
  Win.wf s.2 → Adapter.noLeak s →
  Win.wf (schedule items s).2 ∧ Adapter.noLeak (schedule items s).
Proof.
  intros. unfold schedule. destruct (isHovering s.1); [done|].
  by apply foldl_scheduleItem_wf_noLeak.
Qed.

(** [schedule] does nothing at all during a hover. *)
Lemma schedule_hovering items s : isHovering s.1 = true → schedule items s = s.
Proof. unfold schedule. by intros ->. Qed.

Lemma foldl_scheduleItem_stable items s k h e :
  Win.wf s.2 →
  timers s.1 !! k = Some h → Win.pending s.2 !! h = Some e →
  timers (foldl scheduleItem s items).1 !! k = Some h ∧
  Win.pending (foldl scheduleItem s items).2 !! h = Some e.
Proof.
  revert s. induction items as [|x items IH]; intros s Hwf Hk Hh; [done|].
  simpl. apply IH.
  - by apply scheduleItem_wf.
  - destruct (scheduleItem_scheduled s x) as [|dur ? Hnone]; [done|].
    simpl. rewrite lookup_insert_ne; [done|]. intros Heq. congruence.
  - destruct (scheduleItem_scheduled s x) as [|dur ? Hnone]; [done|].
    simpl. rewrite lookup_insert_ne; [done|].
    apply Hwf in Hh. lia.
Qed.

Lemma foldl_scheduleItem_no_timer items s k :
  (∀ item dur, item ∈ items → Store.timeoutKey item = k →
     exiting item = false →
     nullish (duration item) DEFAULT_DURATION = Some dur → dur ≤ 0) →
  timers (foldl scheduleItem s items).1 !! k = timers s.1 !! k.
Proof.
  revert s. induction items as [|x items IH]; intros s Hno; [done|].
  simpl. rewrite IH.
  - destruct (scheduleItem_scheduled s x) as [|dur Hex Hnone Hd Hpos]; [done|].
    simpl. rewrite lookup_insert_ne; [done|]. intros Hk.
    assert (dur ≤ 0); [|lia].
    apply (Hno x dur); auto. by left.
  - intros item dur Hin. apply Hno. by right.
Qed.

Lemma foldl_scheduleItem_timer items s item d :
  Win.wf s.2 →
  NoDup (Store.timeoutKey <$> items) →
  item ∈ items →
  exiting item = false →
  nullish (duration item) DEFAULT_DURATION = Some d → 0 < d →
  timers s.1 !! Store.timeoutKey item = None →
  ∃ h, timers (foldl scheduleItem s items).1 !! Store.timeoutKey item = Some h ∧
       Win.pending (foldl scheduleItem s items).2 !! h
       = Some (Win.now s.2 + d, DismissToast (id item)).
Proof.
  revert s. induction items as [|x items IH]; intros s Hwf Hnd Hin Hex Hd Hpos Hk.
  - by apply elem_of_nil in Hin.
  - rewrite fmap_cons in Hnd. apply NoDup_cons in Hnd as [Hx Hnd].
    apply elem_of_cons in Hin as [<-|Hin]; simpl.
    + exists (Win.nextHandle s.2).
      destruct (scheduleItem_scheduled s item) as [Hskip|dur _ _ Hd' _].
      { destruct Hskip as [?|[[? ?]|[?|(dur & ? & ?)]]]; [congruence..|].
        assert (dur = d) by congruence. lia. }
      assert (dur = d) as -> by congruence.
      apply foldl_scheduleItem_stable; simpl.
      * by apply wf_setTimeout.
      * by rewrite lookup_insert_eq.
      * by rewrite lookup_insert_eq.
    + destruct (scheduleItem_timersOnly s x) as (_&_&_&_&_&_&Hnow&_).
      rewrite <- Hnow. apply IH; try done.
      * by apply scheduleItem_wf.
      * destruct (scheduleItem_scheduled s x) as [|dur ? Hnone]; [done|].
        simpl. rewrite lookup_insert_ne; [done|]. intros Heq.
        apply Hx. rewrite Heq. apply list_elem_of_fmap. eauto.
Qed.
Lemma schedule_Inv items s : Adapter.Inv s → Adapter.Inv (schedule items s).
Proof.
  intros [Hwf Hleak Hhov].
  destruct (schedule_wf_noLeak items s Hwf Hleak).
  split; [done..|].
  intros Hh. destruct (schedule_timersOnly items s) as (_&_&Hsame&_).
  rewrite Hsame in Hh. rewrite schedule_hovering; auto.
Qed.

(** After [clearAllTimers] nothing of the adapter is pending. *)
Lemma clearAllTimers_spec s :
  Adapter.noLeak s →
  timers (clearAllTimers s).1 = ∅ ∧ Win.pending (clearAllTimers s).2 = ∅.
Proof.
  destruct s as [a w]. intros Hleak. split; [done|]. simpl.
  apply map_empty. intros h.
  rewrite clearTimeouts_pending. case_decide as Hin; [done|].
  destruct (Win.pending w !! h) as [e|] eqn:E; [|done].
  destruct (Hleak h e E) as [k Hk]. destruct Hin. apply elem_of_handles. eauto.
Qed.

Lemma clearAllTimers_Inv s :
  Win.wf s.2 → Adapter.noLeak s → Adapter.Inv (clearAllTimers s).
Proof.
  intros Hwf Hleak.
  destruct (clearAllTimers_spec s Hleak) as [Ht Hp].
  destruct s as [a w]. split.
  - by apply wf_clearTimeouts.
  - intros h e. rewrite Hp. by rewrite lookup_empty.
  - done.
Qed.

Lemma pruneTimers_Inv items s : Adapter.Inv s → Adapter.Inv (pruneTimers items s).
Proof.
  intros [Hwf Hleak Hhov]. destruct s as [a w]. split; simpl.
  - by apply wf_clearTimeouts.
  - intros h e [Hnot He]%clearTimeouts_pending_Some.
    destruct (Hleak h e He) as [k Hk]. exists k. simpl in *.
    apply map_lookup_filter_Some. split; [done|]. simpl.
    destruct (decide (k ∈ Store.timeoutKey <$> items)) as [|Hout]; [done|].
    destruct Hnot. apply elem_of_handles. exists k.
    apply map_lookup_filter_Some. done.
  - intros Hh. unfold Adapter.hoverIdle in Hhov. simpl in *.
    rewrite (Hhov Hh). apply map_filter_empty.
Qed.

(** The invariant does not look at the other fields of the adapter. *)
Lemma Inv_view s a' :
  timers a' = timers s.1 → isHovering a' = isHovering s.1 →
  Adapter.Inv s → Adapter.Inv (a', s.2).
Proof.
  intros Ht Hh [Hwf Hleak Hhov]. split; [done| |].
  - intros h e He. simpl. rewrite Ht. eauto.
  - unfold Adapter.hoverIdle. simpl. rewrite Ht, Hh. done.
Qed.

Lemma listener_Inv next s : Adapter.Inv s → Adapter.Inv (listener next s).
Proof.
  intros Hinv. destruct s as [a w]. unfold Toaster.listener, onToasts.
  pose proof (pruneTimers_Inv next (withToasts next a, w)
                (Inv_view (a, w) (withToasts next a) eq_refl eq_refl Hinv)) as H1.
  destruct (pruneTimers next (withToasts next a, w)) as [a1 w1].
  pose proof (schedule_Inv next (pruneHandlers next a1, w1)
                (Inv_view (a1, w1) (pruneHandlers next a1) eq_refl eq_refl H1)) as H2.
  destruct (schedule next (pruneHandlers next a1, w1)) as [a2 w2].
  apply (Inv_view (a2, w2)); [| |done].
  - unfold render, onLatest. by case_bool_decide.
  - unfold render, onLatest. by case_bool_decide.
Qed.

Lemma enter_Inv i s : Adapter.Inv s → Adapter.Inv (enter i s).
Proof.
  intros Hinv. destruct s as [a w]. unfold enter.
  destruct (isHovering (withActive (Some i) a)) eqn:E.
  - by apply (Inv_view (a, w)).
  - apply clearAllTimers_Inv; apply Hinv.
Qed.

Lemma leave_Inv i s : Adapter.Inv s → Adapter.Inv (leave i s).
Proof.
  intros Hinv. destruct s as [a w]. unfold Toaster.leave.
  destruct (isHovering (withActive (latestId a) a)) eqn:E.
  - destruct (schedule_wf_noLeak (toasts (withActive (latestId a) a))
      (withHover false (withActive (latestId a) a), w)) as [Hwf Hleak];
      [apply Hinv..|].
    split; [done..|]. intros Hh.
    destruct (schedule_timersOnly (toasts (withActive (latestId a) a))
      (withHover false (withActive (latestId a) a), w)) as (_&_&Hsame&_).
    rewrite Hsame in Hh. done.
  - by apply (Inv_view (a, w)).
Qed.

Lemma unmount_Inv s : Adapter.Inv s → Adapter.Inv (unmount s).
Proof.
  intros Hinv. destruct s as [a w]. apply clearAllTimers_Inv; apply Hinv.
Qed.

Lemma step_Inv s e : Adapter.Inv s → Adapter.Inv (step s e).
Proof.
  intros Hinv. destruct e as [next|i|i|dt|h|]; simpl.
  - destruct (listening s.1); [by apply listener_Inv|done].
  - by apply enter_Inv.
  - by apply leave_Inv.
  - destruct Hinv as [Hwf Hleak Hhov]. split; [by apply wf_advance|done..].
  - destruct (Win.take h s.2) as [[cb w']|] eqn:E; [|done].
    destruct Hinv as [Hwf Hleak Hhov]. split; [by eapply wf_take|..|done].
    apply take_Some in E as (due & _ & _ & ->).
    intros h' e. simpl. intros [_ He]%lookup_delete_Some. eauto.
  - by apply unmount_Inv.
Qed.

Lemma run_Inv evs s : Adapter.Inv s → Adapter.Inv (run evs s).
Proof.
  revert s. induction evs as [|e evs IH]; intros s Hinv; [done|].
  simpl. apply IH. by apply step_Inv.
Qed.

Lemma init_Inv : Adapter.Inv (Toaster.init, Win.init).
Proof.
  split; [apply wf_init| |done].
  intros h e. simpl. by rewrite lookup_empty.
Qed.

Lemma mounted_Inv ts : Adapter.Inv (Adapter.mounted DEFAULT_DURATION ts).
Proof.
  unfold Adapter.mounted, mount.
  pose proof (listener_Inv ts _ init_Inv) as H.
  destruct (listener ts (init, Win.init)) as [a w].
  by apply (Inv_view (a, w)).
Qed.

(** In every state the adapter can reach, a hover means that no timer
    is held and none is pending. *)
Lemma hovering_idle s :
  Adapter.Inv s → isHovering s.1 = true →
  timers s.1 = ∅ ∧ Win.pending s.2 = ∅.
Proof.
  intros [Hwf Hleak Hhov] Hh. split; [by apply Hhov|].
  apply map_empty. intros h.
  destruct (Win.pending s.2 !! h) as [e|] eqn:E; [|done].
  destruct (Hleak h e E) as [k Hk]. rewrite (Hhov Hh) in Hk.
  by rewrite lookup_empty in Hk.
Qed.

(** [schedule] outside a hover: every eligible item whose key has no
    timer gets one, due its full duration from now. *)
Lemma schedule_timer items s item d :
  isHovering s.1 = false →
  Win.wf s.2 →
  NoDup (Store.timeoutKey <$> items) →
  item ∈ items →
  exiting item = false →
  nullish (duration item) DEFAULT_DURATION = Some d → 0 < d →
  timers s.1 !! Store.timeoutKey item = None →
  ∃ h, timers (schedule items s).1 !! Store.timeoutKey item = Some h ∧
       Win.pending (schedule items s).2 !! h
       = Some (Win.now s.2 + d, DismissToast (id item)).
Proof.
  intros Hh. unfold Toaster.schedule. rewrite Hh.
  apply foldl_scheduleItem_timer.
Qed.

(** [schedule] never sets a timer for an item whose duration resolves
    to a number that is not positive. *)
Lemma schedule_no_timer items s k :
  (∀ item dur, item ∈ items → Store.timeoutKey item = k →
     exiting item = false →
     nullish (duration item) DEFAULT_DURATION = Some dur → dur ≤ 0) →
  timers (schedule items s).1 !! k = timers s.1 !! k.
Proof.
  intros Hno. unfold Toaster.schedule. destruct (isHovering s.1); [done|].
  by apply foldl_scheduleItem_no_timer.
Qed.

Lemma handles_empty : handles ∅ = [].
Proof. unfold handles. by rewrite map_to_list_empty. Qed.

(** The listener, without the intermediate pairs. *)
Lemma listener_eq next a w :
  listener next (a, w)
  = (render (onLatest (toasts a)
       (schedule next (pruneHandlers next (pruneTimers next (withToasts next a, w)).1,
                       (pruneTimers next (withToasts next a, w)).2)).1),
     (schedule next (pruneHandlers next (pruneTimers next (withToasts next a, w)).1,
                     (pruneTimers next (withToasts next a, w)).2)).2).
Proof.
  unfold Toaster.listener, onToasts.
  destruct (pruneTimers next (withToasts next a, w)) as [a1 w1]. simpl.
  by destruct (schedule next (pruneHandlers next a1, w1)).
Qed.

(** The timers after a notification are those that [schedule] leaves
    once the stale ones are pruned. *)
Lemma listener_timers next a w :
  let s2 := schedule next (pruneHandlers next (pruneTimers next (withToasts next a, w)).1,
                           (pruneTimers next (withToasts next a, w)).2) in
  timers (listener next (a, w)).1 = timers s2.1 ∧
  isHovering (listener next (a, w)).1 = isHovering a ∧
  toasts (listener next (a, w)).1 = next ∧
  listening (listener next (a, w)).1 = listening a ∧
  (listener next (a, w)).2 = s2.2.
Proof.
  intros s2. rewrite listener_eq. fold s2.
  destruct (schedule_timersOnly next
    (pruneHandlers next (pruneTimers next (withToasts next a, w)).1,
     (pruneTimers next (withToasts next a, w)).2)) as (Ht&_&Hh&_&_&Hl&_).
  fold s2 in Ht, Hh, Hl. simpl in *.
  unfold render, onLatest. case_bool_decide; simpl; by repeat split.
Qed.

Lemma listener_now next s : Win.now (listener next s).2 = Win.now s.2.
Proof.
  destruct s as [a w].
  destruct (listener_timers next a w) as (_&_&_&_&->).
  destruct (schedule_timersOnly next
    (pruneHandlers next (pruneTimers next (withToasts next a, w)).1,
     (pruneTimers next (withToasts next a, w)).2)) as (_&_&_&_&_&_&->&_).
  simpl. apply clearTimeouts_now.
Qed.

(** On a fresh mount every eligible toast of the Store gets its
    timer. *)
Lemma mounted_timer ts item d :
  NoDup (Store.timeoutKey <$> ts) →
  item ∈ ts → exiting item = false →
  nullish (duration item) DEFAULT_DURATION = Some d → 0 < d →
  let s := Adapter.mounted DEFAULT_DURATION ts in
  Win.now s.2 = 0 ∧ listening s.1 = true ∧ toasts s.1 = ts ∧
  ∃ h, timers s.1 !! Store.timeoutKey item = Some h ∧
       Win.pending s.2 !! h = Some (d, DismissToast (id item)).
Proof.
  intros Hnd Hin Hex Hd Hpos s. unfold s, Adapter.mounted, mount.
  pose proof (listener_now ts (init, Win.init)) as Hnow.
  destruct (listener_timers ts init Win.init) as (Ht&_&Hts&_&Hw).
  destruct (listener ts (init, Win.init)) as [a w]. simpl in *.
  repeat split; [done..|]. rewrite Ht, Hw.
  destruct (schedule_timer ts
    (pruneHandlers ts (withTimers (filter (λ kv, kv.1 ∈ Store.timeoutKey <$> ts) ∅)
                                  (withToasts ts init)),
     Win.clearTimeouts (handles (filter (λ kv, kv.1 ∉ Store.timeoutKey <$> ts) ∅)) Win.init)
    item d) as (h & Hk & Hp);
    [done|apply wf_clearTimeouts, wf_init|done..| |].
  - simpl. rewrite map_filter_empty. apply lookup_empty.
  - exists h. split; [done|]. rewrite Hp. simpl.
    rewrite clearTimeouts_now. done.
Qed.
End AdapterFacts.
(** * The View Adapter: what stays in step with the tracked list *)

Section AdapterSynced.
Import Toaster.
Variable DEFAULT_DURATION : option Z.
Implicit Types (a : Toaster.t) (w : Win.t Callback) (s : St)
  (item : SileoItem) (items : list SileoItem).
Local Abbreviation scheduleItem := (scheduleItem DEFAULT_DURATION).
Local Abbreviation schedule := (schedule DEFAULT_DURATION).
Local Abbreviation listener := (listener DEFAULT_DURATION).
Local Abbreviation leave := (leave DEFAULT_DURATION).
Local Abbreviation step := (Adapter.step DEFAULT_DURATION).
Local Abbreviation run := (Adapter.run DEFAULT_DURATION).

Lemma timersOk_scheduleItem keys s item :
  Store.timeoutKey item ∈ keys → Adapter.timersOk keys s → Adapter.timersOk keys (scheduleItem s item).
Proof.
  intros Hin (Ht & Hf & Hi).
  destruct (scheduleItem_scheduled DEFAULT_DURATION s item) as [|dur ? Hnone]; [done|].
  split; [|split]; simpl.
  - intros k h [[<- _]|[_ ?]]%lookup_insert_Some; eauto.
  - intros k h [[_ <-]|[_ ?%Hf]]%lookup_insert_Some; lia.
  - intros k k' h [[<- <-]|[? Hk]]%lookup_insert_Some
      [[<- Hh]|[? Hk']]%lookup_insert_Some; try done.
    + apply Hf in Hk'. lia.
    + apply Hf in Hk. lia.
    + eauto.
Qed.

Lemma timersOk_foldl keys items s :
  (∀ item, item ∈ items → Store.timeoutKey item ∈ keys) →
  Adapter.timersOk keys s → Adapter.timersOk keys (foldl scheduleItem s items).
Proof.
  revert s. induction items as [|x items IH]; intros s Hin Hok; [done|].
  simpl. apply IH.
  - intros item ?. apply Hin. by right.
  - apply timersOk_scheduleItem; [|done]. apply Hin. by left.
Qed.

Lemma timersOk_schedule items s :
  Adapter.timersOk (Store.timeoutKey <$> items) s →
  Adapter.timersOk (Store.timeoutKey <$> items) (schedule items s).
Proof.
  intros Hok. unfold Toaster.schedule. destruct (isHovering s.1); [done|].
  apply timersOk_foldl; [|done]. intros item ?. apply list_elem_of_fmap. eauto.
Qed.

Lemma timersOk_pruneTimers keys items s :
  Adapter.timersOk keys s →
  Adapter.timersOk (Store.timeoutKey <$> items) (pruneTimers items s).
Proof.
  destruct s as [a w]. intros (Ht & Hf & Hi). split; [|split]; simpl in *.
  - by intros k h [_ ?]%map_lookup_filter_Some.
  - intros k h [?%Hf _]%map_lookup_filter_Some.
    by rewrite clearTimeouts_nextHandle.
  - intros k k' h [? _]%map_lookup_filter_Some [? _]%map_lookup_filter_Some. eauto.
Qed.

Lemma timersOk_view keys s a' w' :
  timers a' = timers s.1 → Win.nextHandle w' = Win.nextHandle s.2 →
  Adapter.timersOk keys s → Adapter.timersOk keys (a', w').
Proof. intros Ht Hn (H1 & H2 & H3). unfold Adapter.timersOk. simpl. rewrite Ht, Hn. done. Qed.

Lemma timersOk_empty keys a w : timers a = ∅ → Adapter.timersOk keys (a, w).
Proof.
  intros Ht. unfold Adapter.timersOk. simpl. rewrite Ht.
  repeat split; intros *; by rewrite lookup_empty.
Qed.

Lemma Synced_timersOk s :
  Adapter.Synced s → Adapter.timersOk (Store.timeoutKey <$> toasts s.1) s.
Proof. intros []. by repeat split. Qed.

Lemma Synced_intro s :
  Adapter.timersOk (Store.timeoutKey <$> toasts s.1) s →
  latestId s.1 = latest (toasts s.1) →
  (activeId s.1 = None → latest (toasts s.1) = None) →
  handlersCache s.1 = list_to_set (id <$> toasts s.1) →
  Adapter.Synced s.
Proof. intros (?&?&?) ???. by split. Qed.

Lemma listener_Synced next s : Adapter.Synced s → Adapter.Synced (listener next s).
Proof.
  intros Hs. destruct s as [a w]. rewrite listener_eq.
  pose proof (timersOk_pruneTimers _ next (withToasts next a, w)
    (timersOk_view _ (a, w) (withToasts next a) w eq_refl eq_refl (Synced_timersOk _ Hs)))
    as H1.
  assert (toasts (pruneTimers next (withToasts next a, w)).1 = next ∧
          activeId (pruneTimers next (withToasts next a, w)).1 = activeId a ∧
          latestId (pruneTimers next (withToasts next a, w)).1 = latestId a ∧
          handlersCache (pruneTimers next (withToasts next a, w)).1 = handlersCache a)
    as (Ht1 & Ha1 & Hl1 & Hc1) by done.
  destruct (pruneTimers next (withToasts next a, w)) as [a1 w1]. simpl in *.
  pose proof (timersOk_schedule next (pruneHandlers next a1, w1)
    (timersOk_view _ (a1, w1) _ _ eq_refl eq_refl H1)) as H2.
  destruct (schedule_timersOnly DEFAULT_DURATION next (pruneHandlers next a1, w1))
    as (Ht2 & Ha2 & _ & Hl2 & Hc2 & _).
  destruct (schedule next (pruneHandlers next a1, w1)) as [a2 w2]. simpl in *.
  destruct Hs as [_ _ _ Hlat Hact _]. simpl in Hlat, Hact.
  assert (handlersCache a2 ∪ list_to_set (id <$> next)
          = list_to_set (id <$> next)) as Hcache.
  { rewrite Hc2, Hc1. apply set_eq. intros i.
    rewrite elem_of_union, elem_of_filter, !elem_of_list_to_set. tauto. }
  unfold onLatest. rewrite Ht2, Ht1.
  case_bool_decide as Hsame; apply Synced_intro; simpl; rewrite ?Ht2, ?Ht1;
    try done; try (by apply (timersOk_view _ (a2, w2))).
  - rewrite Hl2, Hl1. congruence.
  - rewrite Ha2, Ha1. intros ?%Hact. congruence.
Qed.

Lemma enter_Synced i s : Adapter.Synced s → Adapter.Synced (enter i s).
Proof.
  intros Hs. destruct s as [a w]. unfold enter.
  pose proof (Synced_timersOk _ Hs) as Hok. destruct Hs as [_ _ _ Hlat Hact Hc].
  destruct (isHovering (withActive (Some i) a)) eqn:E; apply Synced_intro;
    try done; by apply timersOk_empty.
Qed.

Lemma leave_Synced i s : Adapter.Synced s → Adapter.Synced (leave i s).
Proof.
  intros Hs. destruct s as [a w]. unfold Toaster.leave.
  pose proof (Synced_timersOk _ Hs) as Hok. destruct Hs as [_ _ _ Hlat Hact Hc].
  simpl in *.
  destruct (isHovering a) eqn:E.
  - pose proof (timersOk_schedule (toasts a)
      (withHover false (withActive (latestId a) a), w)
      (timersOk_view _ (a, w) _ _ eq_refl eq_refl Hok)) as H2.
    destruct (schedule_timersOnly DEFAULT_DURATION (toasts a)
      (withHover false (withActive (latestId a) a), w))
      as (Ht2 & Ha2 & _ & Hl2 & Hc2 & _).
    simpl in *.
    apply Synced_intro; rewrite ?Ht2, ?Hl2, ?Ha2, ?Hc2; try done.
    congruence.
  - apply Synced_intro; try done. simpl. congruence.
Qed.

Lemma unmount_Synced s : Adapter.Synced s → Adapter.Synced (unmount s).
Proof.
  intros Hs. destruct s as [a w]. destruct Hs as [_ _ _ Hlat Hact Hc].
  apply Synced_intro; try done; by apply timersOk_empty.
Qed.

Lemma step_Synced s e : Adapter.Synced s → Adapter.Synced (step s e).
Proof.
  intros Hs. destruct e as [next|i|i|dt|h|]; simpl.
  - destruct (listening s.1); [by apply listener_Synced|done].
  - by apply enter_Synced.
  - by apply leave_Synced.
  - pose proof (Synced_timersOk _ Hs) as Hok. destruct Hs as [_ _ _ Hlat Hact Hc].
    apply Synced_intro; try done; by apply (timersOk_view _ s).
  - destruct (Win.take h s.2) as [[cb w']|] eqn:E; [|done].
    apply take_Some in E as (due & _ & _ & ->).
    pose proof (Synced_timersOk _ Hs) as Hok. destruct Hs as [_ _ _ Hlat Hact Hc].
    apply Synced_intro; try done; by apply (timersOk_view _ s).
  - by apply unmount_Synced.
Qed.

Lemma run_Synced evs s : Adapter.Synced s → Adapter.Synced (run evs s).
Proof.
  revert s. induction evs as [|e evs IH]; intros s Hinv; [done|].
  simpl. apply IH. by apply step_Synced.
Qed.

Lemma init_Synced : Adapter.Synced (Toaster.init, Win.init).
Proof. apply Synced_intro; try done; by apply timersOk_empty. Qed.

Lemma mounted_Synced ts : Adapter.Synced (Adapter.mounted DEFAULT_DURATION ts).
Proof.
  unfold Adapter.mounted, mount.
  pose proof (listener_Synced ts _ init_Synced) as H.
  destruct (listener ts (init, Win.init)) as [a w].
  pose proof (Synced_timersOk _ H) as Hok. destruct H as [_ _ _ Hlat Hact Hc].
  by apply Synced_intro.
Qed.
End AdapterSynced.

(** * The View Adapter: grouping by position *)

Section Grouping.
Import Toaster.

Lemma foldl_groupItem defaultPos ts (map : PosMap) pos :
  foldl (groupItem defaultPos) map ts pos
  = match filter (λ t, resolvedPosition defaultPos t = pos) ts with
    | [] => map pos
    | l => Some (default [] (map pos) ++ l)
    end.
Proof.
  revert map. induction ts as [|t ts IH]; intros map; [done|].
  simpl. rewrite IH. rewrite filter_cons. unfold groupItem.
  destruct (decide (resolvedPosition defaultPos t = pos)) as [Heq|Hne].
  - rewrite Heq. destruct (map pos) as [arr|] eqn:E;
      rewrite fn_lookup_insert; simpl;
      destruct (filter _ ts); simpl; by rewrite <- ?app_assoc.
  - destruct (map (resolvedPosition defaultPos t)); by rewrite fn_lookup_insert_ne.
Qed.

Lemma byPosition_filter defaultPos ts pos :
  byPosition defaultPos ts pos
  = match filter (λ t, resolvedPosition defaultPos t = pos) ts with
    | [] => None
    | l => Some l
    end.
Proof. unfold byPosition. rewrite foldl_groupItem. by destruct (filter _ ts). Qed.

Lemma viewports_filter defaultPos ts :
  viewports defaultPos ts
  = omap (λ pos, match filter (λ t, resolvedPosition defaultPos t = pos) ts with
                 | [] => None
                 | l => Some (pos, l)
                 end) SILEO_POSITIONS.
Proof.
  unfold viewports. apply list_omap_ext, Forall2_same_length_lookup.
  split; [done|]. intros i pos pos' Hp Hp'. assert (pos' = pos) as -> by congruence.
  rewrite byPosition_filter. by destruct (filter _ ts).
Qed.

Lemma groups_concat defaultPos ts :
  concat ((λ pos, filter (λ t, resolvedPosition defaultPos t = pos) ts)
          <$> SILEO_POSITIONS) ≡ₚ ts.
Proof.
  induction ts as [|t ts IH]; [done|].
  unfold SILEO_POSITIONS in *. cbn [fmap list_fmap concat] in *.
  rewrite !filter_cons.
  destruct (resolvedPosition defaultPos t) eqn:E; simpl.
  all: rewrite <- ?Permutation_middle; by f_equiv.
Qed.

Lemma concat_nonempty_groups {A B} (f : A → list B) (ps : list A) :
  concat (snd <$> omap (λ p, match f p with
                             | [] => None
                             | l => Some (p, l)
                             end) ps)
  = concat (f <$> ps).
Proof.
  induction ps as [|p ps IH]; [done|].
  cbn [omap list_omap fmap list_fmap concat] in *.
  destruct (f p) eqn:E; cbn [fmap list_fmap concat snd app]; by rewrite IH.
Qed.
End Grouping.

(** * The Store *)

Section StoreFacts.
Import Store.
Implicit Types (st : Store.t) (i : string) (x : SileoItem) (cs : list Call).

Lemma used_mono st st' i :
  (counter st ≤ counter st')%nat → used st i → used st' i.
Proof. intros Hle (n & -> & Hn). exists n. split; [done|lia]. Qed.

Lemma id_markExiting x : id (markExiting x) = id x.
Proof. done. Qed.

(** What [showWith] does to the Store. *)
Lemma showWith_spec s o st :
  let r := showWith s o st in
  r.1 = pretty (counter st) ∧
  counter r.2 = S (S (counter st)) ∧
  ∃ item, toasts r.2 = toasts st ++ [item] ∧ id item = r.1 ∧
          exiting item = false ∧ state item = s.
Proof. simpl. repeat split. eexists. repeat split. Qed.

Lemma showWith_fresh s o st : Inv st → (showWith s o st).1 ∉ id <$> toasts st.
Proof.
  intros [Hu _] (x & Hx & Hin)%list_elem_of_fmap.
  destruct (Hu x Hin) as (n & Hn & Hlt).
  destruct (showWith_spec s o st) as (Hi & _). rewrite Hi in Hx.
  rewrite Hn in Hx. apply (inj pretty) in Hx. lia.
Qed.

Lemma showWith_Inv s o st : Inv st → Inv (showWith s o st).2.
Proof.
  intros Hinv. pose proof (showWith_fresh s o st Hinv) as Hfresh.
  destruct Hinv as [Hu Hnd]. simpl in *.
  split; simpl.
  - intros x [Hx|Hx]%elem_of_app.
    + apply (used_mono st); [simpl; lia|auto].
    + apply list_elem_of_singleton in Hx as ->. exists (counter st). simpl. split; [done|lia].
  - rewrite fmap_app. apply NoDup_app. split; [done|]. split.
    + intros i Hi [->|[]%elem_of_nil]%elem_of_cons. done.
    + apply NoDup_singleton.
Qed.

Lemma fmap_id_update (f : SileoItem → SileoItem) (P : SileoItem → bool) (l : list SileoItem) :
  (∀ x, id (f x) = id x) →
  id <$> ((λ x, if P x then f x else x) <$> l) = id <$> l.
Proof.
  intros Hf. rewrite <- list_fmap_compose. apply list_fmap_ext.
  intros _ x _. simpl. by destruct (P x).
Qed.

Lemma elem_of_update (f : SileoItem → SileoItem) (P : SileoItem → bool) (l : list SileoItem) y :
  y ∈ (λ x, if P x then f x else x) <$> l →
  ∃ x, x ∈ l ∧ (y = x ∨ (P x = true ∧ y = f x)).
Proof.
  intros (x & -> & Hin)%list_elem_of_fmap. exists x. split; [done|].
  destruct (P x); auto.
Qed.

Lemma settle_spec i s o st :
  (counter st ≤ counter (settle i s o st))%nat ∧
  id <$> toasts (settle i s o st) = id <$> toasts st.
Proof.
  unfold settle. destruct (existsb (live i) (toasts st)); [|done].
  simpl. split; [lia|]. by apply fmap_id_update.
Qed.

Lemma update_Inv (f : SileoItem → SileoItem) (P : SileoItem → bool) st c :
  (∀ x, id (f x) = id x) → (counter st ≤ c)%nat → Inv st →
  Inv (mk ((λ x, if P x then f x else x) <$> toasts st) c (position st) (options st)).
Proof.
  intros Hf Hc [Hu Hnd]. split; simpl.
  - intros y (x & Hin & Hy)%elem_of_update.
    apply (used_mono st); [simpl; lia|].
    destruct Hy as [->|[_ ->]]; [|rewrite Hf]; auto.
  - by rewrite fmap_id_update.
Qed.

Lemma store_call_Inv c st : Inv st → Inv (call c st).2.
Proof.
  intros Hinv. destruct c as [s o|o|i s o|i| | |i]; simpl.
  - by apply showWith_Inv.
  - by apply showWith_Inv.
  - unfold settle. destruct (existsb (live i) (toasts st)); [|done].
    simpl. apply (update_Inv _ (live i) st); [done|simpl; lia|done].
  - apply (update_Inv markExiting (live i) st); [done|simpl; lia|done].
  - apply (update_Inv markExiting (λ x, negb (exiting x)) st (counter st)) in Hinv;
      [|done|lia].
    simpl in Hinv. unfold dismissAll, setToasts.
    erewrite list_fmap_ext; [exact Hinv|]. intros _ x _. simpl. by destruct (exiting x).
  - split; simpl; [by intros x ?%elem_of_nil|constructor].
  - destruct Hinv as [Hu Hnd]. split; simpl.
    + intros x [_ Hx]%list_elem_of_filter. by apply Hu.
    + clear Hu. induction (toasts st) as [|x l IH]; [constructor|].
      rewrite fmap_cons in Hnd. apply NoDup_cons in Hnd as [Hx Hnd].
      rewrite filter_cons. case_decide; [|by apply IH].
      rewrite fmap_cons. apply NoDup_cons. split; [|by apply IH].
      intros (y & Hy & [_ Hin]%list_elem_of_filter)%list_elem_of_fmap.
      apply Hx. apply list_elem_of_fmap. eauto.
Qed.

Lemma call_counter c st : (counter st ≤ counter (call c st).2)%nat.
Proof.
  destruct c as [s o|o|i s o|i| | |i]; simpl; try lia.
  apply settle_spec.
Qed.

(** The id a call returns is the number the counter was at. *)
Lemma call_returns c st i :
  (call c st).1 = Some i →
  i = pretty (counter st) ∧ (counter st < counter (call c st).2)%nat.
Proof. destruct c; simpl; intros [= <-]; split; (done || lia). Qed.

Lemma run_cons c cs st :
  run (c :: cs) st
  = (from_option (λ i, [i]) [] (call c st).1 ++ (run cs (call c st).2).1,
     (run cs (call c st).2).2).
Proof.
  cbn [run]. destruct (call c st) as [r st1]. cbn [fst snd].
  by destruct (run cs st1).
Qed.

Lemma store_run_Inv cs st : Inv st → Inv (run cs st).2.
Proof.
  revert st. induction cs as [|c cs IH]; intros st Hinv; [done|].
  simpl. pose proof (store_call_Inv c st Hinv) as H1.
  destruct (call c st) as [r st1]. specialize (IH st1 H1).
  by destruct (run cs st1).
Qed.

Lemma run_counter cs st : (counter st ≤ counter (run cs st).2)%nat.
Proof.
  revert st. induction cs as [|c cs IH]; intros st; [done|].
  simpl. pose proof (call_counter c st) as H1.
  destruct (call c st) as [r st1]. specialize (IH st1).
  destruct (run cs st1). simpl in *. lia.
Qed.

(** The ids a sequence of calls returns are numbers the counter passes
    during the sequence, each one once. *)
Lemma run_ids cs st :
  NoDup (run cs st).1 ∧
  ∀ i, i ∈ (run cs st).1 →
       ∃ n, i = pretty n ∧ (counter st ≤ n < counter (run cs st).2)%nat.
Proof.
  revert st. induction cs as [|c cs IH]; intros st.
  { split; [constructor|]. by intros i ?%elem_of_nil. }
  simpl. pose proof (call_counter c st) as Hc.
  pose proof (call_returns c st) as Hr.
  destruct (call c st) as [r st1]. destruct (IH st1) as [Hnd Hids].
  pose proof (run_counter cs st1) as Hc'.
  destruct (run cs st1) as [rs st2]. simpl in *.
  destruct r as [i|]; simpl.
  - destruct (Hr i eq_refl) as [-> Hlt]. split.
    + apply NoDup_cons. split; [|done]. intros (n & Hn & Hle)%Hids.
      apply (inj pretty) in Hn. lia.
    + intros j [->|Hj]%elem_of_cons.
      * exists (counter st). split; [done|lia].
      * destruct (Hids j Hj) as (n & -> & ?). exists n. split; [done|lia].
  - split; [done|]. intros j Hj.
    destruct (Hids j Hj) as (n & -> & ?). exists n. split; [done|lia].
Qed.

(** A sequence of [show] calls appends one toast per call, in the order
    of the calls. *)
Lemma run_shows (shows : list (SileoState * Options)) st :
  id <$> toasts (run (uncurry CShow <$> shows) st).2
  = (id <$> toasts st) ++ (run (uncurry CShow <$> shows) st).1 ∧
  length (run (uncurry CShow <$> shows) st).1 = length shows.
Proof.
  revert st. induction shows as [|[s o] shows IH]; intros st.
  - simpl. by rewrite app_nil_r.
  - rewrite fmap_cons, run_cons. cbn [fst snd].
    destruct (IH (call (uncurry CShow (s, o)) st).2) as [IH1 IH2].
    rewrite IH1. split.
    + cbn [uncurry call showWith generateId fst snd from_option
        setToasts toasts counter].
      by rewrite fmap_app, <- app_assoc.
    + rewrite length_app, IH2. done.
Qed.

Lemma store_init_Inv : Inv init.
Proof. split; simpl; [by intros x ?%elem_of_nil|constructor]. Qed.

(** Once every toast called [i] is exiting, no call changes a toast
    called [i]: the toasts called [i] after the call were there before,
    as they are. *)
Lemma call_frozen c st i y :
  used st i → dismissed i st →
  y ∈ toasts (call c st).2 → id y = i → y ∈ toasts st.
Proof.
  intros (n & Hn & Hlt) Hdis Hy Hid.
  destruct c as [s o|o|j s o|j| | |j]; simpl in Hy.
  - apply elem_of_app in Hy as [Hy|Hy]; [done|].
    apply list_elem_of_singleton in Hy. subst y. simpl in Hid.
    rewrite Hn in Hid. apply (inj pretty) in Hid. lia.
  - apply elem_of_app in Hy as [Hy|Hy]; [done|].
    apply list_elem_of_singleton in Hy. subst y. simpl in Hid.
    rewrite Hn in Hid. apply (inj pretty) in Hid. lia.
  - unfold settle in Hy. destruct (existsb (live j) (toasts st)); [|done].
    simpl in Hy. apply elem_of_update in Hy as (x & Hx & [->|[Hlive ->]]); [done|].
    simpl in Hid. unfold live in Hlive.
    apply andb_true_iff in Hlive as [Hj%bool_decide_eq_true Hex].
    rewrite (Hdis x Hx) in Hex; [done|congruence].
  - apply elem_of_update in Hy as (x & Hx & [->|[Hlive ->]]); [done|].
    simpl in Hid. unfold live in Hlive.
    apply andb_true_iff in Hlive as [Hj%bool_decide_eq_true Hex].
    rewrite (Hdis x Hx) in Hex; [done|congruence].
  - apply list_elem_of_fmap in Hy as (x & -> & Hx).
    destruct (exiting x) eqn:Hex; [done|].
    simpl in Hid. rewrite (Hdis x Hx Hid) in Hex. done.
  - by apply elem_of_nil in Hy.
  - by apply list_elem_of_filter in Hy as [_ Hy].
Qed.

Lemma call_dismissed c st i :
  used st i → dismissed i st → dismissed i (call c st).2.
Proof.
  intros Hu Hdis y Hy Hid. apply (Hdis y); [|done]. by eapply call_frozen.
Qed.

Lemma run_frozen cs st i y :
  used st i → dismissed i st →
  y ∈ toasts (run cs st).2 → id y = i → y ∈ toasts st.
Proof.
  revert st. induction cs as [|c cs IH]; intros st Hu Hdis; [done|].
  simpl. pose proof (call_counter c st) as Hc.
  pose proof (call_dismissed c st i Hu Hdis) as Hd1.
  pose proof (call_frozen c st i) as Hf1.
  destruct (call c st) as [r st1]. specialize (IH st1).
  destruct (run cs st1) as [rs st2]. simpl in *.
  intros Hy Hid. apply Hf1; try done. apply IH; try done.
  by apply (used_mono st).
Qed.

Lemma run_dismissed cs st i :
  used st i → dismissed i st → dismissed i (run cs st).2.
Proof.
  intros Hu Hdis y Hy Hid. apply (Hdis y); [|done]. by eapply run_frozen.
Qed.

(** After [dismiss(i)], and after [dismiss()], toast [i] is exiting. *)
Lemma dismiss_dismissed (all : bool) i st :
  dismissed i (call (if all then CDismissAll else CDismiss i) st).2.
Proof.
  intros y Hy Hid. destruct all; simpl in Hy.
  - apply list_elem_of_fmap in Hy as (x & -> & Hx).
    by destruct (exiting x) eqn:Hex.
  - apply list_elem_of_fmap in Hy as (x & -> & Hx).
    destruct (live i x) eqn:El; [done|]. unfold live in El.
    rewrite bool_decide_eq_true_2 in El by done.
    by destruct (exiting x).
Qed.

(** A settlement finds nothing to update when toast [i] is dismissed. *)
Lemma settle_dismissed i s o st : dismissed i st → settle i s o st = st.
Proof.
  intros Hdis. unfold settle.
  destruct (existsb (live i) (toasts st)) eqn:E; [|done].
  apply existsb_exists in E as (x & Hx%list_elem_of_In & Hlive).
  apply andb_true_iff in Hlive as [Hj%bool_decide_eq_true Hex].
  rewrite (Hdis x Hx Hj) in Hex. done.
Qed.
End StoreFacts.

(** * The component: the browser around it *)

Section EnvFacts.
Import Sileo.
Implicit Types (e : Env).

Lemma frames_clearTimeout h e : frames (clearTimeout h e) = frames e.
Proof. done. Qed.

Lemma nextFrame_clearTimeout h e : nextFrame (clearTimeout h e) = nextFrame e.
Proof. done. Qed.

Lemma observers_clearTimeout h e : observers (clearTimeout h e) = observers e.
Proof. done. Qed.

Lemma nextObserver_clearTimeout h e : nextObserver (clearTimeout h e) = nextObserver e.
Proof. done. Qed.

Lemma outs_clearTimeout h e : outs (clearTimeout h e) = outs e.
Proof. done. Qed.

Lemma frames_clearIf h e : frames (clearIf h e) = frames e.
Proof. by destruct h. Qed.

Lemma nextFrame_clearIf h e : nextFrame (clearIf h e) = nextFrame e.
Proof. by destruct h. Qed.

Lemma observers_clearIf h e : observers (clearIf h e) = observers e.
Proof. by destruct h. Qed.

Lemma nextObserver_clearIf h e : nextObserver (clearIf h e) = nextObserver e.
Proof. by destruct h. Qed.

Lemma outs_clearIf h e : outs (clearIf h e) = outs e.
Proof. by destruct h. Qed.

Lemma win_cancelAnimationFrame i e : win (cancelAnimationFrame i e) = win e.
Proof. done. Qed.

Lemma nextFrame_cancelAnimationFrame i e : nextFrame (cancelAnimationFrame i e) = nextFrame e.
Proof. done. Qed.

Lemma observers_cancelAnimationFrame i e : observers (cancelAnimationFrame i e) = observers e.
Proof. done. Qed.

Lemma nextObserver_cancelAnimationFrame i e : nextObserver (cancelAnimationFrame i e) = nextObserver e.
Proof. done. Qed.

Lemma outs_cancelAnimationFrame i e : outs (cancelAnimationFrame i e) = outs e.
Proof. done. Qed.

Lemma win_disconnect o e : win (disconnect o e) = win e.
Proof. done. Qed.

Lemma frames_disconnect o e : frames (disconnect o e) = frames e.
Proof. done. Qed.

Lemma nextFrame_disconnect o e : nextFrame (disconnect o e) = nextFrame e.
Proof. done. Qed.

Lemma nextObserver_disconnect o e : nextObserver (disconnect o e) = nextObserver e.
Proof. done. Qed.

Lemma outs_disconnect o e : outs (disconnect o e) = outs e.
Proof. done. Qed.

Lemma win_emit x e : win (emit x e) = win e.
Proof. done. Qed.

Lemma frames_emit x e : frames (emit x e) = frames e.
Proof. done. Qed.

Lemma nextFrame_emit x e : nextFrame (emit x e) = nextFrame e.
Proof. done. Qed.

Lemma observers_emit x e : observers (emit x e) = observers e.
Proof. done. Qed.

Lemma nextObserver_emit x e : nextObserver (emit x e) = nextObserver e.
Proof. done. Qed.

Lemma frames_advance dt e : frames (advance dt e) = frames e.
Proof. done. Qed.

Lemma nextFrame_advance dt e : nextFrame (advance dt e) = nextFrame e.
Proof. done. Qed.

Lemma observers_advance dt e : observers (advance dt e) = observers e.
Proof. done. Qed.

Lemma nextObserver_advance dt e : nextObserver (advance dt e) = nextObserver e.
Proof. done. Qed.

Lemma outs_advance dt e : outs (advance dt e) = outs e.
Proof. done. Qed.

Lemma win_clearIf h e :
  win (clearIf h e)
  = match h with Some h => Win.clearTimeout h (win e) | None => win e end.
Proof. by destruct h. Qed.

Lemma frames_cancelAnimationFrame i e :
  frames (cancelAnimationFrame i e) = delete i (frames e).
Proof. done. Qed.

Lemma observers_disconnect o e :
  observers (disconnect o e) = delete o (observers e).
Proof. done. Qed.

Lemma win_clearTimeout h e :
  win (clearTimeout h e) = Win.clearTimeout h (win e).
Proof. done. Qed.

End EnvFacts.

Create Rewrite HintDb env.

#[global] Hint Rewrite
  frames_clearTimeout nextFrame_clearTimeout observers_clearTimeout
  nextObserver_clearTimeout outs_clearTimeout frames_clearIf
  nextFrame_clearIf observers_clearIf nextObserver_clearIf
  outs_clearIf win_cancelAnimationFrame nextFrame_cancelAnimationFrame
  observers_cancelAnimationFrame nextObserver_cancelAnimationFrame outs_cancelAnimationFrame
  win_disconnect frames_disconnect nextFrame_disconnect
  nextObserver_disconnect outs_disconnect win_emit
  frames_emit nextFrame_emit observers_emit
  nextObserver_emit frames_advance nextFrame_advance
  observers_advance nextObserver_advance outs_advance
  win_clearIf frames_cancelAnimationFrame observers_disconnect
  win_clearTimeout : env.

(** * The component: what each operation leaves alone *)

Section SileoFrame.
Import Sileo.
Implicit Types (m : t) (e : Env) (s : St).

Lemma eta m :
  m = mk (props m) (view m) (applied m) (isExpanded m) (ready m) (pillWidth m)
     (contentHeight m) (headerLayer m) (headerExitTimer m)
     (autoExpandTimer m) (autoCollapseTimer m) (swapTimer m)
     (lastRefreshKey m) (pendingView m) (headerPadding m)
     (frozenExpanded m) (pointerStartY m) (pillRo m) (pillRafId m)
     (contentRo m) (contentRafId m) (transform m) (mounted m)
     (seenPrev m) (seenHeaderKey m) (seenHasDesc m) (seenRefresh m)
     (seenAuto m).
Proof. by destruct m. Qed.

Lemma withMeasures_id m : withMeasures m m = m.
Proof. by destruct m. Qed.

(** The measurements and the observer setups write only the fields of
    [withMeasures]. *)
Lemma measurePillWidth_measures d m :
  measurePillWidth d m = withMeasures (measurePillWidth d m) m.
Proof. unfold measurePillWidth. destruct m. crush. Qed.

Lemma measureContentHeight_measures d m :
  measureContentHeight d m = withMeasures (measureContentHeight d m) m.
Proof. unfold measureContentHeight. destruct m. crush. Qed.

Lemma setupPillObserver_measures d s :
  (setupPillObserver d s).1 = withMeasures (setupPillObserver d s).1 s.1.
Proof.
  destruct s as [m e]. unfold setupPillObserver, observe.
  crush; try (by destruct m).
  all: rewrite (measurePillWidth_measures d m) at 1; by destruct m.
Qed.

Lemma setupContentObserver_measures d s :
  (setupContentObserver d s).1 = withMeasures (setupContentObserver d s).1 s.1.
Proof.
  destruct s as [m e]. unfold setupContentObserver, observe.
  crush; try (by destruct m).
  all: match goal with
       | |- context [measureContentHeight ?d' ?x] =>
           rewrite (measureContentHeight_measures d' x) at 1
       end; by destruct m.
Qed.

Lemma withMeasures_set_seenHeaderKey src k m :
  withMeasures src (set_seenHeaderKey k m) = withMeasures src m.
Proof. done. Qed.

Lemma withMeasures_set_seenHasDesc src b m :
  withMeasures src (set_seenHasDesc b m) = withMeasures src m.
Proof. done. Qed.

Lemma runHeaderKey_measures d s :
  (runHeaderKey d s).1 = withMeasures (runHeaderKey d s).1 s.1.
Proof.
  unfold runHeaderKey. case_bool_decide; [by rewrite withMeasures_id|].
  rewrite setupPillObserver_measures at 1. done.
Qed.

Lemma runHasDesc_measures d s :
  (runHasDesc d s).1 = withMeasures (runHasDesc d s).1 s.1.
Proof.
  unfold runHasDesc. case_bool_decide; [by rewrite withMeasures_id|].
  rewrite setupContentObserver_measures at 1. done.
Qed.

Lemma onResize_measures tg s :
  (onResize tg s).1 = withMeasures (onResize tg s).1 s.1.
Proof.
  destruct s as [m e]. unfold onResize, requestAnimationFrame.
  crush; by destruct m.
Qed.

Lemma onFrame_measures d f m :
  f ≠ FrReady → onFrame d f m = withMeasures (onFrame d f m) m.
Proof.
  destruct f; [done|intros _..]; simpl.
  - apply measurePillWidth_measures.
  - apply measureContentHeight_measures.
Qed.

(** What [withMeasures] leaves alone. *)
Lemma withMeasures_core src m :
  props (withMeasures src m) = props m ∧
  view (withMeasures src m) = view m ∧
  applied (withMeasures src m) = applied m ∧
  isExpanded (withMeasures src m) = isExpanded m ∧
  headerLayer (withMeasures src m) = headerLayer m ∧
  frozenExpanded (withMeasures src m) = frozenExpanded m ∧
  lastRefreshKey (withMeasures src m) = lastRefreshKey m ∧
  pendingView (withMeasures src m) = pendingView m ∧
  swapTimer (withMeasures src m) = swapTimer m ∧
  mounted (withMeasures src m) = mounted m.
Proof. by repeat split. Qed.

Lemma open_withMeasures src m : open (withMeasures src m) = open m.
Proof. done. Qed.

(** The render writes [frozenExpanded], on an open card only. *)
Lemma render_spec m :
  render m = if open m then set_frozenExpanded (rawExpanded m) m else m.
Proof. unfold render, expanded. by destruct (open m). Qed.

Lemma open_render m : open (render m) = open m.
Proof. rewrite render_spec. by destruct (open m) eqn:E. Qed.

Lemma rawExpanded_render m : rawExpanded (render m) = rawExpanded m.
Proof. rewrite render_spec. by destruct (open m). Qed.

Lemma frozen_syncHeader m : frozenExpanded (syncHeader m) = frozenExpanded m.
Proof. unfold syncHeader. crush. Qed.

Lemma frozen_assignView v m : frozenExpanded (assignView v m) = frozenExpanded m.
Proof. unfold assignView. by rewrite frozen_syncHeader. Qed.

Lemma frozen_prevWatch s : frozenExpanded (prevWatch s).1 = frozenExpanded s.1.
Proof. destruct s as [m e]. unfold prevWatch, setTimeout. crush. Qed.

Lemma frozen_refreshWatch b k v s :
  frozenExpanded (refreshWatch b k v s).1 = frozenExpanded s.1.
Proof.
  destruct s as [m e]. unfold refreshWatch, setTimeout.
  crush; by rewrite frozen_assignView.
Qed.

Lemma frozen_autoWatch s : frozenExpanded (autoWatch s).1 = frozenExpanded s.1.
Proof. destruct s as [m e]. unfold autoWatch, setTimeout. crush. Qed.

Lemma frozen_runPrev s : frozenExpanded (runPrev s).1 = frozenExpanded s.1.
Proof. unfold runPrev. case_bool_decide; [done|]. by rewrite frozen_prevWatch. Qed.

Lemma frozen_runRefresh s : frozenExpanded (runRefresh s).1 = frozenExpanded s.1.
Proof. unfold runRefresh. case_bool_decide; [done|]. by rewrite frozen_refreshWatch. Qed.

Lemma frozen_runAuto s : frozenExpanded (runAuto s).1 = frozenExpanded s.1.
Proof. unfold runAuto. case_bool_decide; [done|]. by rewrite frozen_autoWatch. Qed.

Lemma frozen_flushPre b s : frozenExpanded (flushPre b s).1 = frozenExpanded s.1.
Proof.
  unfold flushPre.
  rewrite frozen_runPrev, frozen_runRefresh, frozen_runAuto, frozen_runRefresh.
  destruct b; [apply frozen_runAuto|done].
Qed.

Lemma frozen_applyPending m : frozenExpanded (applyPending m) = frozenExpanded m.
Proof. unfold applyPending. crush. by rewrite frozen_assignView. Qed.

Lemma frozen_onTimer cb m : frozenExpanded (onTimer cb m) = frozenExpanded m.
Proof. destruct cb; simpl; [done..|]. by rewrite frozen_applyPending. Qed.

Lemma frozen_onFrame d f m : frozenExpanded (onFrame d f m) = frozenExpanded m.
Proof.
  destruct f; simpl; [done| |].
  - by rewrite measurePillWidth_measures.
  - by rewrite measureContentHeight_measures.
Qed.

Lemma frozen_handle o ev s : frozenExpanded (handle o ev s).1 = frozenExpanded s.1.
Proof.
  destruct s as [m e]. destruct ev; simpl.
  - crush.
  - unfold handleEnter. crush.
  - unfold handleLeave. crush.
  - unfold handleTransitionEnd. crush; by rewrite frozen_applyPending.
  - unfold handlePointerDown. crush.
  - unfold onMove. crush.
  - unfold onUp. crush.
  - crush; by rewrite frozen_onTimer.
  - crush; by rewrite frozen_onFrame.
  - crush; by rewrite onResize_measures.
  - done.
  - unfold onUnmounted. crush.
Qed.
End SileoFrame.

(** * The component: the content swap *)

Section Swap.
Import Sileo.
Implicit Types (m : t) (e : Env) (s : St).

Lemma swapCore_withMeasures src m : swapCore (withMeasures src m) = swapCore m.
Proof. done. Qed.

Lemma swapCore_render m : swapCore (render m) = swapCore m.
Proof. rewrite render_spec. by destruct (open m). Qed.

Lemma swapCore_prevWatch s : swapCore (prevWatch s).1 = swapCore s.1.
Proof. destruct s as [m e]. unfold prevWatch, setTimeout. crush. Qed.

Lemma swapCore_runPrev s : swapCore (runPrev s).1 = swapCore s.1.
Proof. unfold runPrev. case_bool_decide; [done|]. by rewrite swapCore_prevWatch. Qed.

Lemma swapCore_autoWatch s : swapCore (autoWatch s).1 = swapCore s.1.
Proof. destruct s as [m e]. unfold autoWatch, setTimeout. crush. Qed.

Lemma swapCore_runAuto s : swapCore (runAuto s).1 = swapCore s.1.
Proof. unfold runAuto. case_bool_decide; [done|]. by rewrite swapCore_autoWatch. Qed.

Lemma swapCore_post d s :
  swapCore (runHasDesc d (runHeaderKey d s)).1 = swapCore s.1.
Proof. by rewrite runHasDesc_measures, runHeaderKey_measures. Qed.

(** The refresh watcher returns at once when the key is the one it saw
    last. *)
Lemma refreshWatch_same_key b k v s :
  lastRefreshKey s.1 = Some k → refreshWatch b (Some k) v s = s.
Proof.
  destruct s as [m e]. simpl. intros H. unfold refreshWatch.
  by rewrite bool_decide_eq_true_2.
Qed.

Lemma swapCore_runRefresh_same s k :
  lastRefreshKey s.1 = Some k → p_refreshKey (props s.1) = Some k →
  swapCore (runRefresh s).1 = swapCore s.1.
Proof.
  intros Hl Hp. unfold runRefresh. case_bool_decide; [done|].
  unfold refreshSources. cbn [fst snd]. rewrite Hp.
  by rewrite refreshWatch_same_key.
Qed.

Lemma swapCore_eq m m' :
  swapCore m' = swapCore m →
  props m' = props m ∧ view m' = view m ∧ pendingView m' = pendingView m ∧
  lastRefreshKey m' = lastRefreshKey m ∧ mounted m' = mounted m.
Proof. unfold swapCore. intros [= -> -> -> -> ->]. done. Qed.

(** While the key stays the same the scheduler leaves the view and the
    pending swap alone. *)
Lemma swapCore_flush o s k :
  lastRefreshKey s.1 = Some k → p_refreshKey (props s.1) = Some k →
  swapCore (flush o s).1 = swapCore s.1.
Proof.
  intros Hl Hp. unfold flush, renderSt. cbn [fst snd].
  rewrite swapCore_render, swapCore_post. cbn [fst].
  rewrite swapCore_render. unfold flushPre. rewrite swapCore_runPrev.
  set (s0 := if autoFirst o then runAuto s else s).
  assert (swapCore s0.1 = swapCore s.1) as H0.
  { unfold s0. destruct (autoFirst o); [apply swapCore_runAuto|done]. }
  destruct (swapCore_eq _ _ H0) as (Hp0 & _ & _ & Hl0 & _).
  assert (swapCore (runRefresh s0).1 = swapCore s0.1) as H1.
  { apply (swapCore_runRefresh_same s0 k); congruence. }
  destruct (swapCore_eq _ _ H1) as (Hp1 & _ & _ & Hl1 & _).
  pose proof (swapCore_runAuto (runRefresh s0)) as H2.
  destruct (swapCore_eq _ _ H2) as (Hp2 & _ & _ & Hl2 & _).
  rewrite (swapCore_runRefresh_same _ k) by congruence.
  congruence.
Qed.

Lemma swapCore_onTimer cb m : cb ≠ CbSwap → swapCore (onTimer cb m) = swapCore m.
Proof. by destruct cb. Qed.

Lemma swapCore_onFrame d f m : swapCore (onFrame d f m) = swapCore m.
Proof.
  destruct f; simpl; [done| |].
  - by rewrite measurePillWidth_measures.
  - by rewrite measureContentHeight_measures.
Qed.

(** The handler of an event the swap waits through touches neither the
    view nor the pending swap. *)
Lemma swapCore_handle o ev s :
  waits s ev = true → swapCore (handle o ev s).1 = swapCore s.1.
Proof.
  destruct s as [m e]. destruct ev; simpl; try done.
  - intros _. unfold handleEnter. crush.
  - intros _. unfold handleLeave. crush.
  - intros Hw%negb_true_iff. unfold handleTransitionEnd.
    destruct (mounted m); [|done].
    destruct (String.eqb propertyName "height") eqn:E1;
      destruct (String.eqb propertyName "transform") eqn:E2; simpl in *;
      try done; by rewrite (proj1 (negb_false_iff _) Hw).
  - intros _. unfold handlePointerDown. crush.
  - intros _. unfold onMove. crush.
  - intros _. unfold onUp. crush.
  - intros Hw%negb_true_iff.
    destruct (Win.take h (win e)) as [[cb w]|]; [|done].
    cbn [fst]. apply swapCore_onTimer. by destruct cb.
  - intros _. crush; by rewrite swapCore_onFrame.
  - intros _. crush; by rewrite onResize_measures.
Qed.

(** One event the swap waits through: the view is what it was and the
    swap is still pending. *)
Lemma step_waits o ev s pv :
  swapPending pv s.1 → waits s ev = true →
  view (step o ev s).1 = view s.1 ∧ swapPending pv (step o ev s).1.
Proof.
  intros (Hpv & Hl & Hp) Hw.
  pose proof (swapCore_handle o ev s Hw) as H1.
  destruct (swapCore_eq _ _ H1) as (Hp1 & Hv1 & Hpv1 & Hl1 & _).
  unfold step, swapPending. destruct (mounted (handle o ev s).1).
  - pose proof (swapCore_flush o (handle o ev s) (pv_key pv)) as H2.
    destruct (swapCore_eq _ _ (H2 ltac:(congruence) ltac:(congruence)))
      as (Hp2 & Hv2 & Hpv2 & Hl2 & _).
    repeat split; congruence.
  - repeat split; congruence.
Qed.

Lemma run_waiting evs s pv :
  swapPending pv s.1 → waiting evs s →
  view (run evs s).1 = view s.1 ∧ swapPending pv (run evs s).1.
Proof.
  revert s. induction evs as [|[o ev] evs IH]; intros s Hpv Hw; [done|].
  destruct Hw as [Hw1 Hw2]. cbn [fst snd] in *.
  destruct (step_waits o ev s pv Hpv Hw1) as [Hv Hpv'].
  destruct (IH (step o ev s) Hpv' Hw2) as [Hv' Hpv''].
  unfold run in *. simpl. split; [congruence|done].
Qed.

(** [view.value = v] writes the view and, through the sync watcher, the
    header layer. *)
Lemma assignView_eq v m :
  assignView v m = set_headerLayer (headerLayer (assignView v m)) (set_view v m).
Proof. unfold assignView, syncHeader. destruct m. crush. Qed.

(** The refresh watcher on a new key. *)
Lemma refreshWatch_open k v m e :
  lastRefreshKey m ≠ Some k →
  let s' := refreshWatch true (Some k) v (m, e) in
  view s'.1 = view m ∧ applied s'.1 = applied m ∧
  pendingView s'.1 = Some (mkPending k v) ∧
  lastRefreshKey s'.1 = Some k ∧
  isExpanded s'.1 = false ∧ open s'.1 = false ∧
  ∃ h, swapTimer s'.1 = Some h ∧
       Win.pending (win s'.2) !! h = Some (Win.now (win e) + SWAP_COLLAPSE_MS, CbSwap).
Proof.
  intros Hk. simpl. unfold refreshWatch.
  rewrite bool_decide_eq_false_2 by done.
  unfold setTimeout, open. crush; repeat split; try (by rewrite ?andb_false_r).
  all: eexists; split; [done|]; simpl; by rewrite lookup_insert_eq.
Qed.

Lemma refreshWatch_collapsed k v m e :
  lastRefreshKey m ≠ Some k →
  let s' := refreshWatch false (Some k) v (m, e) in
  view s'.1 = v ∧ applied s'.1 = Some k ∧ pendingView s'.1 = None ∧
  lastRefreshKey s'.1 = Some k.
Proof.
  intros Hk. simpl. unfold refreshWatch.
  rewrite bool_decide_eq_false_2 by done.
  crush; rewrite assignView_eq; by proj.
Qed.

(** The two ends of the collapse apply the pending content. *)
Lemma applyPending_spec pv m :
  pendingView m = Some pv →
  view (applyPending m) = pv_payload pv ∧
  applied (applyPending m) = Some (pv_key pv) ∧
  pendingView (applyPending m) = None.
Proof.
  intros H. unfold applyPending. rewrite H, assignView_eq. by proj.
Qed.
End Swap.

(** * The component: the frame requested in [onMounted] *)

Section ReadyFrame.
Import Sileo.
Implicit Types (m : t) (e : Env) (s : St).

(** An operation that neither runs nor cancels the frame 1 and leaves
    [ready] alone. *)
Ltac rp_solve :=
  intros [Hf Hn Hp Hc Hr]; split; proj;
  cbn [Sileo.frames Sileo.nextFrame Sileo.win Sileo.observers Sileo.nextObserver Sileo.outs] in *;
  rewrite ?lookup_insert_ne, ?lookup_delete_ne by lia; try done; try lia.

Lemma rp_prevWatch s : ReadyPending s → ReadyPending (prevWatch s).
Proof. destruct s as [m e]. unfold prevWatch, setTimeout, clearIf, clearTimeout. crush; rp_solve. Qed.

Lemma rp_runPrev s : ReadyPending s → ReadyPending (runPrev s).
Proof.
  intros Hrp. unfold runPrev. case_bool_decide; [done|]. apply rp_prevWatch.
  destruct s, Hrp. by split.
Qed.

Lemma rp_assignView v m e : ReadyPending (m, e) → ReadyPending (assignView v m, e).
Proof. rewrite assignView_eq. rp_solve. Qed.

Lemma rp_view s m' :
  frames s.2 = frames s.2 → pillRafId m' = pillRafId s.1 →
  contentRafId m' = contentRafId s.1 → ready m' = ready s.1 →
  ReadyPending s → ReadyPending (m', s.2).
Proof. intros _ Hp Hc Hr [? ? ? ? ?]. split; simpl; congruence. Qed.

Lemma rp_refreshWatch b k v s :
  ReadyPending s → ReadyPending (refreshWatch b k v s).
Proof.
  destruct s as [m e]. unfold refreshWatch, setTimeout, clearTimeout.
  crush; try rewrite assignView_eq; rp_solve.
Qed.

Lemma rp_runRefresh s : ReadyPending s → ReadyPending (runRefresh s).
Proof.
  intros Hrp. unfold runRefresh. case_bool_decide; [done|]. apply rp_refreshWatch.
  destruct s, Hrp. by split.
Qed.

Lemma rp_autoWatch s : ReadyPending s → ReadyPending (autoWatch s).
Proof.
  destruct s as [m e]. unfold autoWatch, setTimeout, clearIf, clearTimeout.
  crush; rp_solve.
Qed.

Lemma rp_runAuto s : ReadyPending s → ReadyPending (runAuto s).
Proof.
  intros Hrp. unfold runAuto. case_bool_decide; [done|]. apply rp_autoWatch.
  destruct s, Hrp. by split.
Qed.

Lemma rp_flushPre b s : ReadyPending s → ReadyPending (flushPre b s).
Proof.
  intros Hrp. unfold flushPre.
  apply rp_runPrev, rp_runRefresh, rp_runAuto, rp_runRefresh.
  destruct b; [by apply rp_runAuto|done].
Qed.

Lemma rp_renderSt s : ReadyPending s → ReadyPending (renderSt s).
Proof.
  destruct s as [m e]. unfold renderSt. cbn [fst snd].
  rewrite render_spec. destruct (open m); [|done]. rp_solve.
Qed.

Lemma rp_measurePillWidth d m e :
  ReadyPending (m, e) → ReadyPending (measurePillWidth d m, e).
Proof. unfold measurePillWidth. crush; rp_solve. Qed.

Lemma rp_measureContentHeight d m e :
  ReadyPending (m, e) → ReadyPending (measureContentHeight d m, e).
Proof. unfold measureContentHeight. crush; rp_solve. Qed.

Lemma rp_setupPillObserver d s :
  ReadyPending s → ReadyPending (setupPillObserver d s).
Proof.
  destruct s as [m e].
  unfold setupPillObserver, measurePillWidth, observe, disconnect,
    cancelAnimationFrame.
  crush; rp_solve.
Qed.

Lemma rp_setupContentObserver d s :
  ReadyPending s → ReadyPending (setupContentObserver d s).
Proof.
  destruct s as [m e].
  unfold setupContentObserver, measureContentHeight, observe, disconnect,
    cancelAnimationFrame.
  crush; rp_solve.
Qed.

Lemma rp_flush o s : ReadyPending s → ReadyPending (flush o s).
Proof.
  intros Hrp. unfold flush, runHasDesc, runHeaderKey.
  apply rp_renderSt.
  case_bool_decide.
  - case_bool_decide; [by apply rp_renderSt, rp_flushPre|].
    apply rp_setupPillObserver.
    pose proof (rp_renderSt _ (rp_flushPre (autoFirst o) s Hrp)) as H1.
    destruct (renderSt (flushPre (autoFirst o) s)), H1. by split.
  - apply rp_setupContentObserver.
    match goal with |- ReadyPending (_ ?x.1, ?x.2) =>
      assert (ReadyPending x) as H1; [|destruct x, H1; by split] end.
    case_bool_decide; [by apply rp_renderSt, rp_flushPre|].
    apply rp_setupPillObserver.
    pose proof (rp_renderSt _ (rp_flushPre (autoFirst o) s Hrp)) as H1.
    destruct (renderSt (flushPre (autoFirst o) s)), H1. by split.
Qed.

Lemma rp_handle o ev s :
  isFrame ev = false → ReadyPending s → ReadyPending (handle o ev s).
Proof.
  destruct s as [m e]. destruct ev; try done; intros _; cbn [handle].
  - crush. rp_solve.
  - unfold handleEnter, emit. crush; rp_solve.
  - unfold handleLeave, emit. crush; rp_solve.
  - unfold handleTransitionEnd, applyPending, clearTimeout.
    crush; try rewrite assignView_eq; rp_solve.
  - unfold handlePointerDown. crush; rp_solve.
  - unfold onMove. crush; rp_solve.
  - unfold onUp, emit. crush; rp_solve.
  - unfold onTimer, applyPending.
    crush; try rewrite assignView_eq; rp_solve.
  - unfold onResize, requestAnimationFrame, cancelAnimationFrame.
    crush; rp_solve.
  - unfold advance. rp_solve.
  - intros [Hf Hn Hp Hc Hr]. unfold onUnmounted.
    split; proj; autorewrite with env; try done;
      crush; autorewrite with env;
      rewrite ?lookup_delete_ne by done; done.
Qed.

Lemma rp_step o ev s :
  isFrame ev = false → ReadyPending s → ReadyPending (step o ev s).
Proof.
  intros Hev Hrp. unfold step.
  pose proof (rp_handle o ev s Hev Hrp).
  destruct (mounted (handle o ev s).1); [by apply rp_flush|done].
Qed.
End ReadyFrame.
(** * The component: what it holds in the browser *)

Section OwnedFacts.
Import Sileo.
Implicit Types (m : t) (e : Env) (s : St).

Ltac env_cbn :=
  cbn [Sileo.frames Sileo.nextFrame Sileo.win Sileo.observers
       Sileo.nextObserver Sileo.outs Win.pending Win.now Win.nextHandle
       Win.clearTimeout Win.setTimeout Win.advance
       Sileo.timerVar Sileo.observerVar Sileo.frameVar] in *.

Ltac own_lookup H :=
  repeat first
    [ apply lookup_insert_Some in H as [[<- H]|[? H]]
    | apply lookup_delete_Some in H as [? H] ].

Ltac own_finish Ht Ho Hf :=
  match goal with
  | H : _ !! _ = Some (_, ?cb) |- timerVar ?cb _ = _ =>
      apply Ht in H; destruct cb; env_cbn; proj; congruence
  | H : (_, _) = (_, ?cb) |- timerVar ?cb _ = _ =>
      injection H as <- <-; env_cbn; proj; congruence
  | H : _ !! _ = Some ?tg |- observerVar ?tg _ = _ =>
      apply Ho in H; destruct tg; env_cbn; proj; congruence
  | H : _ = ?tg |- observerVar ?tg _ = _ =>
      subst; env_cbn; proj; congruence
  | H : _ !! _ = Some ?f |- ?f = FrReady ∨ _ =>
      apply Hf in H as [->|[? H]]; [by left|right; eexists];
      destruct f; env_cbn; proj; first [eassumption | congruence]
  | H : _ = ?f |- ?f = FrReady ∨ _ =>
      subst; env_cbn; proj; first [by left | right; eexists; congruence]
  end.

Ltac own_solve :=
  let Ht := fresh "Ht" in
  let Ho := fresh "Ho" in
  let Hf := fresh "Hf" in
  let Hp := fresh "Hp" in
  intros [Ht Ho Hf]; split; proj; env_cbn;
  [ intros ? ? ? Hp | intros ? ? Hp | intros ? ? Hp ];
  own_lookup Hp; try own_finish Ht Ho Hf.

Lemma own_prevWatch s : Owned s → Owned (prevWatch s).
Proof.
  destruct s as [m e].
  unfold prevWatch, setTimeout, clearIf, clearTimeout, Win.setTimeout.
  crush; own_solve.
Qed.

(** [Owned] looks only at the variables that hold handles. *)
Lemma own_view s m' :
  (∀ cb, timerVar cb m' = timerVar cb s.1) →
  (∀ tg, observerVar tg m' = observerVar tg s.1) →
  (∀ f, frameVar f m' = frameVar f s.1) →
  Owned s → Owned (m', s.2).
Proof.
  intros H1 H2 H3 [Ht Ho Hf]. split; cbn [fst snd].
  - intros h due cb Hp. rewrite H1. eauto.
  - intros o tg Hp. rewrite H2. eauto.
  - intros i f Hp. rewrite H3. eauto.
Qed.

Lemma own_runPrev s : Owned s → Owned (runPrev s).
Proof.
  intros Hown. unfold runPrev. case_bool_decide; [done|]. apply own_prevWatch.
  by apply (own_view s).
Qed.

Lemma own_assignView v m e : Owned (m, e) → Owned (assignView v m, e).
Proof.
  intros Hown. apply (own_view (m, e)); [| | |done];
    intros x; rewrite assignView_eq; by destruct x.
Qed.

Lemma own_refreshWatch b k v s : Owned s → Owned (refreshWatch b k v s).
Proof.
  destruct s as [m e].
  unfold refreshWatch, setTimeout, clearTimeout, Win.setTimeout.
  crush; try rewrite assignView_eq; own_solve.
Qed.

Lemma own_runRefresh s : Owned s → Owned (runRefresh s).
Proof.
  intros Hown. unfold runRefresh. case_bool_decide; [done|]. apply own_refreshWatch.
  by apply (own_view s).
Qed.

Lemma own_autoWatch s : Owned s → Owned (autoWatch s).
Proof.
  destruct s as [m e].
  unfold autoWatch, setTimeout, clearIf, clearTimeout, Win.setTimeout.
  crush; own_solve.
Qed.

Lemma own_runAuto s : Owned s → Owned (runAuto s).
Proof.
  intros Hown. unfold runAuto. case_bool_decide; [done|]. apply own_autoWatch.
  by apply (own_view s).
Qed.

Lemma own_flushPre b s : Owned s → Owned (flushPre b s).
Proof.
  intros Hown. unfold flushPre.
  apply own_runPrev, own_runRefresh, own_runAuto, own_runRefresh.
  destruct b; [by apply own_runAuto|done].
Qed.

Lemma own_renderSt s : Owned s → Owned (renderSt s).
Proof.
  intros Hown. unfold renderSt. apply (own_view s); [| | |done];
    intros x; rewrite render_spec; destruct (open s.1); by destruct x.
Qed.

Lemma own_setupPillObserver d s : Owned s → Owned (setupPillObserver d s).
Proof.
  destruct s as [m e].
  unfold setupPillObserver, measurePillWidth, observe, disconnect,
    cancelAnimationFrame.
  crush; own_solve.
Qed.

Lemma own_setupContentObserver d s : Owned s → Owned (setupContentObserver d s).
Proof.
  destruct s as [m e].
  unfold setupContentObserver, measureContentHeight, observe, disconnect,
    cancelAnimationFrame.
  crush; own_solve.
Qed.

Lemma own_runHeaderKey d s : Owned s → Owned (runHeaderKey d s).
Proof.
  intros Hown. unfold runHeaderKey. case_bool_decide; [done|].
  apply own_setupPillObserver. by apply (own_view s).
Qed.

Lemma own_runHasDesc d s : Owned s → Owned (runHasDesc d s).
Proof.
  intros Hown. unfold runHasDesc. case_bool_decide; [done|].
  apply own_setupContentObserver. by apply (own_view s).
Qed.

Lemma own_flush o s : Owned s → Owned (flush o s).
Proof.
  intros Hown. unfold flush.
  by apply own_renderSt, own_runHasDesc, own_runHeaderKey, own_renderSt,
    own_flushPre.
Qed.

Lemma clearIf_pending a e h :
  Win.pending (win (clearIf a e)) !! h
  = if decide (a = Some h) then None else Win.pending (win e) !! h.
Proof.
  destruct a as [h'|]; cbn [clearIf clearTimeout win Win.clearTimeout Win.pending].
  - case_decide as Heq.
    + injection Heq as ->. apply lookup_delete_eq.
    + apply lookup_delete_ne. congruence.
  - by rewrite decide_False.
Qed.

Lemma release_win ro raf e : win (release ro raf e) = win e.
Proof. by destruct ro. Qed.

Lemma release_observers ro raf e ob :
  observers (release ro raf e) !! ob
  = if decide (ro = Some ob) then None else observers e !! ob.
Proof.
  destruct ro as [o|]; cbn [release disconnect cancelAnimationFrame observers].
  - case_decide as Heq.
    + injection Heq as ->. apply lookup_delete_eq.
    + apply lookup_delete_ne. congruence.
  - by rewrite decide_False.
Qed.

Lemma release_frames ro raf e i :
  frames (release ro raf e) !! i
  = if decide (is_Some ro ∧ raf = i) then None else frames e !! i.
Proof.
  destruct ro as [o|]; cbn [release disconnect cancelAnimationFrame frames].
  - case_decide as Heq.
    + destruct Heq as [_ ->]. apply lookup_delete_eq.
    + apply lookup_delete_ne. intros ->. apply Heq. eauto.
  - rewrite decide_False; [done|]. by intros [[? [=]] _].
Qed.

Lemma onUnmounted_eq m e :
  onUnmounted (m, e)
  = (set_mounted false m,
     clearIf (swapTimer m) (clearIf (autoCollapseTimer m)
       (clearIf (autoExpandTimer m) (clearIf (headerExitTimer m)
         (release (contentRo m) (contentRafId m)
            (release (pillRo m) (pillRafId m) e)))))).
Proof. unfold onUnmounted, release. by destruct (pillRo m), (contentRo m). Qed.

(** What [onUnmounted] leaves in the browser: no timer, no observer,
    and of the frames only those of [onMounted]. *)
Lemma onUnmounted_released s :
  Owned s →
  Win.pending (win (onUnmounted s).2) = ∅ ∧
  observers (onUnmounted s).2 = ∅ ∧
  ∀ i f, frames (onUnmounted s).2 !! i = Some f →
         f = FrReady ∧ frames s.2 !! i = Some FrReady.
Proof.
  destruct s as [m e]. intros [Ht Ho Hf]. rewrite onUnmounted_eq.
  cbn [fst snd] in *. split; [|split].
  - apply map_empty. intros h. rewrite !clearIf_pending, !release_win.
    repeat case_decide; try done.
    destruct (Win.pending (win e) !! h) as [[due cb]|] eqn:E; [|done].
    apply Ht in E. destruct cb; cbn [timerVar] in E; congruence.
  - apply map_empty. intros ob. autorewrite with env.
    rewrite !release_observers. repeat case_decide; try done.
    destruct (observers e !! ob) as [tg|] eqn:E; [|done].
    apply Ho in E. destruct tg; cbn [observerVar] in E; congruence.
  - intros i f. autorewrite with env. rewrite !release_frames.
    repeat case_decide; try done. intros Hp.
    destruct (Hf i f Hp) as [->|[o Hv]]; [done|].
    destruct f; cbn [frameVar] in Hv; [done| |].
    + injection Hv as Hi Hro. rewrite Hro in *. naive_solver.
    + injection Hv as Hi Hro. rewrite Hro in *. naive_solver.
Qed.

Lemma own_onUnmounted s : Owned s → Owned (onUnmounted s).
Proof.
  intros Hown. destruct (onUnmounted_released s Hown) as (Hp & Hobs & Hfr).
  split.
  - intros h due cb. rewrite Hp. by rewrite lookup_empty.
  - intros o tg. rewrite Hobs. by rewrite lookup_empty.
  - intros i f Hi. left. by apply (Hfr i f).
Qed.

Lemma own_handleEnter s : Owned s → Owned (handleEnter s).
Proof. destruct s as [m e]. unfold handleEnter, emit. crush; own_solve. Qed.

Lemma own_handleLeave s : Owned s → Owned (handleLeave s).
Proof. destruct s as [m e]. unfold handleLeave, emit. crush; own_solve. Qed.

Lemma own_applyPending m e : Owned (m, e) → Owned (applyPending m, e).
Proof.
  intros Hown. apply (own_view (m, e)); [| | |done];
    intros x; unfold applyPending; destruct (pendingView m);
    try rewrite assignView_eq; by destruct x.
Qed.

Lemma own_handleTransitionEnd pn s : Owned s → Owned (handleTransitionEnd pn s).
Proof.
  destruct s as [m e]. unfold handleTransitionEnd.
  destruct (_ && _); [done|]. destruct (open m); [done|].
  destruct (pendingView m) eqn:Epv; [|done].
  intros Hown. destruct (swapTimer m) as [h|] eqn:Es.
  - apply own_applyPending. revert Hown. unfold clearTimeout. own_solve.
  - by apply own_applyPending.
Qed.
Lemma own_onTimer h cb m e due :
  Win.pending (win e) !! h = Some (due, cb) →
  Owned (m, e) →
  Owned (onTimer cb m,
         mkEnv (Win.clearTimeout h (win e)) (frames e) (nextFrame e)
               (observers e) (nextObserver e) (outs e)).
Proof.
  intros Hh Hown.
  assert (timerVar cb m = Some h) as Hvar by (by apply (own_timers _ Hown h due)).
  assert (Owned (m, mkEnv (Win.clearTimeout h (win e)) (frames e) (nextFrame e)
                          (observers e) (nextObserver e) (outs e))) as H1.
  { revert Hown. own_solve. }
  destruct cb; cbn [onTimer timerVar] in *.
  - revert H1. intros [Ht Ho Hf]. split; proj; env_cbn.
    + intros h' due' cb' Hp. pose proof Hp as Hp'. own_lookup Hp'.
      apply Ht in Hp. destruct cb'; env_cbn; proj; congruence.
    + intros ob tg Hp. apply Ho in Hp. by destruct tg.
    + intros i f Hp. apply Hf in Hp as [->|[ob Hp]]; [by left|right].
      exists ob. by destruct f.
  - apply (own_view (m, _)); [by intros []..|exact H1].
  - apply (own_view (m, _)); [by intros []..|exact H1].
  - apply own_applyPending.
    revert H1. intros [Ht Ho Hf]. split; proj; env_cbn.
    + intros h' due' cb' Hp. pose proof Hp as Hp'. own_lookup Hp'.
      apply Ht in Hp. destruct cb'; env_cbn; proj; congruence.
    + intros ob tg Hp. apply Ho in Hp. by destruct tg.
    + intros i f Hp. apply Hf in Hp as [->|[ob Hp]]; [by left|right].
      exists ob. by destruct f.
Qed.

Lemma own_onResize tg s ob :
  observers s.2 !! ob = Some tg → Owned s → Owned (onResize tg s).
Proof.
  destruct s as [m e]. intros E [Ht Ho Hf]. pose proof (Ho _ _ E) as Hob.
  unfold onResize, requestAnimationFrame, cancelAnimationFrame.
  destruct tg; cbn [observerVar fst snd] in *; split; proj; env_cbn.
  - intros h due cb Hp. apply Ht in Hp. by destruct cb.
  - intros ob' tg Hp. apply Ho in Hp. by destruct tg.
  - intros i f [[<- <-]|[Hne [Hne' Hp]%lookup_delete_Some]]%lookup_insert_Some.
    + right. exists ob. cbn [frameVar]. proj. by rewrite Hob.
    + apply Hf in Hp as [->|[ob' Hp]]; [by left|right]. exists ob'.
      destruct f; cbn [frameVar] in *; proj; congruence.
  - intros h due cb Hp. apply Ht in Hp. by destruct cb.
  - intros ob' tg Hp. apply Ho in Hp. by destruct tg.
  - intros i f [[<- <-]|[Hne [Hne' Hp]%lookup_delete_Some]]%lookup_insert_Some.
    + right. exists ob. cbn [frameVar]. proj. by rewrite Hob.
    + apply Hf in Hp as [->|[ob' Hp]]; [by left|right]. exists ob'.
      destruct f; cbn [frameVar] in *; proj; congruence.
Qed.

Lemma own_handle o ev s : Owned s → Owned (handle o ev s).
Proof.
  destruct s as [m e]. destruct ev; cbn [handle].
  - crush; intros Hown; try done.
    apply (own_view (m, e)); [by intros []..|done].
  - destruct (mounted m); [apply own_handleEnter|done].
  - destruct (mounted m); [apply own_handleLeave|done].
  - destruct (mounted m); [apply own_handleTransitionEnd|done].
  - unfold handlePointerDown. crush; own_solve.
  - unfold onMove. crush; own_solve.
  - unfold onUp, emit. crush; own_solve.
  - destruct (Win.take h (win e)) as [[cb w]|] eqn:E; [|done].
    apply take_Some in E as (due & Hh & _ & ->).
    by apply (own_onTimer h cb m e due).
  - destruct (frames e !! i) as [f|] eqn:E; [|done].
    intros Hown.
    assert (Owned (m, cancelAnimationFrame i e)) as H1.
    { revert Hown. unfold cancelAnimationFrame. own_solve. }
    apply (own_view (m, cancelAnimationFrame i e)); [| | |done];
      intros x; destruct f; cbn [onFrame fst];
      unfold measurePillWidth, measureContentHeight; crush; by destruct x.
  - destruct (observers e !! o0) as [tg|] eqn:E; [|done].
    intros Hown. by apply (own_onResize tg (m, e) o0).
  - unfold advance. own_solve.
  - destruct (mounted m); [apply own_onUnmounted|done].
Qed.

Lemma own_step o ev s : Owned s → Owned (step o ev s).
Proof.
  intros Hown. unfold step.
  destruct (mounted (handle o ev s).1); [apply own_flush|]; by apply own_handle.
Qed.

Lemma own_run evs s : Owned s → Owned (run evs s).
Proof.
  revert s. induction evs as [|[o ev] evs IH]; intros s H; [done|].
  cbn [run foldl]. apply IH. by apply own_step.
Qed.

Lemma own_onMounted d s : Owned s → Owned (onMounted d s).
Proof.
  destruct s as [m e]. intros Hown. unfold onMounted, requestAnimationFrame.
  apply own_setupContentObserver, own_setupPillObserver.
  revert Hown. own_solve.
Qed.

Lemma own_create o p : Owned (create o p envInit).
Proof.
  unfold create, setup.
  apply own_flush, own_onMounted, own_renderSt, own_autoWatch.
  split; cbn [fst snd envInit win frames observers Win.init Win.pending];
    intros *; by rewrite lookup_empty.
Qed.
End OwnedFacts.
(** * The component: invariants of what is drawn *)

Section Drawn.
Import Sileo.
Implicit Types (m : t) (e : Env) (s : St).

(** A property of the view, the header layer and the measurements that
    the operations writing them keep. *)
Variable P : t → Prop.
Hypothesis P_ext : ∀ m m',
  view m' = view m → headerLayer m' = headerLayer m →
  frozenExpanded m' = frozenExpanded m → pillWidth m' = pillWidth m →
  headerPadding m' = headerPadding m → contentHeight m' = contentHeight m →
  P m → P m'.
Hypothesis P_assignView : ∀ v m, P m → P (assignView v m).
Hypothesis P_headerExit : ∀ m,
  P m → P (set_headerLayer (mkHeaderLayer (hl_current (headerLayer m)) None) m).
Hypothesis P_render : ∀ m, P m → P (render m).
Hypothesis P_measurePillWidth : ∀ d m, P m → P (measurePillWidth d m).
Hypothesis P_contentHeight : ∀ x m, P m → P (set_contentHeight x m).

Lemma drawn_set_props x m : P m → P (set_props x m).
Proof. by apply P_ext. Qed.

Lemma drawn_set_applied x m : P m → P (set_applied x m).
Proof. by apply P_ext. Qed.

Lemma drawn_set_isExpanded x m : P m → P (set_isExpanded x m).
Proof. by apply P_ext. Qed.

Lemma drawn_set_ready x m : P m → P (set_ready x m).
Proof. by apply P_ext. Qed.

Lemma drawn_set_headerExitTimer x m : P m → P (set_headerExitTimer x m).
Proof. by apply P_ext. Qed.

Lemma drawn_set_autoExpandTimer x m : P m → P (set_autoExpandTimer x m).
Proof. by apply P_ext. Qed.

Lemma drawn_set_autoCollapseTimer x m : P m → P (set_autoCollapseTimer x m).
Proof. by apply P_ext. Qed.

Lemma drawn_set_swapTimer x m : P m → P (set_swapTimer x m).
Proof. by apply P_ext. Qed.

Lemma drawn_set_lastRefreshKey x m : P m → P (set_lastRefreshKey x m).
Proof. by apply P_ext. Qed.

Lemma drawn_set_pendingView x m : P m → P (set_pendingView x m).
Proof. by apply P_ext. Qed.

Lemma drawn_set_pointerStartY x m : P m → P (set_pointerStartY x m).
Proof. by apply P_ext. Qed.

Lemma drawn_set_pillRo x m : P m → P (set_pillRo x m).
Proof. by apply P_ext. Qed.

Lemma drawn_set_pillRafId x m : P m → P (set_pillRafId x m).
Proof. by apply P_ext. Qed.

Lemma drawn_set_contentRo x m : P m → P (set_contentRo x m).
Proof. by apply P_ext. Qed.

Lemma drawn_set_contentRafId x m : P m → P (set_contentRafId x m).
Proof. by apply P_ext. Qed.

Lemma drawn_set_transform x m : P m → P (set_transform x m).
Proof. by apply P_ext. Qed.

Lemma drawn_set_mounted x m : P m → P (set_mounted x m).
Proof. by apply P_ext. Qed.

Lemma drawn_set_seenPrev x m : P m → P (set_seenPrev x m).
Proof. by apply P_ext. Qed.

Lemma drawn_set_seenHeaderKey x m : P m → P (set_seenHeaderKey x m).
Proof. by apply P_ext. Qed.

Lemma drawn_set_seenHasDesc x m : P m → P (set_seenHasDesc x m).
Proof. by apply P_ext. Qed.

Lemma drawn_set_seenRefresh x m : P m → P (set_seenRefresh x m).
Proof. by apply P_ext. Qed.

Lemma drawn_set_seenAuto x m : P m → P (set_seenAuto x m).
Proof. by apply P_ext. Qed.

Ltac drawn :=
  repeat first
    [ assumption
    | apply P_assignView
    | apply P_headerExit
    | apply P_render
    | apply P_measurePillWidth
    | apply P_contentHeight
    | apply drawn_set_props
    | apply drawn_set_applied
    | apply drawn_set_isExpanded
    | apply drawn_set_ready
    | apply drawn_set_headerExitTimer
    | apply drawn_set_autoExpandTimer
    | apply drawn_set_autoCollapseTimer
    | apply drawn_set_swapTimer
    | apply drawn_set_lastRefreshKey
    | apply drawn_set_pendingView
    | apply drawn_set_pointerStartY
    | apply drawn_set_pillRo
    | apply drawn_set_pillRafId
    | apply drawn_set_contentRo
    | apply drawn_set_contentRafId
    | apply drawn_set_transform
    | apply drawn_set_mounted
    | apply drawn_set_seenPrev
    | apply drawn_set_seenHeaderKey
    | apply drawn_set_seenHasDesc
    | apply drawn_set_seenRefresh
    | apply drawn_set_seenAuto ].

Lemma drawn_prevWatch s : P s.1 → P (prevWatch s).1.
Proof. destruct s as [m e]. unfold prevWatch, setTimeout, Win.setTimeout. crush; intros; drawn. Qed.

Lemma drawn_runPrev s : P s.1 → P (runPrev s).1.
Proof.
  intros H. unfold runPrev. case_bool_decide; [done|].
  apply drawn_prevWatch. cbn [fst]. drawn.
Qed.

Lemma drawn_refreshWatch b k v s : P s.1 → P (refreshWatch b k v s).1.
Proof. destruct s as [m e]. unfold refreshWatch, setTimeout, Win.setTimeout. crush; intros; drawn. Qed.

Lemma drawn_runRefresh s : P s.1 → P (runRefresh s).1.
Proof.
  intros H. unfold runRefresh. case_bool_decide; [done|].
  apply drawn_refreshWatch. cbn [fst]. drawn.
Qed.

Lemma drawn_autoWatch s : P s.1 → P (autoWatch s).1.
Proof. destruct s as [m e]. unfold autoWatch, setTimeout, Win.setTimeout. crush; intros; drawn. Qed.

Lemma drawn_runAuto s : P s.1 → P (runAuto s).1.
Proof.
  intros H. unfold runAuto. case_bool_decide; [done|].
  apply drawn_autoWatch. cbn [fst]. drawn.
Qed.

Lemma drawn_flushPre b s : P s.1 → P (flushPre b s).1.
Proof.
  intros H. unfold flushPre.
  apply drawn_runPrev, drawn_runRefresh, drawn_runAuto, drawn_runRefresh.
  destruct b; [by apply drawn_runAuto|done].
Qed.

Lemma drawn_setupPillObserver d s : P s.1 → P (setupPillObserver d s).1.
Proof.
  destruct s as [m e]. unfold setupPillObserver, observe. crush; intros; drawn.
Qed.

Lemma drawn_measureContentHeight d m : P m → P (measureContentHeight d m).
Proof. unfold measureContentHeight. crush; intros; drawn. Qed.

Lemma drawn_setupContentObserver d s : P s.1 → P (setupContentObserver d s).1.
Proof.
  destruct s as [m e]. unfold setupContentObserver, measureContentHeight, observe.
  crush; intros; drawn.
Qed.

Lemma drawn_runHeaderKey d s : P s.1 → P (runHeaderKey d s).1.
Proof.
  intros H. unfold runHeaderKey. case_bool_decide; [done|].
  apply drawn_setupPillObserver. cbn [fst]. drawn.
Qed.

Lemma drawn_runHasDesc d s : P s.1 → P (runHasDesc d s).1.
Proof.
  intros H. unfold runHasDesc. case_bool_decide; [done|].
  apply drawn_setupContentObserver. cbn [fst]. drawn.
Qed.

Lemma drawn_flush o s : P s.1 → P (flush o s).1.
Proof.
  intros H. unfold flush, renderSt. cbn [fst snd].
  apply P_render, drawn_runHasDesc, drawn_runHeaderKey. cbn [fst].
  by apply P_render, drawn_flushPre.
Qed.

Lemma drawn_applyPending m : P m → P (applyPending m).
Proof. unfold applyPending. crush; intros; drawn. Qed.

Lemma drawn_onTimer cb m : P m → P (onTimer cb m).
Proof.
  intros H. destruct cb; cbn [onTimer].
  - apply (P_headerExit (set_headerExitTimer None m)). drawn.
  - drawn.
  - drawn.
  - by apply drawn_applyPending, drawn_set_swapTimer.
Qed.

Lemma drawn_onFrame d f m : P m → P (onFrame d f m).
Proof.
  intros H. destruct f; cbn [onFrame].
  - drawn.
  - drawn.
  - by apply drawn_measureContentHeight.
Qed.

Lemma drawn_handle o ev s : P s.1 → P (handle o ev s).1.
Proof.
  destruct s as [m e]. destruct ev; cbn [handle fst].
  - crush; intros; drawn.
  - unfold handleEnter. crush; intros; drawn.
  - unfold handleLeave. crush; intros; drawn.
  - unfold handleTransitionEnd. crush; intros; try done;
      apply drawn_applyPending; drawn.
  - unfold handlePointerDown. crush; intros; drawn.
  - unfold onMove. crush; intros; drawn.
  - unfold onUp. crush; intros; drawn.
  - destruct (Win.take h (win e)) as [[cb w]|]; [|done].
    cbn [fst]. apply drawn_onTimer.
  - destruct (frames e !! i); [|done]. cbn [fst]. apply drawn_onFrame.
  - unfold onResize, requestAnimationFrame. crush; intros; drawn.
  - done.
  - destruct (mounted m); [|done]. rewrite onUnmounted_eq. cbn [fst].
    intros; drawn.
Qed.

Lemma drawn_step o ev s : P s.1 → P (step o ev s).1.
Proof.
  intros H. unfold step.
  destruct (mounted (handle o ev s).1); [apply drawn_flush|];
    by apply drawn_handle.
Qed.

Lemma drawn_run evs s : P s.1 → P (run evs s).1.
Proof.
  revert s. induction evs as [|[o ev] evs IH]; intros s H; [done|].
  cbn [run foldl]. apply IH. by apply drawn_step.
Qed.

Lemma drawn_create o p : P (initial p) → P (create o p envInit).1.
Proof.
  intros H. unfold create. apply drawn_flush.
  unfold onMounted, renderSt, setup.
  destruct (autoWatch (set_seenAuto (autoSources (initial p)) (initial p), envInit))
    as [m e] eqn:E.
  assert (P m) as Hm.
  { change m with (m, e).1. rewrite <- E. apply drawn_autoWatch. cbn [fst]. drawn. }
  cbn [fst snd]. unfold requestAnimationFrame.
  apply drawn_setupContentObserver, drawn_setupPillObserver. cbn [fst]. drawn.
Qed.
End Drawn.

Section DrawnInstances.
Import Sileo.
Implicit Types (m : t) (e : Env) (s : St).

Lemma HeaderOk_assignView v m : HeaderOk m → HeaderOk (assignView v m).
Proof.
  intros [Hc Hp]. unfold assignView, syncHeader, HeaderOk, headerKey in *.
  cbn [view set_view headerLayer].
  repeat case_bool_decide; cbn [view set_view headerLayer set_headerLayer
    hl_current hl_prev].
  - split.
    + destruct (hl_current (headerLayer m)) as [k w]. cbn [fst snd] in *. congruence.
    + intros a Ha. apply Hp in Ha. rewrite Hc in *. cbn [fst] in *. congruence.
  - split; [done|].
    intros a Ha. apply Hp in Ha. rewrite Hc in *. cbn [fst] in *. congruence.
  - split; [done|]. intros a [= <-]. done.
Qed.

Lemma HeaderOk_ext m m' :
  view m' = view m → headerLayer m' = headerLayer m → HeaderOk m → HeaderOk m'.
Proof. intros Hv Hh. unfold HeaderOk, headerKey. by rewrite Hv, Hh. Qed.

Lemma HeaderOk_render m : HeaderOk m → HeaderOk (render m).
Proof. apply HeaderOk_ext; rewrite render_spec; by destruct (open m). Qed.

Lemma HeaderOk_measurePillWidth d m : HeaderOk m → HeaderOk (measurePillWidth d m).
Proof. apply HeaderOk_ext; unfold measurePillWidth; crush. Qed.

Lemma HeaderOk_headerExit m :
  HeaderOk m →
  HeaderOk (set_headerLayer (mkHeaderLayer (hl_current (headerLayer m)) None) m).
Proof. intros [Hc Hp]. split; [done|]. by intros a. Qed.

Lemma HeaderOk_run o p evs : HeaderOk (run evs (create o p envInit)).1.
Proof.
  assert (∀ m m', view m' = view m → headerLayer m' = headerLayer m →
            frozenExpanded m' = frozenExpanded m → pillWidth m' = pillWidth m →
            headerPadding m' = headerPadding m → contentHeight m' = contentHeight m →
            HeaderOk m → HeaderOk m') as Hext.
  { intros m m' Hv Hh _ _ _ _. by apply HeaderOk_ext. }
  assert (∀ (x : Z) m, HeaderOk m → HeaderOk (set_contentHeight x m)) as Hch.
  { intros x m. by apply HeaderOk_ext. }
  apply (drawn_run HeaderOk Hext HeaderOk_assignView HeaderOk_headerExit
           HeaderOk_render HeaderOk_measurePillWidth Hch).
  apply (drawn_create HeaderOk Hext HeaderOk_assignView
           HeaderOk_render HeaderOk_measurePillWidth Hch).
  split; [done|]. by intros a.
Qed.

Lemma minExpanded_rawExpanded m : minExpanded ≤ rawExpanded m.
Proof. unfold rawExpanded. destruct (hasDesc m); lia. Qed.

Lemma Sized_run o p evs : Sized (run evs (create o p envInit)).1.
Proof.
  assert (∀ m m', view m' = view m → headerLayer m' = headerLayer m →
            frozenExpanded m' = frozenExpanded m → pillWidth m' = pillWidth m →
            headerPadding m' = headerPadding m → contentHeight m' = contentHeight m →
            Sized m → Sized m') as Hext.
  { intros m m' _ _ Hf Hw _ _. unfold Sized. by rewrite Hf, Hw. }
  assert (∀ v m, Sized m → Sized (assignView v m)) as Hav.
  { intros v m. rewrite assignView_eq. unfold Sized. by proj. }
  assert (∀ m, Sized m → Sized (set_headerLayer
            (mkHeaderLayer (hl_current (headerLayer m)) None) m)) as Hhe.
  { intros m. unfold Sized. by proj. }
  assert (∀ m, Sized m → Sized (render m)) as Hr.
  { intros m [H1 H2]. rewrite render_spec. destruct (open m); [|done].
    split; proj; [apply minExpanded_rawExpanded|done]. }
  assert (∀ d m, Sized m → Sized (measurePillWidth d m)) as Hmp.
  { intros d m [H1 H2]. unfold measurePillWidth.
    destruct (negb (mounted m)); [done|].
    destruct (headerPadding m); cbn zeta; case_bool_decide;
      split; proj; try done; right; lia. }
  assert (∀ (x : Z) m, Sized m → Sized (set_contentHeight x m)) as Hch.
  { intros x m. unfold Sized. by proj. }
  apply (drawn_run Sized Hext Hav Hhe Hr Hmp Hch).
  apply (drawn_create Sized Hext Hav Hr Hmp Hch).
  split; [done|by left].
Qed.

(** The padding of the header is read at the first measurement, which
    [onMounted] makes, and kept. *)
Lemma headerPadding_create o p :
  headerPadding (create o p envInit).1
  = Some (paddingLeft (dom o) + paddingRight (dom o)).
Proof.
  set (x := paddingLeft (dom o) + paddingRight (dom o)).
  set (P := λ m, headerPadding m = Some x).
  assert (∀ m m', view m' = view m → headerLayer m' = headerLayer m →
            frozenExpanded m' = frozenExpanded m → pillWidth m' = pillWidth m →
            headerPadding m' = headerPadding m → contentHeight m' = contentHeight m →
            P m → P m') as Hext.
  { intros m m' _ _ _ _ Hp _. unfold P. by rewrite Hp. }
  assert (∀ v m, P m → P (assignView v m)) as Hav.
  { intros v m. rewrite assignView_eq. unfold P. by proj. }
  assert (∀ m, P m → P (render m)) as Hr.
  { intros m. rewrite render_spec. by destruct (open m). }
  assert (∀ d m, P m → P (measurePillWidth d m)) as Hmp.
  { intros d m Hm. unfold P, measurePillWidth in *. rewrite Hm. crush. }
  assert (∀ (z : Z) m, P m → P (set_contentHeight z m)) as Hch.
  { intros z m. unfold P. by proj. }
  unfold create. apply (drawn_flush P Hext Hav Hr Hmp Hch).
  unfold onMounted, renderSt, setup.
  destruct (autoWatch (set_seenAuto (autoSources (initial p)) (initial p), envInit))
    as [m e] eqn:E.
  assert (headerPadding m = None) as Hm.
  { change m with (m, e).1. rewrite <- E. revert E. unfold autoWatch, setTimeout,
      Win.setTimeout. crush. }
  cbn [fst snd]. unfold requestAnimationFrame.
  apply (drawn_setupContentObserver P Hext Hch).
  unfold P, setupPillObserver, measurePillWidth, observe.
  rewrite render_spec. crush.
Qed.
End DrawnInstances.
(** * The component: the key of the refresh watcher *)

Section RefreshKey.
Import Sileo.
Implicit Types (m : t) (e : Env) (s : St).

Lemma refreshCore_withMeasures src m : refreshCore (withMeasures src m) = refreshCore m.
Proof. done. Qed.

Lemma refreshCore_render m : refreshCore (render m) = refreshCore m.
Proof. rewrite render_spec. by destruct (open m). Qed.

Lemma refreshCore_prevWatch s : refreshCore (prevWatch s).1 = refreshCore s.1.
Proof. destruct s as [m e]. unfold prevWatch, setTimeout, Win.setTimeout. crush. Qed.

Lemma refreshCore_runPrev s : refreshCore (runPrev s).1 = refreshCore s.1.
Proof. unfold runPrev. case_bool_decide; [done|]. by rewrite refreshCore_prevWatch. Qed.

Lemma refreshCore_autoWatch s : refreshCore (autoWatch s).1 = refreshCore s.1.
Proof. destruct s as [m e]. unfold autoWatch, setTimeout, Win.setTimeout. crush. Qed.

Lemma refreshCore_runAuto s : refreshCore (runAuto s).1 = refreshCore s.1.
Proof. unfold runAuto. case_bool_decide; [done|]. by rewrite refreshCore_autoWatch. Qed.

Lemma refreshCore_post d s :
  refreshCore (runHasDesc d (runHeaderKey d s)).1 = refreshCore s.1.
Proof. by rewrite runHasDesc_measures, runHeaderKey_measures. Qed.

Lemma refreshCore_applyPending m : refreshCore (applyPending m) = refreshCore m.
Proof. unfold applyPending. destruct (pendingView m); [|done]. by rewrite assignView_eq. Qed.

Lemma refreshCore_onTimer cb m : refreshCore (onTimer cb m) = refreshCore m.
Proof. destruct cb; try done. cbn [onTimer]. by rewrite refreshCore_applyPending. Qed.

Lemma refreshCore_onFrame d f m : refreshCore (onFrame d f m) = refreshCore m.
Proof.
  destruct f; simpl; [done| |].
  - by rewrite measurePillWidth_measures.
  - by rewrite measureContentHeight_measures.
Qed.

Lemma refreshCore_handle o ev s : refreshCore (handle o ev s).1 = refreshCore s.1.
Proof.
  destruct s as [m e]. destruct ev; cbn [handle].
  - crush.
  - unfold handleEnter. crush.
  - unfold handleLeave. crush.
  - unfold handleTransitionEnd. crush; by rewrite refreshCore_applyPending.
  - unfold handlePointerDown. crush.
  - unfold onMove. crush.
  - unfold onUp. crush.
  - crush; by rewrite refreshCore_onTimer.
  - crush; by rewrite refreshCore_onFrame.
  - crush; by rewrite onResize_measures.
  - done.
  - destruct (mounted m); [|done]. by rewrite onUnmounted_eq.
Qed.

(** A handler changes the props only by taking new ones, on a mounted
    component, which stays mounted. *)
Lemma props_handle o ev s :
  props (handle o ev s).1 = props s.1 ∨ mounted (handle o ev s).1 = true.
Proof.
  destruct s as [m e]. destruct ev; cbn [handle].
  - destruct (mounted m) eqn:E; [by right|by left].
  - left. unfold handleEnter. crush.
  - left. unfold handleLeave. crush.
  - left. unfold handleTransitionEnd, applyPending.
    crush; try rewrite assignView_eq; done.
  - left. unfold handlePointerDown. crush.
  - left. unfold onMove. crush.
  - left. unfold onUp. crush.
  - left. destruct (Win.take h (win e)) as [[cb w]|]; [|done].
    cbn [fst]. destruct cb; cbn [onTimer]; try done.
    unfold applyPending. crush; try rewrite assignView_eq; done.
  - left. destruct (frames e !! i) as [f|]; [|done]. cbn [fst].
    destruct f; cbn [onFrame]; [done| |].
    + by rewrite measurePillWidth_measures.
    + by rewrite measureContentHeight_measures.
  - left. crush; by rewrite onResize_measures.
  - by left.
  - left. destruct (mounted m); [|done]. by rewrite onUnmounted_eq.
Qed.

Lemma KeySeen_core m m' : refreshCore m' = refreshCore m → KeySeen m → KeySeen m'.
Proof. unfold refreshCore, KeySeen. by intros [= -> ->]. Qed.

Lemma refreshWatch_key b k v s :
  lastRefreshKey (refreshWatch b k v s).1 = k ∨
  (lastRefreshKey s.1 = k ∧ refreshWatch b k v s = s).
Proof.
  destruct s as [m e]. unfold refreshWatch, setTimeout, Win.setTimeout.
  destruct k as [k|]; [|by left].
  case_bool_decide; [by right|left]. crush; try rewrite assignView_eq; done.
Qed.

Lemma refreshWatch_seen b k v s :
  seenRefresh (refreshWatch b k v s).1 = seenRefresh s.1 ∧
  props (refreshWatch b k v s).1 = props s.1.
Proof.
  destruct s as [m e]. unfold refreshWatch, setTimeout, Win.setTimeout.
  crush; try rewrite assignView_eq; done.
Qed.

(** After the refresh watcher job the key handled last is the key of
    the props. *)
Lemma runRefresh_key s :
  KeySeen s.1 → KeySeen (runRefresh s).1 ∧ KeyOk (runRefresh s).1.
Proof.
  intros Hks. unfold runRefresh, KeySeen, KeyOk in *.
  case_bool_decide as Hsrc.
  - split; [done|]. rewrite Hks, <- Hsrc. done.
  - set (s1 := (set_seenRefresh (refreshSources s.1) s.1, s.2)).
    destruct (refreshWatch_seen (refreshSources s.1).1.1 (refreshSources s.1).1.2
                (refreshSources s.1).2 s1) as [Hseen Hprops].
    rewrite Hseen, Hprops.
    destruct (refreshWatch_key (refreshSources s.1).1.1 (refreshSources s.1).1.2
                (refreshSources s.1).2 s1) as [Hk|[Hk ->]]; by rewrite Hk.
Qed.

Lemma props_core s s' :
  swapCore s'.1 = swapCore s.1 → refreshCore s'.1 = refreshCore s.1 →
  KeySeen s.1 ∧ KeyOk s.1 → KeySeen s'.1 ∧ KeyOk s'.1.
Proof.
  unfold swapCore, refreshCore, KeySeen, KeyOk.
  intros [= Hp _ _ _ _] [= Hl Hs]. by rewrite Hp, Hl, Hs.
Qed.

Lemma flush_key o s : KeySeen s.1 → KeySeen (flush o s).1 ∧ KeyOk (flush o s).1.
Proof.
  intros Hks. unfold flush, renderSt, flushPre. cbn [fst snd].
  set (s0 := if autoFirst o then runAuto s else s).
  assert (KeySeen s0.1) as H0.
  { unfold s0. destruct (autoFirst o); [|done].
    apply (KeySeen_core s.1); [apply refreshCore_runAuto|done]. }
  destruct (runRefresh_key s0 H0) as [H1 _].
  assert (KeySeen (runAuto (runRefresh s0)).1) as H2.
  { apply (KeySeen_core (runRefresh s0).1); [apply refreshCore_runAuto|done]. }
  pose proof (runRefresh_key _ H2) as H3.
  set (s3 := runRefresh (runAuto (runRefresh s0))) in *.
  assert (∀ m m', swapCore m' = swapCore m → refreshCore m' = refreshCore m →
            KeySeen m ∧ KeyOk m → KeySeen m' ∧ KeyOk m') as Hcore.
  { intros m m' Hsc Hrc. by apply (props_core (m, s.2) (m', s.2)). }
  apply (Hcore (runPrev s3).1).
  - rewrite swapCore_render, swapCore_post. cbn [fst]. by rewrite swapCore_render.
  - rewrite refreshCore_render, refreshCore_post. cbn [fst]. by rewrite refreshCore_render.
  - apply (Hcore s3.1); [apply swapCore_runPrev|apply refreshCore_runPrev|done].
Qed.

Lemma step_key o ev s :
  KeySeen s.1 ∧ KeyOk s.1 → KeySeen (step o ev s).1 ∧ KeyOk (step o ev s).1.
Proof.
  intros [Hks Hko]. unfold step.
  assert (KeySeen (handle o ev s).1) as H1.
  { apply (KeySeen_core s.1); [apply refreshCore_handle|done]. }
  destruct (mounted (handle o ev s).1) eqn:Hm; [by apply flush_key|].
  split; [done|]. destruct (props_handle o ev s) as [Hp|Hp]; [|congruence].
  unfold KeyOk in *. rewrite Hp.
  pose proof (refreshCore_handle o ev s) as [= Hl _]. by rewrite Hl.
Qed.

Lemma run_key evs s :
  KeySeen s.1 ∧ KeyOk s.1 → KeySeen (run evs s).1 ∧ KeyOk (run evs s).1.
Proof.
  revert s. induction evs as [|[o ev] evs IH]; intros s H; [done|].
  cbn [run foldl]. apply IH. by apply step_key.
Qed.

Lemma create_key o p :
  KeySeen (create o p envInit).1 ∧ KeyOk (create o p envInit).1.
Proof.
  unfold create. apply flush_key.
  unfold onMounted, renderSt, setup, requestAnimationFrame.
  destruct (autoWatch (set_seenAuto (autoSources (initial p)) (initial p), envInit))
    as [m e] eqn:E.
  assert (refreshCore m = refreshCore (initial p)) as Hm.
  { change m with (m, e).1. rewrite <- E. by rewrite refreshCore_autoWatch. }
  cbn [fst snd].
  apply (KeySeen_core (initial p)); [|done].
  rewrite setupContentObserver_measures, refreshCore_withMeasures.
  rewrite setupPillObserver_measures, refreshCore_withMeasures.
  cbn [fst]. change (refreshCore (render m) = refreshCore (initial p)).
  by rewrite refreshCore_render.
Qed.
End RefreshKey.
(** * The component: props without a refresh key *)

Section UnkeyedFacts.
Import Sileo.
Implicit Types (m : t) (e : Env) (s : St).

Lemma applied_withMeasures src m : applied (withMeasures src m) = applied m.
Proof. done. Qed.

Lemma applied_render m : applied (render m) = applied m.
Proof. rewrite render_spec. by destruct (open m). Qed.

Lemma applied_prevWatch s : applied (prevWatch s).1 = applied s.1.
Proof. destruct s as [m e]. unfold prevWatch, setTimeout, Win.setTimeout. crush. Qed.

Lemma applied_runPrev s : applied (runPrev s).1 = applied s.1.
Proof. unfold runPrev. case_bool_decide; [done|]. by rewrite applied_prevWatch. Qed.

Lemma applied_autoWatch s : applied (autoWatch s).1 = applied s.1.
Proof. destruct s as [m e]. unfold autoWatch, setTimeout, Win.setTimeout. crush. Qed.

Lemma applied_runAuto s : applied (runAuto s).1 = applied s.1.
Proof. unfold runAuto. case_bool_decide; [done|]. by rewrite applied_autoWatch. Qed.

Lemma applied_post d s : applied (runHasDesc d (runHeaderKey d s)).1 = applied s.1.
Proof. by rewrite runHasDesc_measures, runHeaderKey_measures. Qed.

Lemma applied_onFrame d f m : applied (onFrame d f m) = applied m.
Proof.
  destruct f; simpl; [done| |].
  - by rewrite measurePillWidth_measures.
  - by rewrite measureContentHeight_measures.
Qed.

(** The handler of an event the swap waits through leaves the applied
    key alone. *)
Lemma applied_handle o ev s :
  waits s ev = true → applied (handle o ev s).1 = applied s.1.
Proof.
  destruct s as [m e]. destruct ev; simpl; try done.
  - intros _. unfold handleEnter. crush.
  - intros _. unfold handleLeave. crush.
  - intros Hw%negb_true_iff. unfold handleTransitionEnd.
    destruct (mounted m); [|done].
    destruct (String.eqb propertyName "height") eqn:E1;
      destruct (String.eqb propertyName "transform") eqn:E2; simpl in *;
      try done; by rewrite (proj1 (negb_false_iff _) Hw).
  - intros _. unfold handlePointerDown. crush.
  - intros _. unfold onMove. crush.
  - intros _. unfold onUp. crush.
  - intros Hw%negb_true_iff.
    destruct (Win.take h (win e)) as [[cb w]|]; [|done].
    cbn [fst]. by destruct cb.
  - intros _. crush; by rewrite applied_onFrame.
  - intros _. crush; by rewrite onResize_measures.
Qed.

Lemma Unkeyed_core m m' :
  swapCore m' = swapCore m → refreshCore m' = refreshCore m →
  applied m' = applied m →
  Unkeyed m → Unkeyed m'.
Proof.
  unfold swapCore, refreshCore, Unkeyed.
  intros [= _ Hv Hpv _ _] [= _ Hs] Ha. by rewrite Hv, Hpv, Hs, Ha.
Qed.

Lemma Unkeyed_applyPending m : Unkeyed m → Unkeyed (applyPending m).
Proof.
  intros Hu Hk.
  pose proof (refreshCore_applyPending m) as [= _ Hs]. rewrite Hs in *.
  destruct (Hu Hk) as (Hv & Hpv & Ha). unfold applyPending. by rewrite Hpv.
Qed.

Lemma Unkeyed_seen m m' :
  view m' = view m → pendingView m' = pendingView m → applied m' = applied m →
  seenRefresh m' = seenRefresh m → Unkeyed m → Unkeyed m'.
Proof. unfold Unkeyed. by intros -> -> -> ->. Qed.

Lemma Unkeyed_handle o ev s : Unkeyed s.1 → Unkeyed (handle o ev s).1.
Proof.
  intros Hu.
  destruct (waits s ev) eqn:Hw.
  { by apply (Unkeyed_core s.1);
      [apply swapCore_handle|apply refreshCore_handle|apply applied_handle|]. }
  destruct s as [m e]. destruct ev; try done; cbn [handle fst] in *.
  - destruct (mounted m); [|done]. by apply (Unkeyed_seen m).
  - destruct (mounted m); [|done]. unfold handleTransitionEnd.
    destruct (_ && _); [done|]. destruct (open m); [done|].
    destruct (pendingView m) eqn:Epv; [|done].
    destruct (swapTimer m); cbn [fst]; apply Unkeyed_applyPending;
      [by apply (Unkeyed_seen m)|done].
  - destruct (Win.take h (win e)) as [[cb w]|]; [|done]. cbn [fst].
    destruct cb; cbn [onTimer]; try (by apply (Unkeyed_seen m)).
    apply Unkeyed_applyPending. by apply (Unkeyed_seen m).
  - destruct (mounted m); [|done]. rewrite onUnmounted_eq.
    by apply (Unkeyed_seen m).
Qed.

(** The refresh watcher job on props without a key: afterwards the
    view is the content of the props and no swap is pending. *)
Lemma runRefresh_unkeyed s :
  Unkeyed s.1 → p_refreshKey (props s.1) = None →
  view (runRefresh s).1 = next (props s.1) ∧
  pendingView (runRefresh s).1 = None ∧
  applied (runRefresh s).1 = None ∧
  props (runRefresh s).1 = props s.1 ∧
  Unkeyed (runRefresh s).1.
Proof.
  intros Hu Hk. unfold runRefresh, refreshSources.
  case_bool_decide as Hsrc.
  - assert ((seenRefresh s.1).1.2 = None ∧ (seenRefresh s.1).2 = next (props s.1))
      as [Hsk Hsn] by (rewrite <- Hsrc; by rewrite Hk).
    destruct (Hu Hsk) as (Hv & Hpv & Ha). repeat split; try done. congruence.
  - cbn [fst snd]. rewrite Hk. destruct s as [m e]. cbn [refreshWatch fst snd].
    rewrite assignView_eq. proj. by repeat split.
Qed.

Lemma Unkeyed_runRefresh s : Unkeyed s.1 → Unkeyed (runRefresh s).1.
Proof.
  intros Hu. destruct (p_refreshKey (props s.1)) as [k|] eqn:Hk.
  - unfold runRefresh. case_bool_decide; [done|].
    match goal with
    | |- Unkeyed (refreshWatch ?b ?k' ?v ?s1).1 =>
        destruct (refreshWatch_seen b k' v s1) as [Hs _]
    end.
    intros Hseen. rewrite Hs in Hseen. unfold refreshSources in Hseen.
    cbn [fst snd seenRefresh set_seenRefresh] in Hseen. congruence.
  - by apply runRefresh_unkeyed.
Qed.

Lemma Unkeyed_flush o s : Unkeyed s.1 → Unkeyed (flush o s).1.
Proof.
  intros Hu. unfold flush, renderSt, flushPre. cbn [fst snd].
  assert (∀ s1, Unkeyed s1.1 → Unkeyed (runAuto s1).1) as Hauto.
  { intros s1. apply Unkeyed_core;
      [apply swapCore_runAuto|apply refreshCore_runAuto|apply applied_runAuto]. }
  assert (Unkeyed (runPrev (runRefresh (runAuto (runRefresh
            (if autoFirst o then runAuto s else s))))).1) as H1.
  { apply (Unkeyed_core (runRefresh (runAuto (runRefresh
            (if autoFirst o then runAuto s else s)))).1);
      [apply swapCore_runPrev|apply refreshCore_runPrev|apply applied_runPrev|].
    apply Unkeyed_runRefresh, Hauto, Unkeyed_runRefresh.
    destruct (autoFirst o); [by apply Hauto|done]. }
  revert H1. apply Unkeyed_core.
  - rewrite swapCore_render, swapCore_post. cbn [fst]. by rewrite swapCore_render.
  - rewrite refreshCore_render, refreshCore_post. cbn [fst]. by rewrite refreshCore_render.
  - rewrite applied_render, applied_post. cbn [fst]. by rewrite applied_render.
Qed.

Lemma Unkeyed_step o ev s : Unkeyed s.1 → Unkeyed (step o ev s).1.
Proof.
  intros Hu. unfold step.
  destruct (mounted (handle o ev s).1); [apply Unkeyed_flush|];
    by apply Unkeyed_handle.
Qed.

Lemma Unkeyed_run evs s : Unkeyed s.1 → Unkeyed (run evs s).1.
Proof.
  revert s. induction evs as [|[o ev] evs IH]; intros s H; [done|].
  cbn [run foldl]. apply IH. by apply Unkeyed_step.
Qed.

Lemma Unkeyed_create o p : Unkeyed (create o p envInit).1.
Proof.
  unfold create. apply Unkeyed_flush.
  unfold onMounted, renderSt, setup, requestAnimationFrame.
  destruct (autoWatch (set_seenAuto (autoSources (initial p)) (initial p), envInit))
    as [m e] eqn:E.
  assert (swapCore m = swapCore (initial p) ∧ refreshCore m = refreshCore (initial p)
          ∧ applied m = applied (initial p))
    as (Hsc & Hrc & Ha).
  { change m with (m, e).1. rewrite <- E.
    by rewrite swapCore_autoWatch, refreshCore_autoWatch, applied_autoWatch. }
  cbn [fst snd].
  assert (Unkeyed (initial p)) as Hi by (by intros ?).
  assert (Unkeyed (render m)) as Hr.
  { revert Hi. apply Unkeyed_core.
    - by rewrite swapCore_render.
    - by rewrite refreshCore_render.
    - by rewrite applied_render. }
  revert Hr. apply Unkeyed_seen.
  all: rewrite setupContentObserver_measures; cbn [withMeasures]; proj;
    by rewrite setupPillObserver_measures.
Qed.
End UnkeyedFacts.
(** * The component: the scheduler leaves no job behind *)

Section Quiet.
Import Sileo.
Implicit Types (m : t) (e : Env) (s : St).

Lemma autoCore_withMeasures src m : autoCore (withMeasures src m) = autoCore m.
Proof. done. Qed.

Lemma autoCore_render m : autoCore (render m) = autoCore m.
Proof. rewrite render_spec. by destruct (open m). Qed.

Lemma autoCore_post d s : autoCore (runHasDesc d (runHeaderKey d s)).1 = autoCore s.1.
Proof. by rewrite runHasDesc_measures, runHeaderKey_measures. Qed.

Lemma autoCore_prevWatch s : autoCore (prevWatch s).1 = autoCore s.1.
Proof. destruct s as [m e]. unfold prevWatch, setTimeout, Win.setTimeout. crush. Qed.

Lemma autoCore_runPrev s : autoCore (runPrev s).1 = autoCore s.1.
Proof. unfold runPrev. case_bool_decide; [done|]. by rewrite autoCore_prevWatch. Qed.

Lemma prevCore_withMeasures src m : prevCore (withMeasures src m) = prevCore m.
Proof. done. Qed.

Lemma prevCore_render m : prevCore (render m) = prevCore m.
Proof. rewrite render_spec. by destruct (open m). Qed.

Lemma prevCore_post d s : prevCore (runHasDesc d (runHeaderKey d s)).1 = prevCore s.1.
Proof. by rewrite runHasDesc_measures, runHeaderKey_measures. Qed.

(** The sources of the two watchers, from the fields they read. *)
Lemma autoSources_core m m' :
  swapCore m' = swapCore m → applied m' = applied m →
  autoSources m' = autoSources m.
Proof.
  unfold swapCore, autoSources, hasDesc, allowExpand, isLoading.
  intros [= Hp Hv _ _ _] Ha. by rewrite Hp, Hv, Ha.
Qed.

Lemma refreshSources_core m m' :
  swapCore m' = swapCore m → isExpanded m' = isExpanded m →
  refreshSources m' = refreshSources m.
Proof.
  unfold swapCore, refreshSources, open, hasDesc, isLoading.
  intros [= Hp Hv _ _ _] He. by rewrite Hp, Hv, He.
Qed.

Lemma autoCore_eq m m' :
  autoCore m' = autoCore m →
  applied m' = applied m ∧ isExpanded m' = isExpanded m ∧ seenAuto m' = seenAuto m.
Proof. unfold autoCore. by intros [= -> -> ->]. Qed.

Lemma seenAuto_autoWatch s : seenAuto (autoWatch s).1 = seenAuto s.1.
Proof. destruct s as [m e]. unfold autoWatch, setTimeout, Win.setTimeout. crush. Qed.

(** After its job the auto watcher has seen its sources. *)
Lemma runAuto_settled s : seenAuto (runAuto s).1 = autoSources (runAuto s).1.
Proof.
  unfold runAuto. case_bool_decide as Hsrc; [done|].
  rewrite seenAuto_autoWatch. cbn [fst seenAuto set_seenAuto].
  symmetry. rewrite (autoSources_core (set_seenAuto (autoSources s.1) s.1)).
  - by apply autoSources_core.
  - apply swapCore_autoWatch.
  - apply applied_autoWatch.
Qed.

Lemma runAuto_idle s : seenAuto s.1 = autoSources s.1 → runAuto s = s.
Proof. intros H. unfold runAuto. by rewrite bool_decide_eq_true_2. Qed.

Lemma runRefresh_idle s : seenRefresh s.1 = refreshSources s.1 → runRefresh s = s.
Proof. intros H. unfold runRefresh. by rewrite bool_decide_eq_true_2. Qed.

Lemma runPrev_settled s : hl_prev (headerLayer (runPrev s).1) = seenPrev (runPrev s).1.
Proof.
  unfold runPrev. case_bool_decide as Hsrc; [done|].
  destruct s as [m e]. unfold prevWatch, setTimeout, Win.setTimeout. crush.
Qed.

Lemma SeenProps_core m m' :
  swapCore m' = swapCore m → refreshCore m' = refreshCore m →
  SeenProps m → SeenProps m'.
Proof.
  unfold swapCore, refreshCore, SeenProps.
  intros [= Hp _ _ _ _] [= _ Hs]. by rewrite Hp, Hs.
Qed.

Lemma KeyOk_core m m' : swapCore m' = swapCore m → KeyOk m → KeyOk m'.
Proof. unfold swapCore, KeyOk. intros [= Hp _ _ Hl _]. by rewrite Hp, Hl. Qed.

Lemma SeenProps_runRefresh s : SeenProps (runRefresh s).1.
Proof.
  unfold runRefresh, SeenProps. case_bool_decide as Hsrc.
  - by rewrite <- Hsrc.
  - match goal with
    | |- context [refreshWatch ?b ?k ?v ?s1] =>
        destruct (refreshWatch_seen b k v s1) as [Hs Hp]
    end.
    by rewrite Hs, Hp.
Qed.

(** The refresh watcher job on a state whose key and content it has
    handled: it changes nothing the watchers read. *)
Lemma runRefresh_quiet s :
  KeyOk s.1 → Unkeyed s.1 → SeenProps s.1 →
  swapCore (runRefresh s).1 = swapCore s.1 ∧
  autoCore (runRefresh s).1 = autoCore s.1 ∧
  seenRefresh (runRefresh s).1 = refreshSources (runRefresh s).1.
Proof.
  destruct s as [m e]. cbn [fst]. intros Hko Hu [Hsk Hsn].
  unfold runRefresh, KeyOk in *. cbn [fst snd].
  case_bool_decide as Hsrc; [by repeat split|].
  destruct (p_refreshKey (props m)) as [k|] eqn:Hk.
  - assert (refreshSources m = (open m, Some k, next (props m))) as Hrs.
    { unfold refreshSources. by rewrite Hk. }
    rewrite Hrs. cbn [fst snd].
    rewrite refreshWatch_same_key; [|exact Hko]. cbn [fst].
    repeat split. by rewrite <- Hrs.
  - destruct (Hu ltac:(congruence)) as (Hv & Hpv & Ha).
    assert (refreshSources m = (open m, None, next (props m))) as Hrs.
    { unfold refreshSources. by rewrite Hk. }
    rewrite Hrs. cbn [refreshWatch fst snd].
    assert (assignView (next (props m)) (set_seenRefresh (open m, None, next (props m)) m)
            = set_seenRefresh (open m, None, next (props m))
                (set_headerLayer
                   (headerLayer (assignView (next (props m))
                      (set_seenRefresh (open m, None, next (props m)) m))) m)) as Hav.
    { rewrite assignView_eq at 1. rewrite <- Hsn, <- Hv. by destruct m. }
    rewrite Hav. unfold swapCore, autoCore, refreshSources, open, hasDesc, isLoading.
    proj. by rewrite Hpv, Ha, Hko, Hk.
Qed.

Lemma swapCore_eq_trans m1 m2 m3 :
  swapCore m2 = swapCore m1 → swapCore m3 = swapCore m2 → swapCore m3 = swapCore m1.
Proof. congruence. Qed.

(** The jobs before the render, from the first run of the refresh
    watcher on: afterwards no job is left. *)
Lemma settle_noJob s :
  KeySeen s.1 → Unkeyed s.1 →
  noJob (runPrev (runRefresh (runAuto (runRefresh s)))).1.
Proof.
  intros Hks Hu.
  destruct (runRefresh_key s Hks) as [Hks1 Hko1].
  pose proof (Unkeyed_runRefresh s Hu) as Hu1.
  pose proof (SeenProps_runRefresh s) as Hsp1.
  set (a := runRefresh s) in *.
  pose proof (swapCore_runAuto a) as Hsc2.
  pose proof (refreshCore_runAuto a) as Hrc2.
  pose proof (applied_runAuto a) as Ha2.
  pose proof (runAuto_settled a) as Hset2.
  set (b := runAuto a) in *.
  destruct (runRefresh_quiet b) as (Hsc3 & Hac3 & Hsr3).
  { by apply (KeyOk_core a.1). }
  { by apply (Unkeyed_core a.1). }
  { by apply (SeenProps_core a.1). }
  apply autoCore_eq in Hac3 as (Ha3 & He3 & Hsa3).
  set (c := runRefresh b) in *.
  pose proof (swapCore_runPrev c) as Hsc4.
  pose proof (refreshCore_runPrev c) as [= _ Hsr4].
  pose proof (autoCore_runPrev c) as (Ha4 & He4 & Hsa4)%autoCore_eq.
  split; [|split].
  - rewrite Hsr4, Hsr3. by apply refreshSources_core.
  - rewrite Hsa4, Hsa3, Hset2.
    rewrite (autoSources_core c.1 _ Hsc4 Ha4). by apply autoSources_core.
  - apply runPrev_settled.
Qed.

Lemma noJob_core m m' :
  swapCore m' = swapCore m → refreshCore m' = refreshCore m →
  autoCore m' = autoCore m → prevCore m' = prevCore m →
  noJob m → noJob m'.
Proof.
  intros Hsc [= _ Hsr] (Ha & He & Hsa)%autoCore_eq [= Hp Hsp] (H1 & H2 & H3).
  split; [|split].
  - rewrite Hsr, <- H1. by apply refreshSources_core.
  - rewrite Hsa, <- H2. by apply autoSources_core.
  - by rewrite Hp, Hsp.
Qed.

(** After a turn of the scheduler no watcher job is left. *)
Lemma flush_noJob o s : KeySeen s.1 → Unkeyed s.1 → noJob (flush o s).1.
Proof.
  intros Hks Hu. unfold flush, renderSt, flushPre. cbn [fst snd].
  set (s0 := if autoFirst o then runAuto s else s).
  assert (KeySeen s0.1 ∧ Unkeyed s0.1) as [Hks0 Hu0].
  { unfold s0. destruct (autoFirst o); [|done]. split.
    - apply (KeySeen_core s.1); [apply refreshCore_runAuto|done].
    - apply (Unkeyed_core s.1);
        [apply swapCore_runAuto|apply refreshCore_runAuto|apply applied_runAuto|done]. }
  pose proof (settle_noJob s0 Hks0 Hu0) as Hnj. revert Hnj.
  apply noJob_core.
  - rewrite swapCore_render, swapCore_post. cbn [fst]. by rewrite swapCore_render.
  - rewrite refreshCore_render, refreshCore_post. cbn [fst]. by rewrite refreshCore_render.
  - rewrite autoCore_render, autoCore_post. cbn [fst]. by rewrite autoCore_render.
  - rewrite prevCore_render, prevCore_post. cbn [fst]. by rewrite prevCore_render.
Qed.

(** When no job is left and the key of the props is the one handled
    last, a turn of the scheduler changes nothing the watchers read. *)
Lemma flush_quiet o s :
  KeyOk s.1 → Unkeyed s.1 → SeenProps s.1 → seenAuto s.1 = autoSources s.1 →
  swapCore (flush o s).1 = swapCore s.1 ∧ autoCore (flush o s).1 = autoCore s.1.
Proof.
  intros Hko Hu Hsp Hsa. unfold flush, renderSt, flushPre. cbn [fst snd].
  assert ((if autoFirst o then runAuto s else s) = s) as ->.
  { destruct (autoFirst o); [by apply runAuto_idle|done]. }
  destruct (runRefresh_quiet s Hko Hu Hsp) as (Hsc1 & Hac1 & Hsr1).
  pose proof Hac1 as (Ha1 & He1 & Hsa1)%autoCore_eq.
  assert (runAuto (runRefresh s) = runRefresh s) as ->.
  { apply runAuto_idle. rewrite Hsa1, Hsa. symmetry. by apply autoSources_core. }
  rewrite (runRefresh_idle (runRefresh s)) by done.
  split.
  - rewrite swapCore_render, swapCore_post. cbn [fst].
    by rewrite swapCore_render, swapCore_runPrev.
  - rewrite autoCore_render, autoCore_post. cbn [fst].
    by rewrite autoCore_render, autoCore_runPrev.
Qed.

Lemma AtRest_step o ev s : AtRest s → AtRest (step o ev s).
Proof.
  intros (Hks & Hko & Hu & Hnj).
  destruct (step_key o ev s (conj Hks Hko)) as [Hks' Hko'].
  pose proof (Unkeyed_step o ev s Hu) as Hu'.
  split; [done|]. split; [done|]. split; [done|].
  unfold step. destruct (mounted (handle o ev s).1) eqn:Hm; [|congruence].
  intros _. apply flush_noJob.
  - apply (KeySeen_core s.1); [apply refreshCore_handle|done].
  - by apply Unkeyed_handle.
Qed.

Lemma AtRest_run evs s : AtRest s → AtRest (run evs s).
Proof.
  revert s. induction evs as [|[o ev] evs IH]; intros s H; [done|].
  cbn [run foldl]. apply IH. by apply AtRest_step.
Qed.

Lemma mounting_key o p :
  KeySeen (onMounted (dom o) (renderSt (setup p envInit))).1 ∧
  Unkeyed (onMounted (dom o) (renderSt (setup p envInit))).1.
Proof.
  unfold onMounted, renderSt, setup, requestAnimationFrame.
  destruct (autoWatch (set_seenAuto (autoSources (initial p)) (initial p), envInit))
    as [m e] eqn:E.
  assert (swapCore m = swapCore (initial p) ∧ refreshCore m = refreshCore (initial p)
          ∧ applied m = applied (initial p))
    as (Hsc & Hrc & Ha).
  { change m with (m, e).1. rewrite <- E.
    by rewrite swapCore_autoWatch, refreshCore_autoWatch, applied_autoWatch. }
  cbn [fst snd]. split.
  - apply (KeySeen_core (initial p)); [|done].
    rewrite setupContentObserver_measures, refreshCore_withMeasures.
    rewrite setupPillObserver_measures, refreshCore_withMeasures.
    cbn [fst]. change (refreshCore (render m) = refreshCore (initial p)).
    by rewrite refreshCore_render.
  - assert (Unkeyed (render m)) as Hr.
    { apply (Unkeyed_core (initial p)).
      - by rewrite swapCore_render.
      - by rewrite refreshCore_render.
      - by rewrite applied_render.
      - by intros ?. }
    revert Hr. apply Unkeyed_seen.
    all: rewrite setupContentObserver_measures; cbn [withMeasures]; proj;
      by rewrite setupPillObserver_measures.
Qed.

Lemma AtRest_create o p : AtRest (create o p envInit).
Proof.
  destruct (create_key o p) as [Hks Hko].
  split; [done|]. split; [done|]. split; [apply Unkeyed_create|].
  intros _. unfold create. destruct (mounting_key o p). by apply flush_noJob.
Qed.
End Quiet.
(** * The component: the scheduler under an unchanged key *)

Section KeyedFacts.
Import Sileo.
Implicit Types (m : t) (e : Env) (s : St).

(** The refresh watcher job under the key handled last writes only
    what it saw. *)
Lemma runRefresh_keyed s k :
  lastRefreshKey s.1 = Some k → p_refreshKey (props s.1) = Some k →
  runRefresh s = s ∨ runRefresh s = (set_seenRefresh (refreshSources s.1) s.1, s.2).
Proof.
  intros Hl Hk. unfold runRefresh. case_bool_decide; [by left|right].
  unfold refreshSources at 2. cbn [fst snd]. rewrite Hk.
  by rewrite refreshWatch_same_key.
Qed.

Lemma autoWatch_set_seenRefresh x m e :
  autoWatch (set_seenRefresh x m, e)
  = (set_seenRefresh x (autoWatch (m, e)).1, (autoWatch (m, e)).2).
Proof.
  unfold autoWatch, setTimeout, Win.setTimeout. proj.
  change (hasDesc (set_seenRefresh x m)) with (hasDesc m).
  change (allowExpand (set_seenRefresh x m)) with (allowExpand m).
  crush.
Qed.

Lemma runAuto_set_seenRefresh x m e :
  runAuto (set_seenRefresh x m, e)
  = (set_seenRefresh x (runAuto (m, e)).1, (runAuto (m, e)).2).
Proof.
  unfold runAuto. cbn [fst snd].
  change (autoSources (set_seenRefresh x m)) with (autoSources m).
  change (seenAuto (set_seenRefresh x m)) with (seenAuto m).
  case_bool_decide; [done|].
  change (set_seenAuto (autoSources m) (set_seenRefresh x m))
    with (set_seenRefresh x (set_seenAuto (autoSources m) m)).
  apply autoWatch_set_seenRefresh.
Qed.

(** Under the key handled last the scheduler does to the permission
    and expansion what one run of the auto watcher job does. *)
Lemma flush_keyed o s k :
  lastRefreshKey s.1 = Some k → p_refreshKey (props s.1) = Some k →
  autoCore (flush o s).1 = autoCore (runAuto s).1.
Proof.
  intros Hl Hk. unfold flush, renderSt, flushPre. cbn [fst snd].
  rewrite autoCore_render, autoCore_post. cbn [fst].
  rewrite autoCore_render, autoCore_runPrev.
  assert (∀ s1, lastRefreshKey s1.1 = Some k → p_refreshKey (props s1.1) = Some k →
                autoCore (runRefresh s1).1 = autoCore s1.1) as Hquiet.
  { intros s1 Hl1 Hk1. by destruct (runRefresh_keyed s1 k Hl1 Hk1) as [->| ->]. }
  assert (∀ s1, lastRefreshKey s1.1 = Some k → p_refreshKey (props s1.1) = Some k →
                lastRefreshKey (runRefresh s1).1 = Some k ∧
                p_refreshKey (props (runRefresh s1).1) = Some k) as Hkeep.
  { intros s1 Hl1 Hk1. by destruct (runRefresh_keyed s1 k Hl1 Hk1) as [->| ->]. }
  assert (∀ s1, lastRefreshKey s1.1 = Some k → p_refreshKey (props s1.1) = Some k →
                lastRefreshKey (runAuto s1).1 = Some k ∧
                p_refreshKey (props (runAuto s1).1) = Some k) as Hkeep'.
  { intros s1 Hl1 Hk1.
    destruct (swapCore_eq _ _ (swapCore_runAuto s1)) as (Hp & _ & _ & Hl' & _).
    by rewrite Hp, Hl'. }
  destruct (autoFirst o).
  - destruct (Hkeep' s Hl Hk) as [Hl0 Hk0].
    destruct (Hkeep _ Hl0 Hk0) as [Hl1 Hk1].
    assert (runAuto (runRefresh (runAuto s)) = runRefresh (runAuto s)) as ->.
    { apply runAuto_idle.
      destruct (runRefresh_keyed (runAuto s) k Hl0 Hk0) as [->| ->];
        apply runAuto_settled. }
    rewrite Hquiet by done. by apply Hquiet.
  - destruct (Hkeep s Hl Hk) as [Hl1 Hk1].
    destruct (Hkeep' _ Hl1 Hk1) as [Hl2 Hk2].
    rewrite Hquiet by done.
    destruct (runRefresh_keyed s k Hl Hk) as [->| ->]; [done|].
    destruct s as [m e]. cbn [fst snd]. by rewrite runAuto_set_seenRefresh.
Qed.
End KeyedFacts.

(** * Hover suspension *)

Section HoverSuspension.
Import Toaster.
Variable DEFAULT_DURATION : option Z.

(** C4.  In every state a mounted adapter can reach, while the pointer
    is over one of its toasts all auto-dismiss timers are cleared: the
    [timers] map is empty, no timer is pending and so none can fire; a
    notification of the Store during the hover schedules nothing; on
    hover-exit every toast of the current list that is not exiting and
    has a positive duration [d] gets a timer due [d] milliseconds after
    the moment of the exit: the time it had already been shown counts
    for nothing. *)
Theorem C4_hover_suspends_and_restarts
    (ts : list SileoItem) (evs : list Adapter.Event) :
  let s := Adapter.run DEFAULT_DURATION evs (Adapter.mounted DEFAULT_DURATION ts) in
  isHovering s.1 = true →
  (timers s.1 = ∅ ∧ Win.pending s.2 = ∅ ∧ ∀ h, Win.take h s.2 = None) ∧
  (∀ next,
     let s1 := Adapter.step DEFAULT_DURATION s (Adapter.EListener next) in
     isHovering s1.1 = true ∧ timers s1.1 = ∅ ∧ Win.pending s1.2 = ∅) ∧
  (∀ toastId,
     let s' := leave DEFAULT_DURATION toastId s in
     isHovering s'.1 = false ∧
     (NoDup (Store.timeoutKey <$> toasts s.1) →
      ∀ item d,
        item ∈ toasts s.1 → exiting item = false →
        nullish (duration item) DEFAULT_DURATION = Some d → 0 < d →
        ∃ h, timers s'.1 !! Store.timeoutKey item = Some h ∧
             Win.pending s'.2 !! h
             = Some (Win.now s.2 + d, DismissToast (id item)))).
Proof.
  intros s Hh.
  assert (Adapter.Inv s) as Hinv by apply run_Inv, mounted_Inv.
  destruct (hovering_idle s Hinv Hh) as [Ht Hp].
  split; [|split].
  - repeat split; [done..|]. intros h. by apply take_empty.
  - intros next s1.
    assert (isHovering s1.1 = true) as Hh1.
    { unfold s1. simpl. destruct (listening s.1); [|done].
      destruct s as [a w]. unfold listener, onToasts, pruneTimers.
      simpl in *.
      rewrite schedule_hovering; [|done].
      simpl. unfold render, onLatest. by case_bool_decide. }
    split; [done|]. apply hovering_idle; [|done].
    by apply step_Inv.
  - intros i s'. unfold s', leave. destruct s as [a w]. simpl in *.
    rewrite Hh.
    destruct (schedule_timersOnly DEFAULT_DURATION (toasts a)
      (withHover false (withActive (latestId a) a), w)) as (_&_&Hsame&_).
    split; [done|]. intros Hnd item d Hin Hex Hd Hpos.
    apply (schedule_timer DEFAULT_DURATION (toasts a)
      (withHover false (withActive (latestId a) a), w)); try done.
    + apply Hinv.
    + simpl. rewrite Ht. apply lookup_empty.
Qed.

End HoverSuspension.

Lemma C4_hover_witness :
  let s := Adapter.run (Some 6000) Examples.hoverTrace
             (Adapter.mounted (Some 6000) [Examples.saved]) in
  Toaster.isHovering s.1 = true ∧ Win.pending s.2 = ∅ ∧
  ∃ h, Win.pending (Toaster.leave (Some 6000) "1" s).2 !! h
       = Some (1300 + 500, Toaster.DismissToast "1").
Proof.
  intros s.
  assert (Toaster.isHovering s.1 = true) as Hh by (vm_compute; reflexivity).
  destruct (C4_hover_suspends_and_restarts (Some 6000) [Examples.saved]
              Examples.hoverTrace Hh) as [(_ & Hp & _) [_ Hleave]].
  split; [exact Hh|]. split; [exact Hp|].
  destruct (Hleave "1") as [_ Hl].
  destruct (Hl ltac:(vm_compute; apply NoDup_singleton) Examples.saved 500)
    as (h & _ & Hpend).
  - vm_compute. by left.
  - reflexivity.
  - reflexivity.
  - lia.
  - exists h. exact Hpend.
Defined.

(** * Auto-dismiss of a toast whose duration is [null] *)

(** C1 (the code departs from it).  The claim: a tracked toast whose
    duration is [null] never gets an auto-dismiss timer.  The code:
    [schedule] reads [item.duration ?? DEFAULT_DURATION], so a [null]
    duration is replaced by the default before the test
    [dur === null || dur <= 0].  For every positive default [d0], an
    adapter mounted on a Store that holds one toast with duration [null]
    sets a timer for it that is due after [d0] milliseconds, and when
    that timer fires the toast is dismissed (marked exiting). *)
Theorem C1_null_duration_gets_default_timer (d0 : positive) (i inst : string) (s : SileoState)
    (t : option string) (de : option Renderable) (b : option SileoButton)
    (p : option SileoPosition) (ae ac : option Z)
    (c : nat) (pos : SileoPosition) (opts : option Store.Options) :
  let DD := Some (Z.pos d0) in
  let item := mkItem i inst s t de b p None false ae ac in
  let app := App.mk (Store.mk [item] c pos opts) (Adapter.mounted DD [item]) in
  ∃ h,
    Toaster.timers (App.view app).1 !! Store.timeoutKey item = Some h ∧
    Win.pending (App.view app).2 !! h = Some (Z.pos d0, Toaster.DismissToast i) ∧
    Store.toasts (App.store (App.run DD [App.EAdvance (Z.pos d0); App.EFire h] app))
    = [Store.markExiting item].
Proof.
  intros DD item app.
  destruct (mounted_timer DD [item] item (Z.pos d0)) as (Hnow & _ & _ & h & Hk & Hp);
    try done.
  { apply NoDup_singleton. } { by left. }
  exists h. split; [done|]. split; [done|].
  unfold app. cbn [App.run foldl App.step App.view App.store fst snd].
  unfold Win.take. cbn [Win.advance Win.pending Win.now].
  rewrite Hp, Hnow. rewrite decide_True by lia.
  cbn [App.notify App.store Store.dismissToast Store.setToasts Store.toasts fmap list_fmap].
  unfold Store.live. cbn [id exiting item].
  by rewrite bool_decide_eq_true_2.
Qed.

(** * Ids, insertion order and late settlements *)

Section StoreClaims.
Import Store.

(** C2.  Whatever calls are made on the Store, the ids that [show],
    its wrappers and [promise] return are pairwise distinct and no id
    occurs twice in the list; the id a [show] returns is not the id of
    any toast in the list at that moment, and the new toast is appended
    at the end; after a sequence of [show] calls the list holds the old
    toasts followed by the new ones in the order of the calls. *)
Theorem C2_show_ids_distinct_and_appended :
  (∀ cs : list Call,
     NoDup (run cs init).1 ∧ NoDup (id <$> toasts (run cs init).2)) ∧
  (∀ (cs : list Call) (s : SileoState) (o : Options),
     let st := (run cs init).2 in
     let r := showWith s o st in
     (r.1 ∉ id <$> toasts st) ∧
     ∃ item, toasts r.2 = toasts st ++ [item] ∧ id item = r.1) ∧
  (∀ (cs : list Call) (shows : list (SileoState * Options)),
     let st := (run cs init).2 in
     let r := run (uncurry CShow <$> shows) st in
     id <$> toasts r.2 = (id <$> toasts st) ++ r.1 ∧
     length r.1 = length shows).
Proof.
  split; [|split].
  - intros cs. split; [apply run_ids|apply store_run_Inv, store_init_Inv].
  - intros cs s o st r. split.
    + apply showWith_fresh, store_run_Inv, store_init_Inv.
    + destruct (showWith_spec s o st) as (_ & _ & item & ? & ? & _). eauto.
  - intros cs shows st r. apply run_shows.
Qed.

(** C3.  A toast is created by [promise]; later [dismiss] is called on
    its id (or [dismiss()] on all toasts); whatever calls are made
    before, between and after, the settlement of the operation then
    leaves the Store as it is, and every toast with that id still in
    the list is exiting and is one the list held right after the
    dismissal: no content is resurrected. *)
Theorem C3_late_settlement_is_suppressed
    (before : list Call) (loadingOpts : Options) (during : list Call)
    (all : bool) (after : list Call) (s : SileoState) (o : Options) :
  let st0 := (run before init).2 in
  let i := (promise loadingOpts st0).1 in
  let st1 := (run during (promise loadingOpts st0).2).2 in
  let st2 := (call (if all then CDismissAll else CDismiss i) st1).2 in
  let st3 := (run after st2).2 in
  settle i s o st3 = st3 ∧
  ∀ x, x ∈ toasts (settle i s o st3) → id x = i →
       exiting x = true ∧ x ∈ toasts st2.
Proof.
  intros st0 i st1 st2 st3.
  assert (used st2 i) as Hu.
  { exists (counter st0). split; [done|].
    pose proof (run_counter during (promise loadingOpts st0).2).
    pose proof (call_counter (if all then CDismissAll else CDismiss i) st1).
    fold st1 in H. fold st2 in H0. simpl in H. lia. }
  pose proof (dismiss_dismissed all i st1) as Hd2. fold st2 in Hd2.
  pose proof (run_dismissed after st2 i Hu Hd2) as Hd3. fold st3 in Hd3.
  rewrite settle_dismissed by done. split; [done|].
  intros x Hx Hid. split; [by apply Hd3|].
  by apply (run_frozen after st2 i).
Qed.
End StoreClaims.

(** * Swipe to dismiss *)

Section SwipeFacts.
Import Sileo.

Lemma clamp_spec dy :
  Z.abs (clamp dy) = Z.min (Z.abs dy) SWIPE_MAX ∧
  Z.abs (clamp dy) ≤ SWIPE_MAX ∧
  (0 < dy → 0 < clamp dy) ∧ (dy < 0 → clamp dy < 0).
Proof. unfold clamp, SWIPE_MAX. case_bool_decide; lia. Qed.

Lemma foldl_onMove_start moves m :
  pointerStartY (foldl (λ m y', onMove y' m) m moves) = pointerStartY m.
Proof.
  revert m. induction moves as [|y' moves IH]; intros m; [done|].
  simpl. rewrite IH. unfold onMove. by destruct (pointerStartY m) eqn:E.
Qed.

(** A move changes nothing but the [transform] of the element. *)
Lemma foldl_onMove_frame moves m :
  set_transform None (foldl (λ m y', onMove y' m) m moves) = set_transform None m.
Proof.
  revert m. induction moves as [|y' moves IH]; intros m; [done|].
  simpl. rewrite IH. unfold onMove. by destruct (pointerStartY m).
Qed.

Lemma foldl_onMove_last pre y' y0 m :
  pointerStartY m = Some y0 →
  transform (foldl (λ m y', onMove y' m) m (pre ++ [y'])) = Some (clamp (y' - y0)).
Proof.
  intros Hs. rewrite foldl_app. simpl. unfold onMove at 1.
  by rewrite foldl_onMove_start, Hs.
Qed.

(** C9.  For a drag that starts on a toast at rest (not exiting, with
    a dismiss callback, not on the action button): the fixed maximum of
    the visual displacement (20) is below the dismiss threshold (30);
    after every move the element is translated by the raw displacement
    clamped to that maximum in absolute value, with the sign of the raw
    displacement; on release the component is back in the state it had
    before the drag, and the dismiss callback is called if and only if
    the absolute raw displacement exceeds the threshold. *)
Theorem C9_swipe_clamp_and_dismiss
    (m : t) (e : Env) (y0 y : Z) (moves : list Z) :
  pointerStartY m = None → transform m = None →
  p_exiting (props m) = false → p_onDismiss (props m) = true →
  SWIPE_MAX < SWIPE_DISMISS ∧
  (∀ pre y',
     transform (foldl (λ m y', onMove y' m) (handlePointerDown y0 false m) (pre ++ [y']))
     = Some (clamp (y' - y0)) ∧
     Z.abs (clamp (y' - y0)) = Z.min (Z.abs (y' - y0)) SWIPE_MAX ∧
     Z.abs (clamp (y' - y0)) ≤ SWIPE_MAX ∧
     (0 < y' - y0 → 0 < clamp (y' - y0)) ∧
     (y' - y0 < 0 → clamp (y' - y0) < 0)) ∧
  drag y0 false moves y (m, e)
  = (m, if bool_decide (Z.abs (y - y0) > SWIPE_DISMISS) then emit ODismiss e else e).
Proof.
  intros Hstart Htr Hex Hdis.
  assert (handlePointerDown y0 false m = set_pointerStartY (Some y0) m) as Hdown.
  { unfold handlePointerDown. by rewrite Hex, Hdis. }
  split; [done|]. split.
  - intros pre y'. rewrite Hdown. split; [by apply foldl_onMove_last|].
    apply clamp_spec.
  - unfold drag, onUp. cbn [fst snd]. rewrite Hdown.
    rewrite foldl_onMove_start. cbn [pointerStartY set_pointerStartY].
    assert (set_transform None
              (set_pointerStartY None
                 (foldl (λ m y', onMove y' m) (set_pointerStartY (Some y0) m) moves)) = m)
      as ->.
    { transitivity (set_pointerStartY None (set_transform None
         (foldl (λ m y', onMove y' m) (set_pointerStartY (Some y0) m) moves))); [done|].
      rewrite foldl_onMove_frame. destruct m. simpl in *. by subst. }
    assert (p_onDismiss (props (foldl (λ m y', onMove y' m)
              (set_pointerStartY (Some y0) m) moves)) = true) as ->.
    { change (p_onDismiss (props (set_transform None (foldl (λ m y', onMove y' m)
              (set_pointerStartY (Some y0) m) moves))) = true).
      by rewrite foldl_onMove_frame. }
    by case_bool_decide.
Qed.

(** A press on a dismissed toast, without a dismiss callback, or on the
    action button starts no drag: nothing follows from the moves and the
    release. *)
Lemma drag_not_started (m : t) (e : Env) (y0 y : Z) (b : bool) (moves : list Z) :
  pointerStartY m = None →
  p_exiting (props m) = true ∨ p_onDismiss (props m) = false ∨ b = true →
  drag y0 b moves y (m, e) = (m, e).
Proof.
  intros Hstart Hno.
  assert (handlePointerDown y0 b m = m) as Hdown.
  { unfold handlePointerDown. destruct Hno as [H|[H|H]]; rewrite H; [done| |].
    - by rewrite orb_true_r.
    - by destruct (_ || _). }
  unfold drag, onUp. cbn [fst snd]. rewrite Hdown, foldl_onMove_start, Hstart.
  f_equal. clear Hdown Hno. revert m Hstart.
  induction moves as [|y' moves IH]; intros m Hstart; [done|].
  simpl. unfold onMove at 2. rewrite Hstart. by apply IH.
Qed.
End SwipeFacts.

Lemma C9_swipe_witness :
  Sileo.SWIPE_MAX < Sileo.SWIPE_DISMISS ∧
  Sileo.drag 100 false [110; 125; 140] 140
    (Sileo.initial Examples.card, Sileo.envInit)
  = (Sileo.initial Examples.card, Sileo.emit Sileo.ODismiss Sileo.envInit).
Proof.
  destruct (C9_swipe_clamp_and_dismiss (Sileo.initial Examples.card)
              Sileo.envInit 100 140 [110; 125; 140]
              eq_refl eq_refl eq_refl eq_refl) as (Hmax & _ & Hup).
  split; [exact Hmax|exact Hup].
Defined.

(** * Expanded height *)

Section ExpandedHeight.
Import Sileo.
Implicit Types (m : t) (e : Env) (s : St).

Lemma open_hasDesc m : open m = true → hasDesc m = true.
Proof. unfold open. by intros [[? _]%andb_true_iff _]%andb_true_iff. Qed.

(** The two post-flush watchers leave the card as open as it was, and
    the frozen height as it was. *)
Lemma post_open_frozen d s :
  let s' := runHasDesc d (runHeaderKey d s) in
  open s'.1 = open s.1 ∧ frozenExpanded s'.1 = frozenExpanded s.1.
Proof.
  simpl. rewrite runHasDesc_measures, runHeaderKey_measures. done.
Qed.

Lemma flush_frozen o s :
  let s' := flush o s in
  (open s'.1 = false → frozenExpanded s'.1 = frozenExpanded s.1) ∧
  (open s'.1 = true → frozenExpanded s'.1 = rawExpanded s'.1).
Proof.
  unfold flush, renderSt.
  pose proof (frozen_flushPre (autoFirst o) s) as Hpre.
  destruct (flushPre (autoFirst o) s) as [m1 e1]. cbn [fst snd] in *.
  pose proof (post_open_frozen (dom o) (render m1, e1)) as [Ho Hf].
  destruct (runHasDesc (dom o) (runHeaderKey (dom o) (render m1, e1)))
    as [m2 e2]. cbn [fst snd] in *.
  rewrite open_render in Ho. rewrite open_render, rawExpanded_render.
  rewrite (render_spec m2). split; intros H; rewrite H; [|done].
  rewrite Hf, render_spec. rewrite <- Ho, H. exact Hpre.
Qed.

(** C8.  The minimum expand height is 2.25 times the collapsed height
    (90 for 40).  An open card has expandable content, and its expanded
    height is the larger of the minimum and the collapsed height plus
    the measured content height; evaluating it records that value as the
    frozen one.  On a card that is not open the expanded height is the
    frozen value and nothing is written.  The frozen value starts at the
    minimum.  Over any event: if the card is not open after it, the
    frozen value is what it was before; if the card is open (and
    mounted) after it, the frozen value is the expanded height just
    computed. *)
Theorem C8_expanded_height :
  4 * minExpanded = 9 * HEIGHT ∧
  (∀ m, open m = true →
        hasDesc m = true ∧
        (expanded m).1 = Z.max minExpanded (HEIGHT + contentHeight m) ∧
        frozenExpanded (expanded m).2 = (expanded m).1) ∧
  (∀ m, open m = false → expanded m = (frozenExpanded m, m)) ∧
  (∀ p, frozenExpanded (initial p) = minExpanded) ∧
  (∀ o ev s,
     let s' := step o ev s in
     (open s'.1 = false → frozenExpanded s'.1 = frozenExpanded s.1) ∧
     (mounted s'.1 = true → open s'.1 = true →
      frozenExpanded s'.1 = Z.max minExpanded (HEIGHT + contentHeight s'.1))).
Proof.
  split; [done|]. split; [|split; [|split; [done|]]].
  - intros m Ho. pose proof (open_hasDesc m Ho) as Hd.
    unfold expanded, rawExpanded. by rewrite Ho, Hd.
  - intros m Ho. unfold expanded. by rewrite Ho.
  - intros o ev s s'. unfold s', step.
    destruct (mounted (handle o ev s).1) eqn:Hm.
    + destruct (flush_frozen o (handle o ev s)) as [H1 H2]. split.
      * intros Ho. rewrite H1 by done. apply frozen_handle.
      * intros _ Ho. rewrite H2 by done. unfold rawExpanded.
        by rewrite (open_hasDesc _ Ho).
    + split; [intros _; apply frozen_handle|]. intros Hm'. congruence.
Qed.
End ExpandedHeight.

(** * Content swap *)

Section SwapClaim.
Import Sileo.
Implicit Types (m : t) (e : Env) (s : St).

(** The handler of an event that ends the collapse applies the pending
    content. *)
Lemma handle_completes o ev s pv :
  mounted s.1 = true → pendingView s.1 = Some pv → completes s ev = true →
  let s' := handle o ev s in
  view s'.1 = pv_payload pv ∧ applied s'.1 = Some (pv_key pv) ∧
  pendingView s'.1 = None ∧ props s'.1 = props s.1 ∧
  lastRefreshKey s'.1 = lastRefreshKey s.1 ∧ mounted s'.1 = true.
Proof.
  destruct s as [m e]. cbn [fst snd]. intros Hm Hpv Hc.
  destruct ev; simpl in Hc; try done; simpl.
  - apply andb_true_iff in Hc as [Hn Ho%negb_true_iff]. rewrite Hm.
    unfold handleTransitionEnd. cbn [fst]. rewrite Ho, Hpv.
    assert (negb (String.eqb propertyName "height")
            && negb (String.eqb propertyName "transform") = false) as ->.
    { by destruct (String.eqb propertyName "height"),
                  (String.eqb propertyName "transform"). }
    destruct (swapTimer m) eqn:Ht; cbn [fst];
      unfold applyPending; proj; rewrite Hpv, assignView_eq; by proj.
  - destruct (Win.take h (win e)) as [[cb w]|]; [|done].
    destruct cb; try done. cbn [fst onTimer].
    unfold applyPending. proj. rewrite Hpv, assignView_eq. by proj.
Qed.

(** C5.  When the refresh key of a rendered toast changes to a new key:
    on an open card the refresh watcher leaves the rendered content
    ([view]) as it is, keeps the new content as the pending one,
    collapses the card and arms the fallback timer of 200 ms; on a card
    that is not open it applies the new content at once.  While a swap
    is pending, the content stays what it was through every trace of
    events that brings neither new props nor the end of the collapse.
    The end of the collapse (a [transitionend] of the height or the
    transform on a card that is not open, or the fallback timer) makes
    the pending content the rendered one.  The same through a whole turn
    of the scheduler: new props with a new key on a mounted component
    leave the content of an open card unchanged with the swap pending,
    and replace the content of a collapsed card. *)
Theorem C5_content_swap_waits_for_collapse :
  (∀ k v m e,
     lastRefreshKey m ≠ Some k →
     let s' := refreshWatch true (Some k) v (m, e) in
     view s'.1 = view m ∧ pendingView s'.1 = Some (mkPending k v) ∧
     open s'.1 = false ∧
     ∃ h, swapTimer s'.1 = Some h ∧
          Win.pending (win s'.2) !! h
          = Some (Win.now (win e) + SWAP_COLLAPSE_MS, CbSwap)) ∧
  (∀ k v m e,
     lastRefreshKey m ≠ Some k →
     let s' := refreshWatch false (Some k) v (m, e) in
     view s'.1 = v ∧ applied s'.1 = Some k ∧ pendingView s'.1 = None) ∧
  (∀ evs s pv,
     swapPending pv s.1 → waiting evs s →
     view (run evs s).1 = view s.1 ∧ swapPending pv (run evs s).1) ∧
  (∀ o ev s pv,
     mounted s.1 = true → swapPending pv s.1 → completes s ev = true →
     view (step o ev s).1 = pv_payload pv ∧
     pendingView (step o ev s).1 = None) ∧
  (∀ o p' s k,
     mounted s.1 = true →
     seenRefresh s.1 = refreshSources s.1 →
     lastRefreshKey s.1 = p_refreshKey (props s.1) →
     p_refreshKey p' = Some k → p_refreshKey (props s.1) ≠ Some k →
     autoFirst o = false ∨ autoSources (set_props p' s.1) = seenAuto s.1 →
     let s' := step o (EProps p') s in
     if open s.1
     then view s'.1 = view s.1 ∧ swapPending (mkPending k (next p')) s'.1
     else view s'.1 = next p' ∧ pendingView s'.1 = None).
Proof.
  split; [|split; [|split; [|split]]].
  - intros k v m e Hk s'.
    destruct (refreshWatch_open k v m e Hk) as (?&?&?&?&?&?&?). by repeat split.
  - intros k v m e Hk s'.
    destruct (refreshWatch_collapsed k v m e Hk) as (?&?&?&?). by repeat split.
  - apply run_waiting.
  - intros o ev s pv Hm (Hpv & Hl & Hp) Hc.
    destruct (handle_completes o ev s pv Hm Hpv Hc) as (Hv & _ & Hn & Hp' & Hl' & Hm').
    unfold step. rewrite Hm'.
    pose proof (swapCore_flush o (handle o ev s) (pv_key pv)
                  ltac:(congruence) ltac:(congruence)) as H.
    destruct (swapCore_eq _ _ H) as (_ & Hv2 & Hpv2 & _). split; congruence.
  - intros o p' [m e] k Hm Hseen Hl Hp' Hne Hauto s'. cbn [fst snd] in *.
    unfold s', step. cbn [handle]. rewrite Hm. cbn [fst mounted set_props].
    rewrite Hm.
    set (s1 := (set_props p' m, e)).
    assert (open s1.1 = open m) as Hopen by done.
    (* the first job *)
    assert ((if autoFirst o then runAuto s1 else s1) = s1) as H0.
    { destruct Hauto as [->|Ha]; [done|]. destruct (autoFirst o); [|done].
      unfold runAuto. by rewrite bool_decide_eq_true_2. }
    (* the refresh watcher runs its callback *)
    assert (runRefresh s1
            = refreshWatch (open m) (Some k) (next p')
                (set_seenRefresh (open m, Some k, next p') (set_props p' m), e)) as H1.
    { unfold runRefresh.
      change (refreshSources s1.1) with (open m, p_refreshKey p', next p').
      change (seenRefresh s1.1) with (seenRefresh m).
      rewrite Hp', Hseen. rewrite bool_decide_eq_false_2; [done|].
      unfold refreshSources. intros H.
      apply (f_equal (λ x, x.1.2)) in H. simpl in H. congruence. }
    assert (lastRefreshKey (set_seenRefresh (open m, Some k, next p') (set_props p' m))
            ≠ Some k) as Hk' by (proj; congruence).
    set (m1 := set_seenRefresh (open m, Some k, next p') (set_props p' m)) in *.
    (* what the rest of the turn keeps *)
    assert (∀ s2, lastRefreshKey s2.1 = Some k → p_refreshKey (props s2.1) = Some k →
              swapCore (renderSt (runHasDesc (dom o) (runHeaderKey (dom o)
                (renderSt (runPrev (runRefresh (runAuto s2))))))).1 = swapCore s2.1) as Hrest.
    { intros s2 Hl2 Hp2. unfold renderSt. cbn [fst snd].
      rewrite swapCore_render, swapCore_post. cbn [fst].
      rewrite swapCore_render, swapCore_runPrev.
      pose proof (swapCore_runAuto s2) as Ha.
      destruct (swapCore_eq _ _ Ha) as (Hpa & _ & _ & Hla & _).
      rewrite (swapCore_runRefresh_same _ k) by congruence. done. }
    unfold flush, flushPre. rewrite H0, H1.
    destruct (open m) eqn:Ho.
    + destruct (refreshWatch_open k (next p') m1 e Hk') as (Hv & _ & Hpv & Hlk & _).
      assert (props (refreshWatch true (Some k) (next p') (m1, e)).1 = p') as Hpr.
      { unfold refreshWatch. rewrite bool_decide_eq_false_2 by done.
        unfold setTimeout. crush. }
      specialize (Hrest (refreshWatch true (Some k) (next p') (m1, e))
                    Hlk ltac:(by rewrite Hpr)).
      destruct (swapCore_eq _ _ Hrest) as (Hp2 & Hv2 & Hpv2 & Hl2 & _).
      unfold swapPending. cbn [pv_key].
      repeat split; try congruence.
      rewrite Hv2, Hv. done.
    + destruct (refreshWatch_collapsed k (next p') m1 e Hk') as (Hv & _ & Hpv & Hlk).
      assert (props (refreshWatch false (Some k) (next p') (m1, e)).1 = p') as Hpr.
      { unfold refreshWatch. rewrite bool_decide_eq_false_2 by done.
        crush; rewrite assignView_eq; by proj. }
      specialize (Hrest (refreshWatch false (Some k) (next p') (m1, e))
                    Hlk ltac:(by rewrite Hpr)).
      destruct (swapCore_eq _ _ Hrest) as (Hp2 & Hv2 & Hpv2 & Hl2 & _).
      split; congruence.
Qed.
End SwapClaim.
Lemma C5_swap_witness :
  Sileo.view Examples.swapping.1 = Sileo.view Examples.hovered.1 ∧
  Sileo.view (Sileo.run Examples.waitTrace Examples.swapping).1
  = Sileo.view Examples.hovered.1 ∧
  Sileo.view (Sileo.step Examples.measured (Sileo.ETimer 1)
                (Sileo.run Examples.waitTrace Examples.swapping)).1
  = Sileo.next Examples.cardUpdated.
Proof.
  destruct C5_content_swap_waits_for_collapse as (_ & _ & Hwait & Hdone & Hstep).
  assert (Sileo.view Examples.swapping.1 = Sileo.view Examples.hovered.1 ∧
          Sileo.swapPending (Sileo.mkPending "3" (Sileo.next Examples.cardUpdated))
            Examples.swapping.1) as [Hv Hpv].
  { apply (Hstep Examples.measured Examples.cardUpdated Examples.hovered "3");
      [vm_compute; reflexivity..| |left; reflexivity].
    vm_compute. discriminate. }
  destruct (Hwait Examples.waitTrace Examples.swapping _ Hpv) as [Hv' Hpv'].
  { vm_compute. tauto. }
  split; [exact Hv|]. split; [congruence|].
  destruct (Hdone Examples.measured (Sileo.ETimer 1)
              (Sileo.run Examples.waitTrace Examples.swapping)
              (Sileo.mkPending "3" (Sileo.next Examples.cardUpdated)))
    as [Hfin _]; [vm_compute; reflexivity|exact Hpv'|vm_compute; reflexivity|].
  exact Hfin.
Defined.

(** * Teardown *)

Section ReadyClaim.
Import Sileo.
Implicit Types (m : t) (e : Env) (s : St).

Lemma rp_create o p : ReadyPending (create o p envInit).
Proof.
  unfold create. apply rp_flush. unfold onMounted.
  destruct (renderSt (setup p envInit)) as [m e] eqn:E.
  assert (frames e = ∅ ∧ nextFrame e = 1%nat ∧ pillRafId m = 0%nat ∧
          contentRafId m = 0%nat ∧ ready m = false) as (Hf & Hn & Hp & Hc & Hr).
  { revert E. unfold renderSt, setup. cbn [fst snd]. rewrite render_spec.
    unfold autoWatch, setTimeout, initial.
    crush; intros [= <- <-]; proj; autorewrite with env; done. }
  unfold requestAnimationFrame.
  apply rp_setupContentObserver, rp_setupPillObserver.
  split; proj; cbn [frames nextFrame]; rewrite ?Hn; try done; try lia.
  by rewrite lookup_insert_eq.
Qed.

Lemma rp_run evs s :
  ReadyPending s →
  ReadyPending (run (filter (λ oe, negb (isFrame oe.2)) evs) s).
Proof.
  revert s. induction evs as [|[o ev] evs IH]; intros s Hrp; [done|].
  rewrite filter_cons. cbn [snd]. destruct (isFrame ev) eqn:E; simpl.
  - by apply IH.
  - apply IH. by apply rp_step.
Qed.

(** C7 (the code departs from it).  The claim: unmounting a toast's
    state machine cancels all of its timers, observers and animation
    frames, so that no callback of the instance runs after teardown.
    The code: [onUnmounted] cancels the four timers, the two observers
    and their measuring frames, but the frame requested in [onMounted]
    (the one that sets [ready]) has no stored id and is not cancelled.
    For every toast, whatever events it receives before the browser
    paints a frame, after the unmount that frame is still filed, and when
    the browser runs it the callback writes [ready] on the unmounted
    instance. *)
Theorem C7_ready_frame_outlives_unmount
    (o : Oracle) (p : Props) (evs : list (Oracle * Event)) :
  let s := step o EUnmount
             (run (filter (λ oe, negb (isFrame oe.2)) evs) (create o p envInit)) in
  mounted s.1 = false ∧ ready s.1 = false ∧
  frames s.2 !! 1%nat = Some FrReady ∧
  ready (step o (EFrame 1) s).1 = true.
Proof.
  pose proof (rp_run evs _ (rp_create o p)) as Hrp.
  revert Hrp.
  generalize (run (filter (λ oe, negb (isFrame oe.2)) evs) (create o p envInit)).
  intros s0 Hrp s.
  assert (mounted s.1 = false) as Hm.
  { unfold s, step. destruct s0 as [m e]. cbn [handle].
    destruct (mounted m) eqn:Hmm.
    - assert (mounted (onUnmounted (m, e)).1 = false) as Hu by done.
      by rewrite Hu.
    - cbn [fst]. rewrite Hmm. exact Hmm. }
  destruct (rp_step o EUnmount s0 eq_refl Hrp) as [Hf _ _ _ Hr]. fold s in Hf, Hr.
  repeat split; try done.
  unfold step. destruct s as [m e]. cbn [handle fst snd] in *.
  rewrite Hf. cbn [fst onFrame]. proj. by rewrite Hm.
Qed.
End ReadyClaim.

(** * More of the View Adapter *)

(** X1.  [byPosition] and the render loop over [SILEO_POSITIONS]: the
    group of a position holds the toasts that resolve to it
    ([t.position ?? props.position]), in the order of the list, and a
    position to which none resolves has no entry; the viewports that
    are rendered are the non-empty groups, in the order of
    [SILEO_POSITIONS]; together they hold every toast once. *)
Theorem X1_viewports_partition_the_toasts (defaultPos : SileoPosition)
    (ts : list SileoItem) :
  (∀ pos, Toaster.byPosition defaultPos ts pos
          = match filter (λ t, Toaster.resolvedPosition defaultPos t = pos) ts with
            | [] => None
            | l => Some l
            end) ∧
  Toaster.viewports defaultPos ts
  = omap (λ pos,
       match filter (λ t, Toaster.resolvedPosition defaultPos t = pos) ts with
       | [] => None
       | l => Some (pos, l)
       end) SILEO_POSITIONS ∧
  concat (snd <$> Toaster.viewports defaultPos ts) ≡ₚ ts.
Proof.
  split; [apply byPosition_filter|]. split; [apply viewports_filter|].
  rewrite viewports_filter.
  rewrite (concat_nonempty_groups
    (λ pos, filter (λ t, Toaster.resolvedPosition defaultPos t = pos) ts)).
  apply groups_concat.
Qed.

Section Latest.
Import Toaster.

Lemma latest_snoc ts x :
  latest (ts ++ [x]) = if exiting x then latest ts else Some (id x).
Proof.
  unfold latest. rewrite reverse_snoc. simpl. by destruct (exiting x).
Qed.

Lemma latest_None ts : latest ts = None → Forall (λ y, exiting y = true) ts.
Proof.
  induction ts as [|x ts IH] using rev_ind; [done|].
  rewrite latest_snoc. destruct (exiting x) eqn:E; [|done].
  intros ?%IH. apply Forall_app. split; [done|]. by apply Forall_singleton.
Qed.
End Latest.

(** X2.  [latest] is the id of the last toast of the list that is not
    exiting: every toast after it is exiting; it is undefined exactly
    when every toast is exiting. *)
Theorem X2_latest_is_last_live_toast (ts : list SileoItem) :
  match Toaster.latest ts with
  | Some i => ∃ l1 x l2, ts = l1 ++ x :: l2 ∧ id x = i ∧ exiting x = false ∧
                         Forall (λ y, exiting y = true) l2
  | None => Forall (λ y, exiting y = true) ts
  end.
Proof.
  induction ts as [|x ts IH] using rev_ind; [by apply Forall_nil|].
  rewrite latest_snoc. destruct (exiting x) eqn:E.
  - destruct (Toaster.latest ts) as [i|].
    + destruct IH as (l1 & y & l2 & -> & Hi & Hy & Hall).
      exists l1, y, (l2 ++ [x]). split; [by rewrite <- app_assoc|].
      repeat split; [done..|]. apply Forall_app. split; [done|].
      by apply Forall_singleton.
    + apply Forall_app. split; [done|]. by apply Forall_singleton.
  - exists ts, x, []. by repeat split.
Qed.

Section AdapterExtras.
Import Toaster.
Variable DEFAULT_DURATION : option Z.
Implicit Types (a : Toaster.t) (w : Win.t Callback) (s : St)
  (item : SileoItem) (items : list SileoItem).
Local Abbreviation schedule := (schedule DEFAULT_DURATION).
Local Abbreviation listener := (listener DEFAULT_DURATION).
Local Abbreviation leave := (leave DEFAULT_DURATION).
Local Abbreviation step := (Adapter.step DEFAULT_DURATION).
Local Abbreviation run := (Adapter.run DEFAULT_DURATION).
Local Abbreviation mounted := (Adapter.mounted DEFAULT_DURATION).

Lemma listener_activeId next s :
  activeId (listener next s).1
  = if bool_decide (latest (toasts s.1) = latest next)
    then activeId s.1 else latest next.
Proof.
  destruct s as [a w]. rewrite listener_eq.
  destruct (schedule_timersOnly DEFAULT_DURATION next
    (pruneHandlers next (pruneTimers next (withToasts next a, w)).1,
     (pruneTimers next (withToasts next a, w)).2)) as (Ht & Ha & _).
  simpl in *. unfold onLatest. rewrite Ht.
  case_bool_decide; simpl; by rewrite ?Ha, ?Ht.
Qed.

(** X3.  Active tracking, in every state the mounted adapter can reach:
    [latestId] is the [latest] of the tracked list; no toast is active
    only when every tracked toast is exiting, so while a toast is left
    that is not exiting exactly the toasts with the active id are
    allowed to expand; [enter] makes its own toast the active one,
    [leave] gives the role back to the latest, and a notification
    moves it to the new latest when, and only when, the latest
    changes. *)
Theorem X3_active_toast_tracking (ts : list SileoItem) (evs : list Adapter.Event) :
  let s := run evs (mounted ts) in
  latestId s.1 = latest (toasts s.1) ∧
  (activeId s.1 = None → Forall (λ y, exiting y = true) (toasts s.1)) ∧
  (∀ x, x ∈ toasts s.1 → exiting x = false →
        ∃ i, activeId s.1 = Some i ∧
             ∀ y, canExpand s.1 y = bool_decide (id y = i)) ∧
  (∀ i, activeId (enter i s).1 = Some i) ∧
  (∀ i, activeId (leave i s).1 = latest (toasts s.1)) ∧
  (∀ next, activeId (listener next s).1
           = if bool_decide (latest (toasts s.1) = latest next)
             then activeId s.1 else latest next).
Proof.
  intros s.
  destruct (run_Synced DEFAULT_DURATION evs _ (mounted_Synced DEFAULT_DURATION ts))
    as [_ _ _ Hlat Hact _]. fold s in Hlat, Hact.
  split; [done|]. split; [by intros ?%Hact%latest_None|].
  split; [|split; [|split]].
  - intros x Hx Hex. destruct (activeId s.1) as [i|] eqn:E.
    + exists i. split; [done|]. intros y. unfold canExpand. rewrite E. simpl.
      apply bool_decide_ext. split; congruence.
    + specialize (Hact eq_refl). apply latest_None in Hact.
      rewrite Forall_forall in Hact. apply Hact in Hx. congruence.
  - intros i. destruct s as [a w]. unfold enter. simpl.
    by destruct (isHovering a).
  - intros i. destruct s as [a w]. unfold Toaster.leave. simpl.
    destruct (isHovering a); simpl in *; [|done].
    destruct (schedule_timersOnly DEFAULT_DURATION (toasts a)
      (withHover false (withActive (latestId a) a), w)) as (_ & Ha & _).
    by rewrite Ha.
  - intros next. apply listener_activeId.
Qed.

(** X4.  The handlers cache, in every state the mounted adapter can
    reach, holds the handlers of exactly the tracked toasts: the render
    adds those of every toast, the watcher evicts those of the toasts
    that are gone. *)
Theorem X4_handlers_cache_follows_the_list (ts : list SileoItem)
    (evs : list Adapter.Event) :
  let s := run evs (mounted ts) in
  handlersCache s.1 = list_to_set (id <$> toasts s.1).
Proof.
  intros s.
  by destruct (run_Synced DEFAULT_DURATION evs _ (mounted_Synced DEFAULT_DURATION ts)).
Qed.

(** X5.  Every timer that is pending, in every state the mounted
    adapter can reach, is the timer of a tracked toast: it is held in
    the [timers] map under the key of that toast and under no other
    key, and the pointer is not over a toast. *)
Theorem X5_pending_timers_belong_to_tracked_toasts (ts : list SileoItem)
    (evs : list Adapter.Event) (h : nat) (e : Z * Callback) :
  let s := run evs (mounted ts) in
  Win.pending s.2 !! h = Some e →
  isHovering s.1 = false ∧
  ∃ item, item ∈ toasts s.1 ∧
          ∀ k, timers s.1 !! k = Some h ↔ k = Store.timeoutKey item.
Proof.
  intros s Hp.
  pose proof (run_Inv DEFAULT_DURATION evs _ (mounted_Inv DEFAULT_DURATION ts)) as Hinv.
  destruct (run_Synced DEFAULT_DURATION evs _ (mounted_Synced DEFAULT_DURATION ts))
    as [Htr _ Hinj _ _ _]. fold s in Hinv, Htr, Hinj.
  split.
  - destruct (isHovering s.1) eqn:E; [|done].
    destruct (hovering_idle s Hinv E) as [_ Hnone].
    rewrite Hnone in Hp. by rewrite lookup_empty in Hp.
  - destruct (Adapter.inv_noLeak _ Hinv h e Hp) as [k Hk].
    pose proof (Htr k h Hk) as (item & -> & Hin)%list_elem_of_fmap.
    exists item. split; [done|]. intros k. split; [|by intros ->].
    intros Hk'. by apply (Hinj _ _ h).
Qed.

(** X6.  [onUnmounted], from every state the mounted adapter can
    reach: no timer is held, none is pending, and the listener is
    taken out of the Store's set, so a later notification changes
    nothing. *)
Theorem X6_unmount_clears_timers_and_unsubscribes (ts : list SileoItem)
    (evs : list Adapter.Event) :
  let s := unmount (run evs (mounted ts)) in
  timers s.1 = ∅ ∧ Win.pending s.2 = ∅ ∧ listening s.1 = false ∧
  ∀ next, step s (Adapter.EListener next) = s.
Proof.
  intros s.
  pose proof (run_Inv DEFAULT_DURATION evs _ (mounted_Inv DEFAULT_DURATION ts)) as Hinv.
  unfold s. destruct (run evs (mounted ts)) as [a w].
  destruct (clearAllTimers_spec (withListening false a, w)) as [Ht Hp].
  { intros h e. apply (Adapter.inv_noLeak _ Hinv). }
  split; [done|]. split; [done|]. split; [done|]. by intros next.
Qed.

Lemma pruneTimers_keeps next s k h e :
  (∀ k k' h, timers s.1 !! k = Some h → timers s.1 !! k' = Some h → k = k') →
  k ∈ Store.timeoutKey <$> next →
  timers s.1 !! k = Some h → Win.pending s.2 !! h = Some e →
  timers (pruneTimers next s).1 !! k = Some h ∧
  Win.pending (pruneTimers next s).2 !! h = Some e.
Proof.
  intros Hs Hin Hk Hp. destruct s as [a w]. simpl in *. split.
  - by apply map_lookup_filter_Some.
  - rewrite clearTimeouts_pending. rewrite decide_False; [done|].
    intros (k' & [Hk' Hout]%map_lookup_filter_Some)%elem_of_handles.
    simpl in *. by rewrite (Hs k' k h Hk' Hk) in Hout.
Qed.


(** X8.  A notification does not restart the timer of a toast that is
    still in the list under the same key: the timer that was pending
    for it is pending afterwards with the same handle and the same due
    time. *)
Theorem X8_notification_keeps_running_timer (ts : list SileoItem)
    (evs : list Adapter.Event) (next : list SileoItem) (item : SileoItem)
    (h : nat) (e : Z * Callback) :
  let s := run evs (mounted ts) in
  item ∈ next →
  timers s.1 !! Store.timeoutKey item = Some h →
  Win.pending s.2 !! h = Some e →
  let s' := step s (Adapter.EListener next) in
  timers s'.1 !! Store.timeoutKey item = Some h ∧
  Win.pending s'.2 !! h = Some e.
Proof.
  intros s Hin Hk Hp s'.
  pose proof (run_Inv DEFAULT_DURATION evs _ (mounted_Inv DEFAULT_DURATION ts)) as Hinv.
  pose proof (run_Synced DEFAULT_DURATION evs _ (mounted_Synced DEFAULT_DURATION ts))
    as Hsyn.
  fold s in Hinv, Hsyn. unfold s'. cbn [Adapter.step].
  destruct (listening s.1); [|done].
  destruct s as [a w]. cbn [fst snd] in *.
  destruct (listener_timers DEFAULT_DURATION next a w) as (Ht & _ & _ & _ & Hw).
  rewrite Ht, Hw.
  destruct (pruneTimers_keeps next (withToasts next a, w) (Store.timeoutKey item) h e)
    as [Hk1 Hp1]; try done.
  { apply (Adapter.syn_inj _ Hsyn). }
  { apply list_elem_of_fmap. eauto. }
  unfold Toaster.schedule.
  destruct (isHovering (pruneHandlers next
    (pruneTimers next (withToasts next a, w)).1, _).1); [done|].
  apply foldl_scheduleItem_stable; [|done..].
  apply wf_clearTimeouts, Hinv.
Qed.

(** X9.  A notification sets no timer under a key whose toasts in the
    new list are exiting or have a duration that resolves to nothing
    or to a number that is not positive. *)
Theorem X9_notification_sets_no_timer_without_positive_duration
    (ts : list SileoItem) (evs : list Adapter.Event) (next : list SileoItem)
    (k : string) :
  let s := run evs (mounted ts) in
  (∀ item, item ∈ next → Store.timeoutKey item = k →
     exiting item = true ∨
     match nullish (duration item) DEFAULT_DURATION with
     | Some dur => dur ≤ 0
     | None => True
     end) →
  timers s.1 !! k = None →
  timers (step s (Adapter.EListener next)).1 !! k = None.
Proof.
  intros s Hno Hk. cbn [Adapter.step]. destruct (listening s.1); [|done].
  destruct s as [a w]. cbn [fst snd] in *.
  destruct (listener_timers DEFAULT_DURATION next a w) as (Ht & _).
  rewrite Ht, schedule_no_timer.
  - simpl. apply map_lookup_filter_None. by left.
  - intros item dur Hin Hkey Hex Hd.
    destruct (Hno item Hin Hkey) as [?|Hdur]; [congruence|].
    by rewrite Hd in Hdur.
Qed.
End AdapterExtras.

Lemma X5_pending_timer_witness :
  let s := Adapter.mounted (Some 6000) [Examples.saved; Examples.sticky] in
  Toaster.isHovering s.1 = false ∧
  ∃ item, item ∈ Toaster.toasts s.1 ∧
          ∀ k, Toaster.timers s.1 !! k = Some 1%nat ↔ k = Store.timeoutKey item.
Proof.
  exact (X5_pending_timers_belong_to_tracked_toasts (Some 6000)
           [Examples.saved; Examples.sticky] [] 1
           (500, Toaster.DismissToast "1") eq_refl).
Defined.


Lemma X8_running_timer_witness :
  let s := Adapter.run (Some 6000) [Adapter.EAdvance 300]
             (Adapter.mounted (Some 6000) [Examples.saved]) in
  let s' := Adapter.step (Some 6000) s
              (Adapter.EListener [Examples.saved; Examples.second]) in
  Toaster.timers s'.1 !! "1:2" = Some 1%nat ∧
  Win.pending s'.2 !! 1%nat = Some (500, Toaster.DismissToast "1").
Proof.
  intros s s'.
  apply (X8_notification_keeps_running_timer (Some 6000) [Examples.saved]
           [Adapter.EAdvance 300] [Examples.saved; Examples.second]
           Examples.saved 1 (500, Toaster.DismissToast "1")).
  - vm_compute. left.
  - reflexivity.
  - reflexivity.
Defined.

Lemma X9_no_timer_witness :
  Toaster.timers
    (Adapter.step (Some 6000) (Adapter.mounted (Some 6000) [Examples.saved])
       (Adapter.EListener [Examples.saved; Examples.sticky])).1 !! "5:6" = None.
Proof.
  apply (X9_notification_sets_no_timer_without_positive_duration (Some 6000)
           [Examples.saved] [] [Examples.saved; Examples.sticky] "5:6").
  - intros item [->|[->|[]%elem_of_nil]%elem_of_cons]%elem_of_cons Hk.
    + discriminate Hk.
    + right. simpl. lia.
  - reflexivity.
Defined.

(** X10.  [getViewportStyle] with an [offset]: the viewport gets a CSS
    offset on an edge exactly when its position names that edge (the
    first word [top] or [bottom], the last word [left] or [right]; a
    centred position names no horizontal edge) and the value the
    offset has for the edge is truthy; the value is then the string
    itself, or the number followed by [px]. *)
Theorem X10_viewport_offsets_on_named_edges (off : Toaster.Offset)
    (pos : SileoPosition) (e : Toaster.Edge) :
  Toaster.cssOf e (Toaster.getViewportStyle (Some off) pos)
  = if Toaster.touches pos e
       && Toaster.truthy (Toaster.edgeOf e (Toaster.edgesOf off))
    then Toaster.px <$> Toaster.edgeOf e (Toaster.edgesOf off)
    else None.
Proof. by destruct off, pos, e. Qed.
(** * More of the component *)

Section ComponentExtras.
Import Sileo.
Implicit Types (m : t) (e : Env) (s : St).

Lemma mounted_core m m' : swapCore m' = swapCore m → mounted m' = mounted m.
Proof. unfold swapCore. by intros [= _ _ _ _ ->]. Qed.

Lemma mounted_assignView v m : mounted (assignView v m) = mounted m.
Proof. by rewrite assignView_eq. Qed.

Lemma mounted_refreshWatch b k v s :
  mounted (refreshWatch b k v s).1 = mounted s.1.
Proof.
  destruct s as [m e]. unfold refreshWatch, setTimeout, Win.setTimeout.
  crush; by rewrite mounted_assignView.
Qed.

Lemma mounted_runRefresh s : mounted (runRefresh s).1 = mounted s.1.
Proof. unfold runRefresh. case_bool_decide; [done|]. by rewrite mounted_refreshWatch. Qed.

Lemma mounted_flush o s : mounted (flush o s).1 = mounted s.1.
Proof.
  unfold flush, renderSt, flushPre. cbn [fst snd].
  rewrite (mounted_core _ _ (swapCore_render _)).
  rewrite (mounted_core _ _ (swapCore_post _ _)). cbn [fst].
  rewrite (mounted_core _ _ (swapCore_render _)).
  rewrite (mounted_core _ _ (swapCore_runPrev _)), mounted_runRefresh.
  rewrite (mounted_core _ _ (swapCore_runAuto _)), mounted_runRefresh.
  destruct (autoFirst o); [|done]. apply mounted_core, swapCore_runAuto.
Qed.

Lemma mounted_create o p : mounted (create o p envInit).1 = true.
Proof.
  unfold create. rewrite mounted_flush. unfold onMounted, requestAnimationFrame.
  destruct (renderSt (setup p envInit)) as [m e].
  rewrite setupContentObserver_measures. cbn [withMeasures]. proj.
  by rewrite setupPillObserver_measures.
Qed.

(** X11.  [onUnmounted], from every state the component can reach:
    afterwards no timer of the component is pending, no resize
    observer is connected, and the only animation frames still
    requested are those of [onMounted]; so no timer callback and no
    observer callback runs on the unmounted instance. *)
Theorem X11_unmount_releases_timers_and_observers
    (o : Oracle) (p : Props) (evs : list (Oracle * Event)) (o' : Oracle) :
  let s := run evs (create o p envInit) in
  let s' := step o' EUnmount s in
  mounted (create o p envInit).1 = true ∧
  (mounted s.1 = true →
   mounted s'.1 = false ∧
   Win.pending (win s'.2) = ∅ ∧ observers s'.2 = ∅ ∧
   (∀ i f, frames s'.2 !! i = Some f → f = FrReady) ∧
   (∀ h, step o' (ETimer h) s' = s') ∧
   (∀ ob, step o' (EResize ob) s' = s')).
Proof.
  intros s s'. split; [apply mounted_create|]. intros Hm.
  pose proof (own_run evs _ (own_create o p)) as Hown. fold s in Hown.
  assert (s' = onUnmounted s) as Hs'.
  { unfold s', step. destruct s as [m e]. cbn [handle fst] in *. rewrite Hm.
    by rewrite onUnmounted_eq. }
  destruct (onUnmounted_released s Hown) as (Hp & Ho & Hf).
  rewrite <- Hs' in Hp, Ho, Hf.
  assert (mounted s'.1 = false) as Hm'.
  { rewrite Hs'. destruct s as [m e]. by rewrite onUnmounted_eq. }
  split; [done|]. split; [done|]. split; [done|].
  split; [intros i f Hi; by apply (Hf i f)|].
  split.
  - intros h. unfold step. destruct s' as [m' e']. cbn [handle fst snd] in *.
    rewrite take_empty by done. cbn [fst]. by rewrite Hm'.
  - intros ob. unfold step. destruct s' as [m' e']. cbn [handle fst snd] in *.
    rewrite Ho, lookup_empty. cbn [fst]. by rewrite Hm'.
Qed.

(** X12.  In every state the component can reach, every pending timer
    is the one whose handle its variable holds, every connected
    observer is the one its variable holds, and every requested frame
    other than the one of [onMounted] is the one whose id the variable
    of its observer holds: at most one timer of each kind, one observer
    of each element and one measuring frame of each kind are
    outstanding. *)
Theorem X12_one_timer_observer_and_frame_of_each_kind
    (o : Oracle) (p : Props) (evs : list (Oracle * Event)) :
  let s := run evs (create o p envInit) in
  (∀ h due cb, Win.pending (win s.2) !! h = Some (due, cb) →
     timerVar cb s.1 = Some h ∧
     ∀ h' due', Win.pending (win s.2) !! h' = Some (due', cb) → h' = h) ∧
  (∀ ob tg, observers s.2 !! ob = Some tg →
     observerVar tg s.1 = Some ob ∧
     ∀ ob', observers s.2 !! ob' = Some tg → ob' = ob) ∧
  (∀ i f, frames s.2 !! i = Some f → f ≠ FrReady →
     (∃ ob, frameVar f s.1 = Some (i, Some ob)) ∧
     ∀ i', frames s.2 !! i' = Some f → i' = i).
Proof.
  intros s.
  destruct (own_run evs _ (own_create o p)) as [Ht Ho Hf]. fold s in Ht, Ho, Hf.
  split; [|split].
  - intros h due cb Hp. split; [by apply (Ht h due)|].
    intros h' due' Hp'. apply Ht in Hp, Hp'. congruence.
  - intros ob tg Hp. split; [by apply Ho|].
    intros ob' Hp'. apply Ho in Hp, Hp'. congruence.
  - intros i f Hp Hne.
    destruct (Hf i f Hp) as [?|[ob Hv]]; [done|]. split; [eauto|].
    intros i' Hp'. destruct (Hf i' f Hp') as [?|[ob' Hv']]; [done|]. congruence.
Qed.

(** X13.  The header layer, in every state the component can reach:
    its current entry is the view under the key of the view, and a
    previous entry has another key.  An assignment to the view keeps
    this up: under the same key only the current entry is replaced,
    under a new key the entry that was current becomes the previous
    one.  The watcher on the previous entry files the one exit timer,
    150 ms ahead, and when that timer runs the previous entry is
    dropped and the current one stays. *)
Theorem X13_header_layer_follows_the_view
    (o : Oracle) (p : Props) (evs : list (Oracle * Event)) :
  let s := run evs (create o p envInit) in
  hl_current (headerLayer s.1) = (headerKey s.1, view s.1) ∧
  (∀ a, hl_prev (headerLayer s.1) = Some a → a.1 ≠ headerKey s.1) ∧
  (∀ v, let m' := assignView v s.1 in
        view m' = v ∧
        hl_current (headerLayer m') = (headerKeyOf v, v) ∧
        hl_prev (headerLayer m')
        = if bool_decide (headerKeyOf v = headerKey s.1)
          then hl_prev (headerLayer s.1)
          else Some (headerKey s.1, view s.1)) ∧
  (∀ a, hl_prev (headerLayer s.1) = Some a →
        let s' := prevWatch s in
        ∃ h, headerExitTimer s'.1 = Some h ∧
             Win.pending (win s'.2) !! h
             = Some (Win.now (win s.2) + HEADER_EXIT_MS, CbHeaderExit) ∧
             (∀ h' due, Win.pending (win s'.2) !! h' = Some (due, CbHeaderExit) →
                        h' = h) ∧
             hl_prev (headerLayer (onTimer CbHeaderExit s'.1)) = None ∧
             hl_current (headerLayer (onTimer CbHeaderExit s'.1))
             = hl_current (headerLayer s.1)).
Proof.
  intros s.
  destruct (HeaderOk_run o p evs) as [Hc Hp]. fold s in Hc, Hp.
  pose proof (own_run evs _ (own_create o p)) as Hown. fold s in Hown.
  split; [done|]. split; [done|]. split.
  - intros v m'. subst m'.
    assert (view (assignView v s.1) = v) as Hv by (by rewrite assignView_eq).
    destruct (HeaderOk_assignView v s.1 (conj Hc Hp)) as [Hc' _].
    unfold headerKey in Hc'. rewrite Hv in Hc'.
    split; [done|]. split; [done|].
    unfold assignView, syncHeader, headerKey.
    cbn [view set_view headerLayer]. rewrite Hc. cbn [fst snd]. unfold headerKey.
    destruct (decide (headerKeyOf (view s.1) = headerKeyOf v)) as [Heq|Hne].
    + rewrite (bool_decide_eq_true_2 _ Heq).
      rewrite (bool_decide_eq_true_2 (headerKeyOf v = _)) by done.
      by case_bool_decide.
    + rewrite (bool_decide_eq_false_2 _ Hne).
      rewrite (bool_decide_eq_false_2 (headerKeyOf v = _)) by done.
      done.
  - intros a Ha s'.
    pose proof (own_prevWatch s Hown) as [Ht _ _]. fold s' in Ht.
    unfold s' in *. destruct s as [m e]. unfold prevWatch in *.
    cbn [fst snd] in *. rewrite Ha in *.
    unfold setTimeout, Win.setTimeout in *. cbn [fst snd] in *.
    eexists. split; [reflexivity|]. split.
    { cbn [win Win.pending]. rewrite lookup_insert_eq. f_equal. f_equal.
      destruct (headerExitTimer m); done. }
    split; [|done].
    intros h' due Hh'. apply Ht in Hh'. cbn [timerVar] in Hh'. proj.
    by injection Hh' as <-.
Qed.

(** X14.  Sizes, in every state the component can reach: the frozen
    expanded height, and so the expanded height, is at least the
    minimum (90); the height of the drawing is at least the collapsed
    height (40) and, with a description, at least the minimum; the
    room left for the content is at least their difference; the pill
    is at least as wide as it is high, and its measured width is unset
    or above the padding. *)
Theorem X14_sizes_stay_above_their_minimum
    (o : Oracle) (p : Props) (evs : list (Oracle * Event)) :
  let s := run evs (create o p envInit) in
  minExpanded ≤ frozenExpanded s.1 ∧
  minExpanded ≤ (expanded s.1).1 ∧
  HEIGHT ≤ (svgHeight s.1).1 ∧
  (hasDesc s.1 = true → (svgHeight s.1).1 = (expanded s.1).1) ∧
  minExpanded - HEIGHT ≤ (expandedContent s.1).1 ∧
  (pillWidth s.1 = 0 ∨ PILL_PADDING < pillWidth s.1) ∧
  HEIGHT ≤ resolvedPillWidth s.1 ∧
  resolvedPillWidth s.1
  = (if pillWidth s.1 =? 0 then HEIGHT else Z.max (pillWidth s.1) HEIGHT).
Proof.
  intros s. destruct (Sized_run o p evs) as [Hf Hw]. fold s in Hf, Hw.
  assert (minExpanded ≤ (expanded s.1).1) as He.
  { unfold expanded. destruct (open s.1); cbn [fst];
      [apply minExpanded_rawExpanded|done]. }
  assert (HEIGHT ≤ minExpanded) as Hmin by done.
  split; [done|]. split; [done|]. split.
  { unfold svgHeight. destruct (hasDesc s.1); cbn [fst]; lia. }
  split.
  { intros Hd. unfold svgHeight. rewrite Hd. cbn [fst]. lia. }
  split.
  { unfold expandedContent. cbn [fst]. lia. }
  split; [done|]. unfold resolvedPillWidth.
  destruct (pillWidth s.1 =? 0) eqn:E; split; try lia; done.
Qed.

(** X15.  The padding of the header is measured once: in every state
    the component can reach it is the padding that was read when the
    component was mounted, whatever the header measures later, and a
    later measurement of the pill adds that padding to the width of the
    content. *)
Theorem X15_header_padding_is_read_once
    (o : Oracle) (p : Props) (evs : list (Oracle * Event)) (d : Dom) :
  let s := run evs (create o p envInit) in
  let pad := paddingLeft (dom o) + paddingRight (dom o) in
  headerPadding s.1 = Some pad ∧
  headerPadding (measurePillWidth d s.1) = Some pad ∧
  (mounted s.1 = true →
   pillWidth (measurePillWidth d s.1)
   = if bool_decide (scrollWidth d + pad + PILL_PADDING > PILL_PADDING)
     then scrollWidth d + pad + PILL_PADDING
     else pillWidth s.1).
Proof.
  intros s pad.
  assert (headerPadding s.1 = Some pad) as Hpad.
  { set (P := λ m, headerPadding m = Some pad).
    assert (∀ m m', view m' = view m → headerLayer m' = headerLayer m →
              frozenExpanded m' = frozenExpanded m → pillWidth m' = pillWidth m →
              headerPadding m' = headerPadding m → contentHeight m' = contentHeight m →
              P m → P m') as Hext.
    { intros m m' _ _ _ _ Hp _. unfold P. by rewrite Hp. }
    apply (drawn_run P Hext).
    - intros v m. rewrite assignView_eq. unfold P. by proj.
    - intros m. unfold P. by proj.
    - intros m Hm. unfold P in *. rewrite render_spec. by destruct (open m).
    - intros d' m Hm. unfold P, measurePillWidth in *. rewrite Hm. crush.
    - intros z m. unfold P. by proj.
    - apply headerPadding_create. }
  split; [done|]. unfold measurePillWidth. rewrite Hpad. split.
  - crush.
  - intros ->. cbn [negb]. rewrite Hpad.
    change (default 0 (Some pad)) with pad. by case_bool_decide.
Qed.

(** X16.  New props that keep the refresh key do not change what is
    shown: in every state a mounted component can reach, props with the
    key of the current props (a defined one) are taken over, but the
    view stays what it was, whatever title, description or state the
    new props carry, and a pending swap stays pending. *)
Theorem X16_same_refresh_key_keeps_the_view
    (o : Oracle) (p : Props) (evs : list (Oracle * Event))
    (o' : Oracle) (p' : Props) (k : string) :
  let s := run evs (create o p envInit) in
  mounted s.1 = true →
  p_refreshKey (props s.1) = Some k → p_refreshKey p' = Some k →
  let s' := step o' (EProps p') s in
  props s'.1 = p' ∧ view s'.1 = view s.1 ∧
  pendingView s'.1 = pendingView s.1 ∧ lastRefreshKey s'.1 = Some k.
Proof.
  intros s Hm Hk Hk' s'.
  destruct (run_key evs _ (create_key o p)) as [_ Hko]. fold s in Hko.
  unfold KeyOk in Hko. rewrite Hk in Hko.
  unfold s', step. destruct s as [m e]. cbn [handle fst snd] in *.
  rewrite Hm. cbn [fst mounted set_props]. rewrite Hm.
  pose proof (swapCore_flush o' (set_props p' m, e) k Hko Hk') as Hcore.
  apply swapCore_eq in Hcore as (Hp & Hv & Hpv & Hl & _).
  by rewrite Hp, Hv, Hpv, Hl.
Qed.

(** X17.  A press that starts no drag: on a toast that is exiting, or
    has no dismiss callback, or when the press is on the action
    button, the moves and the release that follow change nothing and
    call nothing; and without a press, a move and a release do
    nothing. *)
Theorem X17_press_that_starts_no_drag
    (m : t) (e : Env) (y0 y : Z) (b : bool) (moves : list Z) :
  pointerStartY m = None →
  p_exiting (props m) = true ∨ p_onDismiss (props m) = false ∨ b = true →
  handlePointerDown y0 b m = m ∧
  onMove y m = m ∧ onUp y (m, e) = (m, e) ∧
  drag y0 b moves y (m, e) = (m, e).
Proof.
  intros Hstart Hno.
  assert (handlePointerDown y0 b m = m) as Hdown.
  { unfold handlePointerDown. destruct Hno as [H|[H|H]]; rewrite H; [done| |].
    - by rewrite orb_true_r.
    - by destruct (_ || _). }
  split; [done|]. split; [unfold onMove; by rewrite Hstart|].
  split; [unfold onUp; by rewrite Hstart|].
  by apply drag_not_started.
Qed.

Lemma clearIf_now a e : Win.now (win (clearIf a e)) = Win.now (win e).
Proof. by destruct a. Qed.

Lemma clearIf_nextHandle a e :
  Win.nextHandle (win (clearIf a e)) = Win.nextHandle (win e).
Proof. by destruct a. Qed.

(** Where the auto watcher starts from: its two timers cleared. *)
Lemma autoWatch_cleared m e :
  Owned (m, e) →
  let e1 := clearIf (autoCollapseTimer m) (clearIf (autoExpandTimer m) e) in
  Win.now (win e1) = Win.now (win e) ∧
  ∀ h due cb, Win.pending (win e1) !! h = Some (due, cb) →
              cb ≠ CbAutoExpand ∧ cb ≠ CbAutoCollapse.
Proof.
  intros [Ht _ _] e1. split; [unfold e1; by rewrite !clearIf_now|].
  intros h due cb. unfold e1. rewrite !clearIf_pending.
  repeat case_decide; try done. intros Hp.
  apply Ht in Hp. cbn [fst] in Hp. split; intros ->; cbn [timerVar] in Hp; congruence.
Qed.

Lemma pending_insert_cases (w : gmap nat (Z * Callback)) n x h y :
  <[n := x]> w !! h = Some y → (h = n ∧ y = x) ∨ w !! h = Some y.
Proof. intros [[-> ->]|[_ ?]]%lookup_insert_Some; auto. Qed.

Ltac auto_pending Hp H1 :=
  repeat (apply pending_insert_cases in Hp as [[-> Hp]|Hp]);
  first [ discriminate Hp
        | injection Hp as ->
        | apply H1 in Hp; destruct Hp; congruence ].

(** X18.  The watcher on the autopilot delays.  After it has run, in
    any state the component can reach, an auto-expand or auto-collapse
    timer is pending only if the toast has a description, is not
    exiting and is allowed to expand; it is then the one timer for the
    positive delay of the props, due that delay after the run, and such
    a timer is pending for each positive delay.  A toast with a
    description that is exiting or not allowed to expand is collapsed.
    A toast that may expand and has a delay, but no positive expand
    delay, is expanded at once. *)
Theorem X18_autopilot_timers
    (o : Oracle) (p : Props) (evs : list (Oracle * Event)) :
  let s := run evs (create o p envInit) in
  let s' := autoWatch s in
  let eligible := hasDesc s.1 && negb (p_exiting (props s.1)) && allowExpand s.1 in
  let now := Win.now (win s.2) in
  (∀ h due, Win.pending (win s'.2) !! h = Some (due, CbAutoExpand) →
     eligible = true ∧ autoExpandTimer s'.1 = Some h ∧
     ∃ d, p_autoExpandDelayMs (props s.1) = Some d ∧ 0 < d ∧ due = now + d) ∧
  (∀ h due, Win.pending (win s'.2) !! h = Some (due, CbAutoCollapse) →
     eligible = true ∧ autoCollapseTimer s'.1 = Some h ∧
     ∃ d, p_autoCollapseDelayMs (props s.1) = Some d ∧ 0 < d ∧ due = now + d) ∧
  (eligible = true → ∀ d, p_autoExpandDelayMs (props s.1) = Some d → 0 < d →
     ∃ h, Win.pending (win s'.2) !! h = Some (now + d, CbAutoExpand)) ∧
  (eligible = true → ∀ d, p_autoCollapseDelayMs (props s.1) = Some d → 0 < d →
     ∃ h, Win.pending (win s'.2) !! h = Some (now + d, CbAutoCollapse)) ∧
  (hasDesc s.1 = true → eligible = false → isExpanded s'.1 = false) ∧
  (eligible = true →
   is_Some (p_autoExpandDelayMs (props s.1)) ∨
   is_Some (p_autoCollapseDelayMs (props s.1)) →
   default 0 (p_autoExpandDelayMs (props s.1)) ≤ 0 → isExpanded s'.1 = true).
Proof.
  intros s s' eligible now.
  pose proof (own_run evs _ (own_create o p)) as Hown. fold s in Hown.
  unfold s', eligible, now. clear s' eligible now.
  destruct s as [m e]. cbn [fst snd].
  destruct (autoWatch_cleared m e Hown) as [Hnow H1].
  unfold autoWatch. revert Hnow H1.
  generalize (clearIf (autoCollapseTimer m) (clearIf (autoExpandTimer m) e)).
  intros e1 Hnow H1. rewrite <- Hnow.
  assert (∀ P : nat → Z → Callback → Prop,
            ∀ h due cb, cb = CbAutoExpand ∨ cb = CbAutoCollapse →
              Win.pending (win e1) !! h = Some (due, cb) → P h due cb) as Hnone.
  { intros P h due cb Hcb Hp. apply H1 in Hp as [? ?]. by destruct Hcb. }
  destruct (hasDesc m) eqn:Hd; cbn [negb andb].
  2: { split; [intros h due; apply (Hnone (λ h due cb, _)); by left|].
       split; [intros h due; apply (Hnone (λ h due cb, _)); by right|].
       by repeat split. }
  destruct (p_exiting (props m)) eqn:Hx; cbn [negb andb orb].
  { split; [intros h due; apply (Hnone (λ h due cb, _)); by left|].
    split; [intros h due; apply (Hnone (λ h due cb, _)); by right|].
    by repeat split. }
  destruct (allowExpand m) eqn:Ha; cbn [negb].
  2: { split; [intros h due; apply (Hnone (λ h due cb, _)); by left|].
       split; [intros h due; apply (Hnone (λ h due cb, _)); by right|].
       by repeat split. }
  unfold setTimeout, Win.setTimeout.
  destruct (p_autoExpandDelayMs (props m)) as [d1|] eqn:E1;
    destruct (p_autoCollapseDelayMs (props m)) as [d2|] eqn:E2;
    cbn [default from_option Datatypes.id];
    repeat case_bool_decide; cbn [fst snd win Win.pending Win.now Win.nextHandle];
    proj.
  all: split; [intros h due Hp; auto_pending Hp H1;
               (split; [done|]); (split; [proj; done|]); eexists;
               (split; [done|]); (split; [lia|done])|].
  all: split; [intros h due Hp; auto_pending Hp H1;
               (split; [done|]); (split; [proj; done|]); eexists;
               (split; [done|]); (split; [lia|done])|].
  all: split; [intros _ d [= <-] Hpos; try lia;
               first [ by exists (S (Win.nextHandle (win e1))); apply lookup_insert_eq
                     | by exists (Win.nextHandle (win e1)); apply lookup_insert_eq
                     | exists (Win.nextHandle (win e1));
                       rewrite lookup_insert_ne by lia; by apply lookup_insert_eq ]|].
  all: split; [intros _ d [= <-] Hpos; try lia;
               first [ by exists (S (Win.nextHandle (win e1))); apply lookup_insert_eq
                     | by exists (Win.nextHandle (win e1)); apply lookup_insert_eq
                     | exists (Win.nextHandle (win e1));
                       rewrite lookup_insert_ne by lia; by apply lookup_insert_eq ]|].
  all: split; [done|].
  all: intros _ Hsome Hle; try done; try lia.
  all: destruct Hsome as [[? [=]]|[? [=]]].
Qed.

(** X19.  Props without a refresh key are shown at once: in every
    state a mounted component can reach, after such props arrive the
    view is their content and no swap is pending, also when the card
    is open. *)
Theorem X19_props_without_key_are_shown_at_once
    (o : Oracle) (p : Props) (evs : list (Oracle * Event))
    (o' : Oracle) (p' : Props) :
  let s := run evs (create o p envInit) in
  mounted s.1 = true → p_refreshKey p' = None →
  let s' := step o' (EProps p') s in
  props s'.1 = p' ∧ view s'.1 = next p' ∧ pendingView s'.1 = None.
Proof.
  intros s Hm Hk s'.
  pose proof (Unkeyed_run evs _ (Unkeyed_create o p)) as Hu. fold s in Hu.
  unfold s', step. destruct s as [m e]. cbn [handle fst snd] in *.
  rewrite Hm. cbn [fst mounted set_props]. rewrite Hm.
  unfold flush, renderSt, flushPre. cbn [fst snd].
  set (s0 := if autoFirst o' then runAuto (set_props p' m, e) else (set_props p' m, e)).
  assert (swapCore s0.1 = swapCore (set_props p' m) ∧
          refreshCore s0.1 = refreshCore (set_props p' m) ∧
          applied s0.1 = applied (set_props p' m)) as (Hsc0 & Hrc0 & Ha0).
  { unfold s0. destruct (autoFirst o'); [|done].
    by rewrite swapCore_runAuto, refreshCore_runAuto, applied_runAuto. }
  assert (Unkeyed s0.1) as Hu0.
  { apply (Unkeyed_core (set_props p' m)); [done|done|apply Ha0|]. by apply (Unkeyed_seen m). }
  assert (props s0.1 = p') as Hp0.
  { by apply swapCore_eq in Hsc0 as (-> & _). }
  destruct (runRefresh_unkeyed s0 Hu0) as (_ & _ & _ & Hp1 & Hu1); [by rewrite Hp0|].
  pose proof (swapCore_runAuto (runRefresh s0)) as Hsc2.
  pose proof (refreshCore_runAuto (runRefresh s0)) as Hrc2.
  destruct (runRefresh_unkeyed (runAuto (runRefresh s0))) as (Hv3 & Hpv3 & _ & Hp3 & _).
  { apply (Unkeyed_core (runRefresh s0).1); [done|done|apply applied_runAuto|done]. }
  { apply swapCore_eq in Hsc2 as (-> & _). by rewrite Hp1, Hp0. }
  assert (props (runAuto (runRefresh s0)).1 = p') as Hp2.
  { apply swapCore_eq in Hsc2 as (-> & _). by rewrite Hp1, Hp0. }
  rewrite Hp2 in *.
  set (s3 := runRefresh (runAuto (runRefresh s0))) in *.
  assert (swapCore (render (runHasDesc (dom o') (runHeaderKey (dom o')
            (render (runPrev s3).1, (runPrev s3).2))).1) = swapCore s3.1) as Hfin.
  { rewrite swapCore_render, swapCore_post. cbn [fst].
    by rewrite swapCore_render, swapCore_runPrev. }
  apply swapCore_eq in Hfin as (-> & -> & -> & _). done.
Qed.
End ComponentExtras.

Lemma X19_unkeyed_witness :
  let s := Sileo.run [(Examples.measured, Sileo.EMouseEnter)]
             (Sileo.create Examples.measured Examples.card Sileo.envInit) in
  let s' := Sileo.step Examples.measured (Sileo.EProps Examples.cardUnkeyed) s in
  Sileo.props s'.1 = Examples.cardUnkeyed ∧
  Sileo.view s'.1 = Sileo.next Examples.cardUnkeyed ∧
  Sileo.pendingView s'.1 = None.
Proof.
  exact (X19_props_without_key_are_shown_at_once Examples.measured Examples.card
           [(Examples.measured, Sileo.EMouseEnter)]
           Examples.measured Examples.cardUnkeyed
           ltac:(vm_compute; reflexivity) eq_refl).
Defined.

Lemma X16_same_key_witness :
  let s := Sileo.run [(Examples.measured, Sileo.EMouseEnter)]
             (Sileo.create Examples.measured Examples.card Sileo.envInit) in
  let s' := Sileo.step Examples.measured (Sileo.EProps Examples.cardRetitled) s in
  Sileo.props s'.1 = Examples.cardRetitled ∧
  Sileo.view s'.1 = Sileo.view s.1 ∧
  Sileo.pendingView s'.1 = Sileo.pendingView s.1 ∧
  Sileo.lastRefreshKey s'.1 = Some "2".
Proof.
  exact (X16_same_refresh_key_keeps_the_view Examples.measured Examples.card
           [(Examples.measured, Sileo.EMouseEnter)]
           Examples.measured Examples.cardRetitled "2"
           ltac:(vm_compute; reflexivity) ltac:(vm_compute; reflexivity) eq_refl).
Defined.

Lemma X17_no_drag_witness :
  Sileo.handlePointerDown 100 false (Sileo.initial Examples.cardExiting)
  = Sileo.initial Examples.cardExiting ∧
  Sileo.onMove 140 (Sileo.initial Examples.cardExiting)
  = Sileo.initial Examples.cardExiting ∧
  Sileo.onUp 140 (Sileo.initial Examples.cardExiting, Sileo.envInit)
  = (Sileo.initial Examples.cardExiting, Sileo.envInit) ∧
  Sileo.drag 100 false [110; 125; 140] 140
    (Sileo.initial Examples.cardExiting, Sileo.envInit)
  = (Sileo.initial Examples.cardExiting, Sileo.envInit).
Proof.
  apply (X17_press_that_starts_no_drag (Sileo.initial Examples.cardExiting)
           Sileo.envInit 100 140 false [110; 125; 140]).
  - reflexivity.
  - left. reflexivity.
Defined.
(** * The component: the calls of the function props *)

Section OutsFacts.
Import Sileo.
Implicit Types (m : t) (e : Env) (s : St).

Lemma outs_prevWatch s : outs (prevWatch s).2 = outs s.2.
Proof.
  destruct s as [m e]. unfold prevWatch, setTimeout, Win.setTimeout.
  crush; cbn [outs]; by autorewrite with env.
Qed.

Lemma outs_runPrev s : outs (runPrev s).2 = outs s.2.
Proof. unfold runPrev. case_bool_decide; [done|]. by rewrite outs_prevWatch. Qed.

Lemma outs_refreshWatch b k v s : outs (refreshWatch b k v s).2 = outs s.2.
Proof.
  destruct s as [m e]. unfold refreshWatch, setTimeout, Win.setTimeout.
  crush; cbn [outs]; by autorewrite with env.
Qed.

Lemma outs_runRefresh s : outs (runRefresh s).2 = outs s.2.
Proof. unfold runRefresh. case_bool_decide; [done|]. by rewrite outs_refreshWatch. Qed.

Lemma outs_autoWatch s : outs (autoWatch s).2 = outs s.2.
Proof.
  destruct s as [m e]. unfold autoWatch, setTimeout, Win.setTimeout.
  crush; cbn [outs]; by autorewrite with env.
Qed.

Lemma outs_runAuto s : outs (runAuto s).2 = outs s.2.
Proof. unfold runAuto. case_bool_decide; [done|]. by rewrite outs_autoWatch. Qed.

Lemma outs_setupPillObserver d s : outs (setupPillObserver d s).2 = outs s.2.
Proof.
  destruct s as [m e]. unfold setupPillObserver, observe.
  crush; cbn [outs]; by autorewrite with env.
Qed.

Lemma outs_setupContentObserver d s : outs (setupContentObserver d s).2 = outs s.2.
Proof.
  destruct s as [m e]. unfold setupContentObserver, observe.
  crush; cbn [outs]; by autorewrite with env.
Qed.

Lemma outs_runHeaderKey d s : outs (runHeaderKey d s).2 = outs s.2.
Proof.
  unfold runHeaderKey. case_bool_decide; [done|]. by rewrite outs_setupPillObserver.
Qed.

Lemma outs_runHasDesc d s : outs (runHasDesc d s).2 = outs s.2.
Proof.
  unfold runHasDesc. case_bool_decide; [done|]. by rewrite outs_setupContentObserver.
Qed.

Lemma outs_renderSt s : outs (renderSt s).2 = outs s.2.
Proof. done. Qed.

Lemma outs_flushPre b s : outs (flushPre b s).2 = outs s.2.
Proof.
  unfold flushPre.
  rewrite outs_runPrev, outs_runRefresh, outs_runAuto, outs_runRefresh.
  destruct b; [apply outs_runAuto|done].
Qed.

Lemma outs_flush o s : outs (flush o s).2 = outs s.2.
Proof.
  unfold flush.
  by rewrite outs_renderSt, outs_runHasDesc, outs_runHeaderKey, outs_renderSt,
    outs_flushPre.
Qed.

(** X20.  The calls of the function props.  One event makes at most
    one call: a mouse enter or leave on the mounted component calls
    [onMouseEnter] or [onMouseLeave] when it is given, the release of
    a drag calls [onDismiss] when the pointer moved more than 30 px
    from where it was pressed and the prop is given; no other event,
    and nothing the watchers, the timers or the frames do, makes a
    call. *)
Theorem X20_function_props_are_called_by_pointer_events_only
    (o : Oracle) (ev : Event) (s : St) :
  outs (step o ev s).2
  = outs s.2 ++
    (if mounted s.1 then
       match ev with
       | EMouseEnter => if p_onMouseEnter (props s.1) then [OMouseEnter] else []
       | EMouseLeave => if p_onMouseLeave (props s.1) then [OMouseLeave] else []
       | EPointerUp y =>
           match pointerStartY s.1 with
           | Some y0 =>
               if bool_decide (Z.abs (y - y0) > SWIPE_DISMISS)
                  && p_onDismiss (props s.1)
               then [ODismiss] else []
           | None => []
           end
       | _ => []
       end
     else []).
Proof.
  assert (outs (step o ev s).2 = outs (handle o ev s).2) as ->.
  { unfold step. destruct (mounted (handle o ev s).1); [apply outs_flush|done]. }
  destruct s as [m e]. destruct ev; cbn [handle fst snd].
  - destruct (mounted m); cbn [snd]; by rewrite app_nil_r.
  - unfold handleEnter, emit. crush; by rewrite ?app_nil_r.
  - unfold handleLeave, emit. crush; by rewrite ?app_nil_r.
  - unfold handleTransitionEnd, clearTimeout. crush; by rewrite ?app_nil_r.
  - destruct (mounted m); cbn [snd]; by rewrite app_nil_r.
  - destruct (mounted m); cbn [snd]; by rewrite app_nil_r.
  - unfold onUp, emit. destruct (mounted m); [|by rewrite app_nil_r].
    destruct (pointerStartY m); [|by rewrite app_nil_r].
    case_bool_decide; destruct (p_onDismiss (props m)); cbn [snd outs andb];
      by rewrite ?app_nil_r.
  - destruct (Win.take h (win e)) as [[cb w]|]; cbn [snd outs];
      destruct (mounted m); by rewrite app_nil_r.
  - destruct (frames e !! i); cbn [snd]; autorewrite with env;
      destruct (mounted m); by rewrite app_nil_r.
  - destruct (observers e !! o0) as [tg|]; [|destruct (mounted m); by rewrite app_nil_r].
    unfold onResize, requestAnimationFrame, cancelAnimationFrame.
    destruct tg; cbn [snd outs]; destruct (mounted m); by rewrite app_nil_r.
  - cbn [advance outs]. destruct (mounted m); by rewrite app_nil_r.
  - destruct (mounted m); [|by rewrite app_nil_r].
    rewrite onUnmounted_eq. cbn [snd]. autorewrite with env.
    unfold release. destruct (contentRo m), (pillRo m); autorewrite with env;
      by rewrite app_nil_r.
Qed.
End OutsFacts.
(** * The component at rest *)

Section RestExtras.
Import Sileo.
Implicit Types (m : t) (e : Env) (s : St).

(** X21.  The scheduler leaves no job behind: in every state a
    mounted component can reach, each watcher has seen the current
    values of its sources (the refresh watcher the open state, the key
    and the content of the props; the auto watcher the delays, the
    description, the permission to expand, the exiting flag and the
    applied key; the header watcher the previous layer), and the key
    handled last is the key of the props. *)
Theorem X21_no_watcher_job_is_left
    (o : Oracle) (p : Props) (evs : list (Oracle * Event)) :
  let s := run evs (create o p envInit) in
  mounted s.1 = true →
  refreshSources s.1 = seenRefresh s.1 ∧
  autoSources s.1 = seenAuto s.1 ∧
  hl_prev (headerLayer s.1) = seenPrev s.1 ∧
  lastRefreshKey s.1 = p_refreshKey (props s.1).
Proof.
  intros s Hm.
  destruct (AtRest_run evs _ (AtRest_create o p)) as (_ & Hko & _ & Hnj).
  fold s in Hko, Hnj. destruct (Hnj Hm) as (H1 & H2 & H3). by repeat split.
Qed.

Lemma SeenProps_noJob m : noJob m → SeenProps m.
Proof. intros [H _]. unfold SeenProps. by rewrite <- H. Qed.

(** A handler that writes [isExpanded] and nothing else the watchers
    read, followed by the scheduler. *)
Lemma step_expanded o s m' e' b :
  AtRest s → mounted s.1 = true →
  m' = set_isExpanded b s.1 →
  let s' := flush o (m', e') in
  view s'.1 = view s.1 ∧ isExpanded s'.1 = b ∧
  open s'.1 = hasDesc s.1 && b && negb (isLoading s.1).
Proof.
  intros (Hks & Hko & Hu & Hnj) Hm -> s'.
  destruct (Hnj Hm) as (H1 & H2 & H3).
  destruct (flush_quiet o (set_isExpanded b s.1, e')) as [Hsc Hac].
  - by apply (KeyOk_core s.1).
  - by apply (Unkeyed_seen s.1).
  - apply (SeenProps_core s.1); [done..|]. by apply SeenProps_noJob.
  - cbn [fst]. change (seenAuto s.1 = autoSources (set_isExpanded b s.1)).
    rewrite <- H2. symmetry. by apply autoSources_core.
  - apply swapCore_eq in Hsc as (_ & Hv & _).
    apply autoCore_eq in Hac as (_ & He & _).
    fold s' in Hv, He. cbn [fst] in Hv, He.
    split; [done|]. split; [done|].
    unfold open, hasDesc, isLoading. by rewrite Hv, He.
Qed.

(** X22.  Hovering the toast: in every state a mounted component can
    reach, after a mouse enter the card of a toast with a description
    is open, unless the toast is loading, whether or not the toast is
    allowed to expand or exiting; after a mouse leave the card is not
    open; neither changes the view. *)
Theorem X22_hover_opens_the_card_and_leave_closes_it
    (o : Oracle) (p : Props) (evs : list (Oracle * Event)) (o' : Oracle) :
  let s := run evs (create o p envInit) in
  mounted s.1 = true →
  let s1 := step o' EMouseEnter s in
  let s2 := step o' EMouseLeave s in
  view s1.1 = view s.1 ∧
  isExpanded s1.1 = (hasDesc s.1 || isExpanded s.1) ∧
  open s1.1 = hasDesc s.1 && negb (isLoading s.1) ∧
  view s2.1 = view s.1 ∧ isExpanded s2.1 = false ∧ open s2.1 = false.
Proof.
  intros s Hm s1 s2.
  pose proof (AtRest_run evs _ (AtRest_create o p)) as Hrest. fold s in Hrest.
  assert (view s1.1 = view s.1 ∧
          isExpanded s1.1 = (hasDesc s.1 || isExpanded s.1) ∧
          open s1.1 = hasDesc s.1 && (hasDesc s.1 || isExpanded s.1)
                      && negb (isLoading s.1)) as (Hv1 & He1 & Ho1).
  { unfold s1, step. destruct s as [m e]. cbn [handle fst snd] in *.
    rewrite Hm. unfold handleEnter.
    assert (mounted (if hasDesc m then set_isExpanded true m else m) = true) as Hm1
      by (by destruct (hasDesc m)).
    cbn [fst]. rewrite Hm1.
    apply (step_expanded o' (m, e)); [done..|].
    destruct (hasDesc m); [done|]. by destruct m. }
  assert (view s2.1 = view s.1 ∧ isExpanded s2.1 = false ∧
          open s2.1 = hasDesc s.1 && false && negb (isLoading s.1))
    as (Hv2 & He2 & Ho2).
  { unfold s2, step. destruct s as [m e]. cbn [handle fst snd] in *.
    rewrite Hm. unfold handleLeave. cbn [fst mounted set_isExpanded]. rewrite Hm.
    by apply (step_expanded o' (m, e)). }
  split; [done|]. split; [done|]. split.
  { rewrite Ho1. by destruct (hasDesc s.1). }
  split; [done|]. split; [done|]. rewrite Ho2. by rewrite andb_false_r.
Qed.

Lemma autoWatch_collapses s :
  hasDesc s.1 = true →
  p_exiting (props s.1) = true ∨ allowExpand s.1 = false →
  isExpanded (autoWatch s).1 = false.
Proof.
  destruct s as [m e]. cbn [fst]. intros Hd Hno. unfold autoWatch.
  rewrite Hd. cbn [negb].
  assert (p_exiting (props m) || negb (allowExpand m) = true) as ->; [|done].
  destruct Hno as [-> | ->]; [done|]. by rewrite orb_true_r.
Qed.

(** X23.  Losing the permission to expand collapses the card: in
    every state a mounted component can reach, when props under the
    same refresh key arrive that change a source of the auto watcher
    and make the toast exiting or not allowed to expand, the card of
    a toast with a description is collapsed, and so not open, after
    the event; the view is what it was. *)
Theorem X23_losing_permission_collapses_the_card
    (o : Oracle) (p : Props) (evs : list (Oracle * Event))
    (o' : Oracle) (p' : Props) (k : string) :
  let s := run evs (create o p envInit) in
  mounted s.1 = true →
  p_refreshKey (props s.1) = Some k → p_refreshKey p' = Some k →
  hasDesc s.1 = true →
  autoSources (set_props p' s.1) ≠ autoSources s.1 →
  p_exiting p' = true ∨ allowExpand (set_props p' s.1) = false →
  let s' := step o' (EProps p') s in
  view s'.1 = view s.1 ∧ isExpanded s'.1 = false ∧ open s'.1 = false.
Proof.
  intros s Hm Hk Hk' Hd Hsrc Hno s'.
  destruct (AtRest_run evs _ (AtRest_create o p)) as (_ & Hko & _ & Hnj).
  fold s in Hko, Hnj. destruct (Hnj Hm) as (_ & H2 & _).
  unfold KeyOk in Hko. rewrite Hk in Hko.
  unfold s', step. destruct s as [m e]. cbn [handle fst snd] in *.
  rewrite Hm. cbn [fst mounted set_props]. rewrite Hm.
  pose proof (swapCore_flush o' (set_props p' m, e) k Hko Hk') as Hsc.
  apply swapCore_eq in Hsc as (_ & Hv & _).
  pose proof (flush_keyed o' (set_props p' m, e) k Hko Hk') as Hac.
  apply autoCore_eq in Hac as (_ & He & _).
  assert (isExpanded (runAuto (set_props p' m, e)).1 = false) as Hcol.
  { unfold runAuto. cbn [fst snd].
    rewrite bool_decide_eq_false_2.
    - apply autoWatch_collapses; [done|]. exact Hno.
    - change (seenAuto (set_props p' m)) with (seenAuto m). by rewrite <- H2. }
  rewrite Hcol in He.
  split; [done|]. split; [done|].
  unfold open. rewrite He. by rewrite andb_false_r.
Qed.

(** X24.  The autopilot timers: in every state a mounted component
    can reach, when the pending auto-expand timer is due and runs, the
    card is expanded after the event, and open if the toast has a
    description and is not loading; when the auto-collapse timer runs,
    the card is collapsed; the view is what it was. *)
Theorem X24_autopilot_timers_expand_and_collapse
    (o : Oracle) (p : Props) (evs : list (Oracle * Event))
    (o' : Oracle) (h : nat) (due : Z) (cb : Callback) :
  let s := run evs (create o p envInit) in
  mounted s.1 = true →
  Win.pending (win s.2) !! h = Some (due, cb) → due ≤ Win.now (win s.2) →
  cb = CbAutoExpand ∨ cb = CbAutoCollapse →
  let s' := step o' (ETimer h) s in
  let expands := match cb with CbAutoExpand => true | _ => false end in
  view s'.1 = view s.1 ∧
  isExpanded s'.1 = expands ∧
  open s'.1 = hasDesc s.1 && expands && negb (isLoading s.1).
Proof.
  intros s Hm Hp Hdue Hcb s' expands.
  pose proof (AtRest_run evs _ (AtRest_create o p)) as Hrest. fold s in Hrest.
  unfold s', expands, step. destruct s as [m e]. cbn [handle fst snd] in *.
  assert (Win.take h (win e) = Some (cb, Win.clearTimeout h (win e))) as ->.
  { apply take_Some. eauto. }
  cbn [fst].
  assert (mounted (onTimer cb m) = true ∧
          onTimer cb m
          = set_isExpanded (match cb with CbAutoExpand => true | _ => false end) m)
    as [-> Hon].
  { by destruct Hcb as [-> | ->]. }
  by apply (step_expanded o' (m, e)).
Qed.
End RestExtras.

Lemma X21_no_job_witness :
  let s := Sileo.run [(Examples.measured, Sileo.EMouseEnter);
                      (Examples.measured, Sileo.EProps Examples.cardUpdated)]
             (Sileo.create Examples.measured Examples.card Sileo.envInit) in
  Sileo.refreshSources s.1 = Sileo.seenRefresh s.1 ∧
  Sileo.autoSources s.1 = Sileo.seenAuto s.1 ∧
  Sileo.hl_prev (Sileo.headerLayer s.1) = Sileo.seenPrev s.1 ∧
  Sileo.lastRefreshKey s.1 = Sileo.p_refreshKey (Sileo.props s.1).
Proof.
  exact (X21_no_watcher_job_is_left Examples.measured Examples.card
           [(Examples.measured, Sileo.EMouseEnter);
            (Examples.measured, Sileo.EProps Examples.cardUpdated)]
           ltac:(vm_compute; reflexivity)).
Defined.

Lemma X22_hover_witness :
  let s := Sileo.run [] (Sileo.create Examples.measured Examples.card Sileo.envInit) in
  let s1 := Sileo.step Examples.measured Sileo.EMouseEnter s in
  let s2 := Sileo.step Examples.measured Sileo.EMouseLeave s in
  Sileo.view s1.1 = Sileo.view s.1 ∧
  Sileo.isExpanded s1.1 = (Sileo.hasDesc s.1 || Sileo.isExpanded s.1) ∧
  Sileo.open s1.1 = Sileo.hasDesc s.1 && negb (Sileo.isLoading s.1) ∧
  Sileo.view s2.1 = Sileo.view s.1 ∧ Sileo.isExpanded s2.1 = false ∧
  Sileo.open s2.1 = false.
Proof.
  exact (X22_hover_opens_the_card_and_leave_closes_it Examples.measured
           Examples.card [] Examples.measured ltac:(vm_compute; reflexivity)).
Defined.

Lemma X23_permission_witness :
  let s := Sileo.run [(Examples.measured, Sileo.EMouseEnter)]
             (Sileo.create Examples.measured Examples.card Sileo.envInit) in
  let s' := Sileo.step Examples.measured (Sileo.EProps Examples.cardDisallowed) s in
  Sileo.open s.1 = true ∧
  Sileo.view s'.1 = Sileo.view s.1 ∧ Sileo.isExpanded s'.1 = false ∧
  Sileo.open s'.1 = false.
Proof.
  split; [vm_compute; reflexivity|].
  exact (X23_losing_permission_collapses_the_card Examples.measured Examples.card
           [(Examples.measured, Sileo.EMouseEnter)]
           Examples.measured Examples.cardDisallowed "2"
           ltac:(vm_compute; reflexivity) ltac:(vm_compute; reflexivity) eq_refl
           ltac:(vm_compute; reflexivity) ltac:(vm_compute; congruence)
           ltac:(right; vm_compute; reflexivity)).
Defined.

Lemma X24_autopilot_witness :
  let s := Sileo.run [(Examples.measured, Sileo.EAdvance 1000)]
             (Sileo.create Examples.measured Examples.cardAuto Sileo.envInit) in
  let s' := Sileo.step Examples.measured (Sileo.ETimer 1) s in
  Sileo.open s.1 = false ∧
  Sileo.view s'.1 = Sileo.view s.1 ∧
  Sileo.isExpanded s'.1 = true ∧
  Sileo.open s'.1 = Sileo.hasDesc s.1 && true && negb (Sileo.isLoading s.1).
Proof.
  split; [vm_compute; reflexivity|].
  exact (X24_autopilot_timers_expand_and_collapse Examples.measured Examples.cardAuto
           [(Examples.measured, Sileo.EAdvance 1000)]
           Examples.measured 1 1000 Sileo.CbAutoExpand
           ltac:(vm_compute; reflexivity) ltac:(vm_compute; reflexivity)
           ltac:(vm_compute; discriminate) ltac:(left; reflexivity)).
Defined.

(** * Viewport offsets ([getViewportStyle]) *)

Section ViewportStyle.
Import Toaster.

Lemma truthy_zeroOffset b : truthy (Some (zeroOffset b)) = false.
Proof. by destruct b. Qed.

Lemma emit_falsy c v : truthy v = false → emit c v = None.
Proof. unfold emit. intros ->. by rewrite andb_false_r. Qed.

Lemma edgeOf_setEdge e v o : edgeOf e (setEdge e v o) = v.
Proof. by destruct e. Qed.

(** An edge the position does not touch, or whose value is falsy, gets
    no CSS property. *)
Lemma cssOf_getViewportStyle e o pos :
  truthy (edgeOf e o) = false →
  cssOf e (getViewportStyle (Some (PerEdge o)) pos) = None.
Proof. intros H. destruct e; simpl in *; by apply emit_falsy. Qed.

(** A truthy value on an edge of the position is emitted, numbers with
    the [px] unit. *)
Lemma getViewportStyle_top_right_emits n :
  n ≠ 0 →
  getViewportStyle (Some (Scalar (OffNum n))) top_right
  = Some (mkStyle (Some (pretty n +:+ "px")) (Some (pretty n +:+ "px")) None None).
Proof.
  intros Hn. unfold getViewportStyle, emit. simpl.
  by rewrite (proj2 (Z.eqb_neq n 0) Hn).
Qed.

(** C10.  In the viewport-offset resolution an edge whose offset is the
    number 0 or the empty string is treated as absent: no CSS offset is
    emitted for that edge at any position, and the style is the one
    obtained when the edge is not given at all, so the two cannot be told
    apart; a scalar offset is first expanded to the four edges, and a
    scalar zero emits nothing on any edge, like no offset. *)
Theorem C10_zero_offset_is_absent :
  (∀ (asNumber : bool) (o : SileoOffsetConfig) (pos : SileoPosition) (e : Edge),
     let given := setEdge e (Some (zeroOffset asNumber)) o in
     let absent := setEdge e None o in
     cssOf e (getViewportStyle (Some (PerEdge given)) pos) = None ∧
     getViewportStyle (Some (PerEdge given)) pos
     = getViewportStyle (Some (PerEdge absent)) pos) ∧
  (∀ (v : SileoOffsetValue) (pos : SileoPosition),
     getViewportStyle (Some (Scalar v)) pos
     = getViewportStyle
         (Some (PerEdge (mkOffset (Some v) (Some v) (Some v) (Some v)))) pos) ∧
  (∀ (asNumber : bool) (pos : SileoPosition) (e : Edge),
     cssOf e (getViewportStyle (Some (Scalar (zeroOffset asNumber))) pos)
     = cssOf e (getViewportStyle None pos)).
Proof.
  split; [|split].
  - intros b o pos e given absent. split.
    + apply cssOf_getViewportStyle. unfold given.
      rewrite edgeOf_setEdge. apply truthy_zeroOffset.
    + unfold given, absent, getViewportStyle.
      destruct e; simpl; f_equal;
        rewrite (emit_falsy _ (Some (zeroOffset b)) (truthy_zeroOffset b));
        by rewrite (emit_falsy _ None).
  - reflexivity.
  - intros b pos e.
    change (getViewportStyle (Some (Scalar (zeroOffset b))) pos)
      with (getViewportStyle
              (Some (PerEdge (mkOffset (Some (zeroOffset b)) (Some (zeroOffset b))
                                       (Some (zeroOffset b)) (Some (zeroOffset b))))) pos).
    rewrite cssOf_getViewportStyle; [done|].
    destruct e; apply truthy_zeroOffset.
Qed.

End ViewportStyle.
